(** * hot_ret_parser: classify, decode and load fixed-width record files

    A shallow embedding of [src/hot_ret_parser.py].  Python values are
    modelled as follows.

    - [str] is [string]; a character is a code point below 256 ([ascii]).
      Slicing follows Python's rules for out-of-range and negative
      indices, [strip] removes the characters for which [str.isspace]
      holds.
    - a [dict] with string keys is a [gmap string _]; the dict that
      groups the decoded records per destination table is an association
      list, because the load visits it in insertion order.
    - the metadata [DataFrame] is the list of its rows, in order; a cell
      of a numeric column is [None] for the null that
      [pd.to_numeric(..., errors='coerce')] leaves, and otherwise a
      number, which may be an infinity.
    - the decode tasks of a file run in a pool of eight worker threads
      that share the metadata cache; a schedule lists the order in which
      the tasks take their steps on the shared state.
    - the relational store is a connection state with a committed part and
      the working copy of the open transaction.
    - an exception is a value: a function that can raise returns a sum. *)

From Stdlib Require Import ZArith Ascii String.
From stdpp Require Import base option list gmap strings fin_maps.

Local Open Scope Z_scope.

(** ** Python strings *)

Module PyStr.

Definition chars (s : string) : list ascii := String.list_ascii_of_string s.
Definition str (l : list ascii) : string := String.string_of_list_ascii l.

(** [len(s)] *)
Definition len (s : string) : Z := Z.of_nat (String.length s).

(** The index that a slice bound [i] denotes in a sequence of length
    [n]: a negative bound counts from the end, and the result is
    clamped to [0..n]. *)
Definition clamp_index (n i : Z) : Z :=
  if i <? 0 then Z.max 0 (i + n) else Z.min i n.

(** [s[start:stop]] *)
Definition slice (s : string) (start stop : Z) : string :=
  let n := len s in
  let a := clamp_index n start in
  let b := clamp_index n stop in
  str (take (Z.to_nat (b - a)) (drop (Z.to_nat a) (chars s))).

(** [s[start:]] *)
Definition slice_from (s : string) (start : Z) : string :=
  slice s start (len s).

(** [c.isspace()] for a code point below 256. *)
Definition isspace (c : ascii) : bool :=
  let n := N_of_ascii c in
  ((9 <=? n)%N && (n <=? 13)%N) || ((28 <=? n)%N && (n <=? 32)%N)
  || (n =? 133)%N || (n =? 160)%N.

Fixpoint lstrip_chars (l : list ascii) : list ascii :=
  match l with
  | [] => []
  | c :: l' => if isspace c then lstrip_chars l' else l
  end.

Definition rstrip_chars (l : list ascii) : list ascii :=
  reverse (lstrip_chars (reverse l)).

(** [s.strip()] *)
Definition strip (s : string) : string :=
  str (rstrip_chars (lstrip_chars (chars s))).

(** [s.startswith(prefix)] *)
Definition startswith (s prefix : string) : bool := String.prefix prefix s.

(** [s.rfind(c)] for a one-character [c]: the highest index at which
    [c] occurs, or [-1]. *)
Fixpoint rfind_from (i : Z) (c : ascii) (l : list ascii) (acc : Z) : Z :=
  match l with
  | [] => acc
  | x :: l' => rfind_from (i + 1) c l' (if Ascii.eqb x c then i else acc)
  end.

Definition rfind (s : string) (c : ascii) : Z := rfind_from 0 c (chars s) (-1).

End PyStr.

(** ** os.path.splitext

    [genericpath._splitext(p, sep, altsep, extsep)], which both
    [posixpath.splitext] and [ntpath.splitext] call. *)

Inductive os_flavour := Posix | Nt.

Definition os_sep (os : os_flavour) : ascii :=
  match os with Posix => "/"%char | Nt => "\"%char end.

Definition os_altsep (os : os_flavour) : option ascii :=
  match os with Posix => None | Nt => Some "/"%char end.

Definition extsep : ascii := "."%char.

(** The loop that skips the leading dots of the last path component:
    [true] when a character other than [extsep] is found before
    [dotIndex]. *)
Fixpoint splitext_scan (p : string) (fuel : nat) (filenameIndex dotIndex : Z) : bool :=
  match fuel with
  | O => false
  | S fuel' =>
      if filenameIndex <? dotIndex then
        if negb (String.eqb (PyStr.slice p filenameIndex (filenameIndex + 1))
                            (String extsep EmptyString))
        then true
        else splitext_scan p fuel' (filenameIndex + 1) dotIndex
      else false
  end.

Definition splitext (os : os_flavour) (p : string) : string * string :=
  let sepIndex :=
    match os_altsep os with
    | Some alt => Z.max (PyStr.rfind p (os_sep os)) (PyStr.rfind p alt)
    | None => PyStr.rfind p (os_sep os)
    end in
  let dotIndex := PyStr.rfind p extsep in
  if (dotIndex >? sepIndex)
     && splitext_scan p (String.length p) (sepIndex + 1) dotIndex
  then (PyStr.slice p 0 dotIndex, PyStr.slice_from p dotIndex)
  else (p, PyStr.slice p 0 0).

(** ** normalize_base_name *)

Definition diagnostic_prefixes : list string :=
  ["NO_MATCHING_METADATA_"; "FAILED_INSERT_"].

Definition strip_prefix (base prefix : string) : string :=
  if PyStr.startswith base prefix
  then PyStr.slice_from base (PyStr.len prefix)
  else base.

Definition normalize_base_name (os : os_flavour) (file_name : string) : string :=
  fold_left strip_prefix diagnostic_prefixes (fst (splitext os file_name)).

(** ** Registry, metadata and records *)

Record TableInfo := {
  src_table : string;
  parsed_data : string
}.

(** A number of a numeric column, as [int()] sees it: a finite number,
    held as the integer that [int()] returns for it, or an infinity, which
    [pd.to_numeric] keeps and [int()] refuses. *)
Inductive Number :=
  | Finite (z : Z)
  | Infinite.

Record ColumnDef := {
  db_element_name : string;
  start_pstn : option Number;
  element_lgth : option Number;
  data_type : string
}.

Definition overflow_error : string :=
  "OverflowError: cannot convert float infinity to integer".

(** [int(x)] *)
Definition py_int (x : Number) : string + Z :=
  match x with
  | Finite z => inr z
  | Infinite => inl overflow_error
  end.

Definition unknown_table : string := "Unknown Table".

(** [extract_field(line, start_pos, length)] *)
Definition extract_field (line : string) (start_pos length : Z) : string :=
  PyStr.strip (PyStr.slice line start_pos (start_pos + length)).

Definition source_key (line : string) : string :=
  extract_field line 0 3 +:+ extract_field line 11 2.

(** [identify_table(line, table_map)] *)
Definition identify_table (line : string) (table_map : gmap string TableInfo) : TableInfo :=
  default {| src_table := unknown_table; parsed_data := unknown_table |}
          (table_map !! source_key line).

(** One iteration of the loop of [parse_line]: the record afterwards, or
    the exception that one of the two calls of [int()] raises. *)
Definition parse_row (line : string) (record : gmap string string) (row : ColumnDef)
  : string + gmap string string :=
  match start_pstn row, element_lgth row with
  | Some sp, Some lg =>
      match py_int sp with
      | inl e => inl e
      | inr n =>
          let start_pos := n - 1 in
          match py_int lg with
          | inl e => inl e
          | inr length =>
              if (start_pos <? 0) || (start_pos + length >? PyStr.len line)
              then inr record
              else inr (<[db_element_name row := extract_field line start_pos length]>
                          record)
          end
      end
  | _, _ => inr record
  end.

(** The loop over [metadata.iterrows()], which an exception leaves. *)
Fixpoint parse_rows (line : string) (record : gmap string string)
    (metadata : list ColumnDef) : string + gmap string string :=
  match metadata with
  | [] => inr record
  | row :: rest =>
      match parse_row line record row with
      | inl e => inl e
      | inr record' => parse_rows line record' rest
      end
  end.

(** [parse_line(line, metadata)]: [inl e] when it raises [e]. *)
Definition parse_line (line : string) (metadata : list ColumnDef)
  : string + gmap string string :=
  parse_rows line ∅ metadata.

(** ** The relational store, as the program uses it

    [metadata_rows t] is what the query of [fetch_metadata_for_table]
    returns for the schema table [t], after the two [pd.to_numeric]
    coercions ([None] when the query raises); [connect_error] is the
    exception of [engine.connect()] at the load, if any;
    [insert_error t data] is the exception that reflecting the table [t]
    and inserting [data] raises, if any. *)

Record Engine := {
  metadata_rows : string → option (list ColumnDef);
  connect_error : option string;
  insert_error : string → list (gmap string (option string)) → option string
}.

(** [fetch_metadata_for_table]: an exception is logged and an empty frame
    is returned. *)
Definition fetch_metadata_for_table (engine : Engine) (table_name : string)
  : list ColumnDef :=
  match metadata_rows engine table_name with
  | Some metadata => metadata
  | None => []
  end.

(** State shared by the decode tasks of one file: the metadata cache, and
    the schema tables whose metadata has been queried so far. *)
Record Workers := {
  metadata_cache : gmap string (list ColumnDef);
  fetched : list string
}.

Definition no_workers_state : Workers :=
  {| metadata_cache := ∅; fetched := [] |}.

(** The triple that [process_line] returns; each component may be
    Python's [None]. *)
Definition Outcome : Type :=
  option string * option (gmap string string) * option string.

Definition not_inserted (line : string) : Outcome := (None, None, Some line).

(** How a call of [process_line] ends, which is what [future.result()]
    gives: the returned triple, or the exception raised. *)
Inductive FutureResult :=
  | Returned (o : Outcome)
  | Raised (e : string).

(** The last three statements of [process_line]: [parse_line] may raise. *)
Definition decoded (actual_data_table : string) (line instance_id : string)
    (metadata : list ColumnDef) : FutureResult :=
  match parse_line line metadata with
  | inl e => Raised e
  | inr parsed_record =>
      Returned (Some actual_data_table,
                Some (<["instance_id" := instance_id]> parsed_record),
                None)
  end.

(** [process_line(line, table_map, metadata_cache, instance_id, engine)] *)
Definition process_line (line : string) (table_map : gmap string TableInfo)
    (st : Workers) (instance_id : string) (engine : Engine)
  : FutureResult * Workers :=
  let table_info := identify_table line table_map in
  let metadata_table := src_table table_info in
  let actual_data_table := parsed_data table_info in
  if bool_decide (metadata_table = unknown_table)
     || bool_decide (actual_data_table = unknown_table)
  then (Returned (not_inserted line), st)
  else
    match metadata_cache st !! metadata_table with
    | Some metadata => (decoded actual_data_table line instance_id metadata, st)
    | None =>
        let metadata := fetch_metadata_for_table engine metadata_table in
        let log := fetched st ++ [metadata_table] in
        match metadata with
        | [] =>
            (Returned (not_inserted line),
             {| metadata_cache := metadata_cache st; fetched := log |})
        | _ :: _ =>
            (decoded actual_data_table line instance_id metadata,
             {| metadata_cache := <[metadata_table := metadata]> (metadata_cache st);
                fetched := log |})
        end
    end.

(** ** The decode tasks

    [process_file] submits one call of [process_line] per line to a
    [ThreadPoolExecutor(max_workers=8)]; the calls share [metadata_cache]
    and take no lock.  A call touches the shared state three times, and
    the other calls can run in between: it looks the schema table up in
    the cache, it queries the metadata, and it stores the frame.  No
    entry of the cache is removed, and a frame is only ever replaced by
    the frame of the same query, so the test
    [metadata_table in metadata_cache] and the read that follows it are
    one step; what [parse_line] does is local to the call.  The store does
    not change while the tasks of a file run: the query for a schema table
    returns the same frame each time. *)

Inductive Task :=
  | Queued
  | Missed (table_info : TableInfo)
  | Fetched (table_info : TableInfo) (metadata : list ColumnDef)
  | Finished (r : FutureResult).

(** What is left of [process_line] once the query has returned. *)
Definition store_fetched (line instance_id : string) (table_info : TableInfo)
    (metadata : list ColumnDef) (st : Workers) : FutureResult * Workers :=
  match metadata with
  | [] => (Returned (not_inserted line), st)
  | _ :: _ =>
      (decoded (parsed_data table_info) line instance_id metadata,
       {| metadata_cache :=
            <[src_table table_info := metadata]> (metadata_cache st);
          fetched := fetched st |})
  end.

(** The next step of the call of [process_line] for [line]. *)
Definition task_step (line : string) (table_map : gmap string TableInfo)
    (instance_id : string) (engine : Engine) (st : Workers) (t : Task)
  : Task * Workers :=
  match t with
  | Queued =>
      let table_info := identify_table line table_map in
      if bool_decide (src_table table_info = unknown_table)
         || bool_decide (parsed_data table_info = unknown_table)
      then (Finished (Returned (not_inserted line)), st)
      else
        match metadata_cache st !! src_table table_info with
        | Some metadata =>
            (Finished (decoded (parsed_data table_info) line instance_id metadata),
             st)
        | None => (Missed table_info, st)
        end
  | Missed table_info =>
      (Fetched table_info (fetch_metadata_for_table engine (src_table table_info)),
       {| metadata_cache := metadata_cache st;
          fetched := fetched st ++ [src_table table_info] |})
  | Fetched table_info metadata =>
      let '(r, st') := store_fetched line instance_id table_info metadata st in
      (Finished r, st')
  | Finished r => (Finished r, st)
  end.

(** The rest of a call that no other call interrupts. *)
Definition finish_task (line : string) (table_map : gmap string TableInfo)
    (instance_id : string) (engine : Engine) (st : Workers) (t : Task)
  : FutureResult * Workers :=
  match t with
  | Queued => process_line line table_map st instance_id engine
  | Missed table_info =>
      store_fetched line instance_id table_info
        (fetch_metadata_for_table engine (src_table table_info))
        {| metadata_cache := metadata_cache st;
           fetched := fetched st ++ [src_table table_info] |}
  | Fetched table_info metadata =>
      store_fetched line instance_id table_info metadata st
  | Finished r => (r, st)
  end.

(** The pool: the shared state, and the tasks in the order in which they
    were submitted, each with its line. *)
Record Pool := {
  shared : Workers;
  tasks : list (string * Task)
}.

Definition max_workers : nat := 8.

Definition started (t : string * Task) : bool :=
  match t.2 with Queued => false | _ => true end.

Definition in_progress (t : string * Task) : bool :=
  match t.2 with Missed _ | Fetched _ _ => true | _ => false end.

(** A task in progress can take its next step at any time.  A queued
    task is taken when the tasks submitted before it have been taken and
    a worker is free. *)
Definition may_step (ts : list (string * Task)) (i : nat) : bool :=
  match ts !! i with
  | Some (_, Queued) =>
      forallb started (take i ts)
      && bool_decide (length (List.filter in_progress ts) < max_workers)%nat
  | Some (_, Missed _) | Some (_, Fetched _ _) => true
  | Some (_, Finished _) | None => false
  end.

(** The task [i] takes its next step, when it may. *)
Definition pool_step (table_map : gmap string TableInfo) (instance_id : string)
    (engine : Engine) (p : Pool) (i : nat) : Pool :=
  if may_step (tasks p) i then
    match tasks p !! i with
    | Some (line, t) =>
        let '(t', st') :=
          task_step line table_map instance_id engine (shared p) t in
        {| shared := st'; tasks := <[i := (line, t')]> (tasks p) |}
    | None => p
    end
  else p.

(** An entry of the dict [futures]: the task's result and the line it was
    submitted for. *)
Record Future := {
  submitted_line : string;
  result : FutureResult
}.

(** The tasks that have not finished run to their end, one after the
    other. *)
Fixpoint finish_tasks (table_map : gmap string TableInfo) (instance_id : string)
    (engine : Engine) (st : Workers) (ts : list (string * Task))
  : list Future * Workers :=
  match ts with
  | [] => ([], st)
  | (line, t) :: rest =>
      let '(r, st1) := finish_task line table_map instance_id engine st t in
      let '(fs, st2) := finish_tasks table_map instance_id engine st1 rest in
      ({| submitted_line := line; result := r |} :: fs, st2)
  end.

(** The pool when the lines of the file have been submitted. *)
Definition submit (lines : list string) (st : Workers) : Pool :=
  {| shared := st; tasks := (λ line, (line, Queued)) <$> lines |}.

(** The tasks of a file, from their submission to the end of the [with]
    block of the executor.  [schedule] lists the tasks in the order in
    which they take their steps, by their position in the file; the tasks
    that it leaves unfinished then run to their end.  With the empty
    schedule every call of [process_line] ends before the next one
    starts. *)
Definition run_tasks (schedule : list nat) (lines : list string)
    (table_map : gmap string TableInfo) (st : Workers) (instance_id : string)
    (engine : Engine) : list Future * Workers :=
  let p := fold_left (pool_step table_map instance_id engine) schedule
             (submit lines st) in
  finish_tasks table_map instance_id engine (shared p) (tasks p).

Record Buckets := {
  parsed_data_per_table : list (string * list (gmap string string));
  not_inserted_records : list string
}.

Definition no_buckets : Buckets :=
  {| parsed_data_per_table := []; not_inserted_records := [] |}.

(** [d.setdefault(table, []).append(record)] on a dict kept in insertion
    order. *)
Fixpoint setdefault_append (table : string) (record : gmap string string)
    (d : list (string * list (gmap string string)))
  : list (string * list (gmap string string)) :=
  match d with
  | [] => [(table, [record])]
  | (k, records) :: d' =>
      if decide (k = table) then (k, records ++ [record]) :: d'
      else (k, records) :: setdefault_append table record d'
  end.

(** Python truth values of an optional string and of an optional dict. *)
Definition truthy_str (o : option string) : bool :=
  match o with Some s => negb (String.eqb s "") | None => false end.

Definition truthy_dict (o : option (gmap string string)) : bool :=
  match o with Some r => negb (bool_decide (r = ∅)) | None => false end.

(** The body of the loop over [as_completed(futures)]. *)
Definition collect_one (b : Buckets) (f : Future) : Buckets :=
  match result f with
  | Returned (actual_data_table, parsed_record, original_line) =>
      if truthy_str actual_data_table && truthy_dict parsed_record then
        {| parsed_data_per_table :=
             setdefault_append (default "" actual_data_table)
                               (default ∅ parsed_record)
                               (parsed_data_per_table b);
           not_inserted_records := not_inserted_records b |}
      else if truthy_str original_line then
        {| parsed_data_per_table := parsed_data_per_table b;
           not_inserted_records :=
             not_inserted_records b ++ [default "" original_line] |}
      else b
  | Raised _ =>
      {| parsed_data_per_table := parsed_data_per_table b;
         not_inserted_records := not_inserted_records b ++ [submitted_line f] |}
  end.

Definition collect_from (b : Buckets) (completed : list Future) : Buckets :=
  fold_left collect_one completed b.

Definition collect (completed : list Future) : Buckets :=
  collect_from no_buckets completed.

(** ** The load: one transaction per file *)

(** [pd.DataFrame(parsed_data).to_dict(orient='records')]: every row gets
    every column of the frame, and a cell that its record lacks is NaN
    ([None]). *)
Definition df_columns (parsed_data : list (gmap string string)) : gset string :=
  ⋃ (dom <$> parsed_data).

Definition df_row (columns : gset string) (record : gmap string string)
  : gmap string (option string) :=
  (Some <$> record) ∪ gset_to_gmap None columns.

Definition df_records (parsed_data : list (gmap string string))
  : list (gmap string (option string)) :=
  df_row (df_columns parsed_data) <$> parsed_data.

Inductive TxEvent :=
  | EvBegin
  | EvInsert (table : string) (rows : nat)
  | EvCommit
  | EvRollback.

(** A connection: the rows that are committed, per destination table, the
    working copy of the transaction that is open (if one is), and the
    transaction events so far. *)
Record Conn := {
  committed : gmap string (list (gmap string (option string)));
  working : option (gmap string (list (gmap string (option string))));
  events : list TxEvent
}.

Definition conn_begin (conn : Conn) : Conn :=
  {| committed := committed conn;
     working := Some (committed conn);
     events := events conn ++ [EvBegin] |}.

Definition conn_commit (conn : Conn) : Conn :=
  {| committed := default (committed conn) (working conn);
     working := None;
     events := events conn ++ [EvCommit] |}.

Definition conn_rollback (conn : Conn) : Conn :=
  {| committed := committed conn;
     working := None;
     events := events conn ++ [EvRollback] |}.

Definition add_rows (table : string) (data : list (gmap string (option string)))
    (store : gmap string (list (gmap string (option string))))
  : gmap string (list (gmap string (option string))) :=
  <[table := default [] (store !! table) ++ data]> store.

(** [insert_parsed_data(conn, parsed_data, actual_table_name)]: [inl e]
    when it raises [e]. *)
Definition insert_parsed_data (engine : Engine) (conn : Conn)
    (parsed_data : list (gmap string string)) (actual_table_name : string)
  : string + Conn :=
  let data := df_records parsed_data in
  match insert_error engine actual_table_name data with
  | Some e => inl e
  | None =>
      inr {| committed := committed conn;
             working := add_rows actual_table_name data <$> working conn;
             events := events conn ++ [EvInsert actual_table_name (length data)] |}
  end.

(** The loop over [parsed_data_per_table.items()]: the connection when the
    loop ends, and the exception that ended it, if one did. *)
Fixpoint insert_batches (engine : Engine) (conn : Conn)
    (batches : list (string * list (gmap string string))) : Conn * option string :=
  match batches with
  | [] => (conn, None)
  | (actual_table_name, records) :: rest =>
      match insert_parsed_data engine conn records actual_table_name with
      | inl e => (conn, Some e)
      | inr conn' => insert_batches engine conn' rest
      end
  end.

(** The [try] inside [with engine.connect() as conn]: the connection
    afterwards and the entries appended to [failed_records]. *)
Definition load (engine : Engine) (conn : Conn)
    (batches : list (string * list (gmap string string)))
  : Conn * list (option string * string) :=
  let trans := conn_begin conn in
  match insert_batches engine trans batches with
  | (conn', None) => (conn_commit conn', [])
  | (conn', Some e) => (conn_rollback conn', [(None, e)])
  end.

(** ** process_file *)

Definition newline : string := String "010"%char "".

Definition gate_error : string := "Metadata mismatch or parsing errors detected".

(** What [process_file] leaves behind: the list it returns, the files it
    wrote next to the source file (name and the strings written, in
    order), and the connection. *)
Record FileResult := {
  failed_records : list (option string * string);
  files_written : list (string * list string);
  conn_after : Conn
}.

Definition not_inserted_log (base_file_name : string) (lines : list string)
  : string * list string :=
  ("NO_MATCHING_METADATA_" +:+ base_file_name +:+ ".txt",
   (λ record, record +:+ newline) <$> lines).

Definition failed_insert_log (base_file_name : string)
    (failed : list (option string * string)) : string * list string :=
  ("FAILED_INSERT_" +:+ base_file_name +:+ ".txt",
   (λ '(_, error_detail),
      "ERROR - Bulk insert failed: " +:+ error_detail +:+ newline) <$> failed).

(** The handler of the outer [try]: [e] is the exception caught,
    [failed] and [lines] are [failed_records] and [not_inserted_records]
    at that point. *)
Definition on_exception (base_file_name e : string)
    (failed : list (option string * string)) (lines : list string) (conn : Conn)
  : FileResult :=
  let failed' := failed ++ [(None, e)] in
  {| failed_records := failed';
     files_written :=
       (match lines with
        | [] => []
        | _ :: _ => [not_inserted_log base_file_name lines]
        end) ++ [failed_insert_log base_file_name failed'];
     conn_after := conn |}.

(** The decode phase of [process_file]: the two buckets once every
    future has been collected. *)
Definition decode_phase (os : os_flavour) (file_name : string)
    (lines : list string) (engine : Engine) (table_map : gmap string TableInfo)
    (schedule : list nat) (as_completed : list Future → list Future) : Buckets :=
  let instance_id := normalize_base_name os file_name in
  let futures :=
    fst (run_tasks schedule lines table_map no_workers_state instance_id engine) in
  collect (as_completed futures).

(** [process_file(file_path, engine, table_map)] for a file named
    [file_name]; [content] is [inl e] when opening or reading it raises
    [e], and otherwise its lines as the iteration over the file yields
    them; [schedule] is the order in which the tasks take their steps and
    [as_completed] the order in which their results are collected.  The
    date token of the file name is computed but not used, and is left
    out. *)
Definition process_file (os : os_flavour) (file_name : string)
    (content : string + list string) (engine : Engine)
    (table_map : gmap string TableInfo) (schedule : list nat)
    (as_completed : list Future → list Future) (conn : Conn) : FileResult :=
  let base_file_name := normalize_base_name os file_name in
  match content with
  | inl e => on_exception base_file_name e [] [] conn
  | inr lines =>
      let b := decode_phase os file_name lines engine table_map schedule
                 as_completed in
      match not_inserted_records b with
      | _ :: _ =>
          on_exception base_file_name gate_error [] (not_inserted_records b) conn
      | [] =>
          match connect_error engine with
          | Some e => on_exception base_file_name e [] [] conn
          | None =>
              let '(conn', failed) := load engine conn (parsed_data_per_table b) in
              {| failed_records := failed;
                 files_written := [];
                 conn_after := conn' |}
          end
      end
  end.

(** ** Reading a file line by line

    [open(file_path, 'r', encoding='utf-8')] reads with universal
    newlines: a carriage return, alone or followed by a line feed, is
    read as a line feed; iterating over the file yields the text cut after
    every line feed. *)

Definition cr : ascii := "013"%char.
Definition lf : ascii := "010"%char.

Fixpoint translate_newlines (l : list ascii) : list ascii :=
  match l with
  | [] => []
  | c :: l' =>
      if Ascii.eqb c cr then
        match l' with
        | c' :: l'' =>
            if Ascii.eqb c' lf then lf :: translate_newlines l''
            else lf :: translate_newlines l'
        | [] => [lf]
        end
      else c :: translate_newlines l'
  end.

(** [cur] holds, in reverse, the characters of the line being read. *)
Fixpoint split_lines (cur l : list ascii) : list string :=
  match l with
  | [] => match cur with [] => [] | _ :: _ => [PyStr.str (reverse cur)] end
  | c :: l' =>
      if Ascii.eqb c lf then PyStr.str (reverse (c :: cur)) :: split_lines [] l'
      else split_lines (c :: cur) l'
  end.

Definition readlines (text : string) : list string :=
  split_lines [] (translate_newlines (PyStr.chars text)).

(** ** process_files_in_directory

    The source folder holds regular files, by name: a text, or a file
    whose reading raises.  The entries that [os.listdir] returns and that
    are not among them are directories, which the loop skips.  The folder
    Processed Successfully holds the files moved there.  [os.rename]
    replaces a file of the same name on POSIX and raises on Windows. *)

Inductive FileData :=
  | Unreadable (e : string)
  | Text (text : string).

Record Disk := {
  source_files : gmap string FileData;
  processed_successfully : gmap string FileData
}.

Definition read_file (data : FileData) : string + list string :=
  match data with
  | Unreadable e => inl e
  | Text text => inr (readlines text)
  end.

Definition concat_strings (chunks : list string) : string :=
  fold_right String.append "" chunks.

(** The diagnostic files are opened with mode 'w' next to the source
    file. *)
Definition write_files (written : list (string * list string))
    (files : gmap string FileData) : gmap string FileData :=
  fold_left (λ m '(name, chunks), <[name := Text (concat_strings chunks)]> m)
            written files.

Definition file_exists_error : string := "FileExistsError".
Definition bool_not_iterable : string := "TypeError: 'bool' object is not iterable".

(** [os.rename(file_path, new_path)] into Processed Successfully. *)
Definition rename_to_success (os : os_flavour) (file_name : string)
    (data : FileData) (d : Disk) : string + Disk :=
  match os, processed_successfully d !! file_name with
  | Nt, Some _ => inl file_exists_error
  | _, _ =>
      inr {| source_files := delete file_name (source_files d);
             processed_successfully :=
               <[file_name := data]> (processed_successfully d) |}
  end.

(** The state of the sweep: the exception that ended the loop, if one
    did, and the files that [process_file] was called on, in order. *)
Record Sweep := {
  disk : Disk;
  db : Conn;
  stopped : option string;
  handled : list string
}.

(** One iteration of the loop over [os.listdir(source_folder)].  When
    [process_file] returns failures, the next statement is
    [any(os.path.exists(...))]: [os.path.exists] returns a bool, [any]
    raises TypeError on it, and the handler around the loop ends the
    sweep; the statements after it are never reached. *)
Definition sweep_step (os : os_flavour) (engine : Engine)
    (table_map : gmap string TableInfo)
    (schedule : string → list nat)
    (as_completed : list Future → list Future)
    (s : Sweep) (file_name : string) : Sweep :=
  match stopped s with
  | Some _ => s
  | None =>
      match source_files (disk s) !! file_name with
      | None => s
      | Some data =>
          let r := process_file os file_name (read_file data) engine table_map
                     (schedule file_name) as_completed (db s) in
          let d1 := {| source_files :=
                         write_files (files_written r) (source_files (disk s));
                       processed_successfully := processed_successfully (disk s) |} in
          match failed_records r with
          | [] =>
              match rename_to_success os file_name data d1 with
              | inr d2 =>
                  {| disk := d2; db := conn_after r; stopped := None;
                     handled := handled s ++ [file_name] |}
              | inl e =>
                  {| disk := d1; db := conn_after r; stopped := Some e;
                     handled := handled s ++ [file_name] |}
              end
          | _ :: _ =>
              {| disk := d1; db := conn_after r; stopped := Some bool_not_iterable;
                 handled := handled s ++ [file_name] |}
          end
      end
  end.

(** [process_files_in_directory(source_folder, engine, table_map)];
    [makedirs_error] is the exception of creating the three output
    folders, if any, [listing] what [os.listdir] returns, and
    [schedule] the schedule of the decode tasks of each file. *)
Definition process_files_in_directory (os : os_flavour) (engine : Engine)
    (table_map : gmap string TableInfo)
    (schedule : string → list nat)
    (as_completed : list Future → list Future)
    (makedirs_error : option string) (listing : list string)
    (d : Disk) (conn : Conn) : Sweep :=
  match makedirs_error with
  | Some e => {| disk := d; db := conn; stopped := Some e; handled := [] |}
  | None =>
      fold_left (sweep_step os engine table_map schedule as_completed) listing
                {| disk := d; db := conn; stopped := None; handled := [] |}
  end.

(** ** table_mapping

    [rows] is the result of the registry query, a row per source:
    (src_id, src_table, parsed_data).  [set_index('src_id')] followed by
    [to_dict(orient='index')] gives the dict of the rows by src_id, and
    raises ValueError when two rows have the same src_id. *)

Definition index_not_unique : string :=
  "DataFrame index must be unique for orient='index'.".

Definition registry_entry (row : string * string * string) : string * TableInfo :=
  (row.1.1, {| src_table := row.1.2; parsed_data := row.2 |}).

Definition table_mapping (rows : list (string * string * string))
  : string + gmap string TableInfo :=
  if bool_decide (NoDup ((λ row, row.1.1) <$> rows))
  then inr (list_to_map (registry_entry <$> rows))
  else inl index_not_unique.

(** * sftp_data_fetch: the manifest of the files already fetched

    The manifest maps a local root to the set of relative paths fetched
    under it.  The file processed_zips.json holds it as a JSON object of
    lists; [order] is the order in which [list(v)] enumerates a set. *)

Inductive ManifestFile :=
  | NoManifest
  | ManifestJson (json : gmap string (list string)).

(** [load_manifest()] *)
Definition load_manifest (file : ManifestFile) : gmap string (gset string) :=
  match file with
  | ManifestJson json => list_to_set <$> json
  | NoManifest => ∅
  end.

(** [save_manifest(manifest)] *)
Definition save_manifest (order : gset string → list string)
    (manifest : gmap string (gset string)) : ManifestFile :=
  ManifestJson (order <$> manifest).

(** ** walk_remote

    The remote tree below a directory, as [sftp.listdir_attr] shows it: a
    directory with its entries in listing order, a directory whose listing
    raises, a symbolic link, or anything else (a file). *)

Local Unset Elimination Schemes.

Inductive RemoteNode :=
  | RDir (entries : list (string * RemoteNode))
  | RNoList (e : string)
  | RLink
  | RFile.

Local Set Elimination Schemes.

Definition endswith_char (s : string) (c : ascii) : bool :=
  match last (PyStr.chars s) with
  | Some x => Ascii.eqb x c
  | None => false
  end.

(** [posixpath.join(a, b)] *)
Definition posix_join (a b : string) : string :=
  if PyStr.startswith b "/" then b
  else if String.eqb a "" || endswith_char a "/" then a +:+ b
  else a +:+ "/" +:+ b.

Definition not_a_directory : string := "NotADirectoryError".

(** [walk_remote(sftp, root)] on the directory [node]: the paths yielded,
    in order, and the exception that ended the generator, if one did. *)
Fixpoint walk_remote (root : string) (node : RemoteNode) {struct node}
  : list string * option string :=
  match node with
  | RDir entries =>
      (fix walk_entries (es : list (string * RemoteNode))
         : list string * option string :=
         match es with
         | [] => ([], None)
         | (filename, child) :: es' =>
             let path := posix_join root filename in
             let here :=
               match child with
               | RDir _ | RNoList _ => walk_remote path child
               | RLink => ([], None)
               | RFile => ([path], None)
               end in
             match here.2 with
             | Some e => (here.1, Some e)
             | None =>
                 let rest := walk_entries es' in (here.1 ++ rest.1, rest.2)
             end
         end) entries
  | RNoList e => ([], Some e)
  | RLink | RFile => ([], Some not_a_directory)
  end.

(** The body of the loop of [walk_remote] for one entry, and the loop. *)
Definition walk_child (path : string) (child : RemoteNode)
  : list string * option string :=
  match child with
  | RDir _ | RNoList _ => walk_remote path child
  | RLink => ([], None)
  | RFile => ([path], None)
  end.

Fixpoint walk_entries (root : string) (es : list (string * RemoteNode))
  : list string * option string :=
  match es with
  | [] => ([], None)
  | (filename, child) :: es' =>
      let here := walk_child (posix_join root filename) child in
      match here.2 with
      | Some e => (here.1, Some e)
      | None => let rest := walk_entries root es' in (here.1 ++ rest.1, rest.2)
      end
  end.

(** Every directory of the tree can be listed. *)
Fixpoint listable (node : RemoteNode) : bool :=
  match node with
  | RDir entries => forallb (λ e, listable e.2) entries
  | RNoList _ => false
  | RLink | RFile => true
  end.

(** The names on the way to each file of the tree, through directories
    only, in listing order. *)
Fixpoint file_names (node : RemoteNode) : list (list string) :=
  match node with
  | RDir entries =>
      flat_map (λ e, match e.2 with
                     | RFile => [[e.1]]
                     | RLink => []
                     | RDir _ | RNoList _ => cons e.1 <$> file_names e.2
                     end) entries
  | RNoList _ | RLink | RFile => []
  end.

(** The names of the entries are file names: not empty, without a
    slash. *)
Definition plain_name (name : string) : bool :=
  negb (String.eqb name "") && forallb (λ c, negb (Ascii.eqb c "/")) (PyStr.chars name).

Fixpoint plain_names (node : RemoteNode) : bool :=
  match node with
  | RDir entries => forallb (λ e, plain_name e.1 && plain_names e.2) entries
  | RNoList _ | RLink | RFile => true
  end.

(** A root that is not empty and does not end with a slash. *)
Definition clean_root (root : string) : bool :=
  negb (String.eqb root "") && negb (endswith_char root "/").

(** [root], then a slash and a name for each name. *)
Definition below (root : string) (names : list string) : string :=
  fold_left (λ path name, path +:+ "/" +:+ name) names root.

(** ** download_and_process

    [relpath] and [local_join] stand for [posixpath.relpath] and the
    local [os.path.join].  The record [Local] says how the transfers and
    the local file system behave: for each call that can raise, the
    exception it raises, if any. *)

(** [c.lower()] for a code point below 256. *)
Definition py_lower_char (c : ascii) : ascii :=
  let n := N_of_ascii c in
  if ((65 <=? n)%N && (n <=? 90)%N)
     || ((192 <=? n)%N && (n <=? 222)%N && negb (n =? 215)%N)
  then ascii_of_N (n + 32) else c.

Definition py_lower (s : string) : string :=
  PyStr.str (py_lower_char <$> PyStr.chars s).

(** [s.endswith(suffix)] *)
Definition endswith (s suffix : string) : bool :=
  let n := String.length s in
  let m := String.length suffix in
  (m <=? n)%nat && String.eqb (PyStr.str (drop (n - m) (PyStr.chars s))) suffix.

Record Local := {
  makedirs_raises : string → option string;
  get_raises : string → option string;
  get_leaves_part : string → bool;
  replace_raises : string → option string;
  extract_zip : string → list string * option string;
  remove_raises : string → option string
}.

(** The state of the loop over the files of one remote root: the set
    [processed], the local files, the (local root, relative path) pairs
    for which [sftp.get] was called, and the exception that left the
    loop, if one did. *)
Record Fetch := {
  processed : gset string;
  local_files : gset string;
  downloads : list (string * string);
  raised : option string
}.

(** The body of the loop over [walk_remote(sftp, remote_root)]. *)
Definition fetch_file (relpath local_join : string → string → string)
    (tr : Local) (remote_root local_root : string)
    (st : Fetch) (remote_file : string) : Fetch :=
  match raised st with
  | Some _ => st
  | None =>
      let rel_path := relpath remote_file remote_root in
      if bool_decide (rel_path ∈ processed st) then st
      else
        let local_file := local_join local_root rel_path in
        match makedirs_raises tr local_file with
        | Some e =>
            {| processed := processed st; local_files := local_files st;
               downloads := downloads st; raised := Some e |}
        | None =>
            let tmp_file := local_file +:+ ".part" in
            let log := downloads st ++ [(local_root, rel_path)] in
            let got : gset string + gset string :=
              match get_raises tr remote_file with
              | Some _ =>
                  inl (if get_leaves_part tr remote_file
                       then {[tmp_file]} ∪ local_files st
                       else local_files st)
              | None =>
                  match replace_raises tr local_file with
                  | Some _ => inl ({[tmp_file]} ∪ local_files st)
                  | None => inr ({[local_file]} ∪ (local_files st ∖ {[tmp_file]}))
                  end
              end in
            match got with
            | inl files =>
                {| processed := processed st;
                   local_files := files ∖ {[tmp_file]};
                   downloads := log; raised := None |}
            | inr files =>
                if endswith (py_lower local_file) ".zip" then
                  let files1 := files ∪ list_to_set (extract_zip tr local_file).1 in
                  match (extract_zip tr local_file).2, remove_raises tr local_file with
                  | None, None =>
                      {| processed := {[rel_path]} ∪ processed st;
                         local_files := files1 ∖ {[local_file]};
                         downloads := log; raised := None |}
                  | _, _ =>
                      {| processed := processed st; local_files := files1;
                         downloads := log; raised := None |}
                  end
                else
                  {| processed := {[rel_path]} ∪ processed st;
                     local_files := files;
                     downloads := log; raised := None |}
            end
        end
  end.

(** The loop over the files of one root; the exception of the walk, if
    any, is raised when the paths yielded before it have been handled. *)
Definition fetch_root (relpath local_join : string → string → string)
    (tr : Local) (remote_root local_root : string) (tree : RemoteNode)
    (st : Fetch) : Fetch :=
  let walk := walk_remote remote_root tree in
  let st' := fold_left (fetch_file relpath local_join tr remote_root local_root)
                       walk.1 st in
  match raised st', walk.2 with
  | None, Some e =>
      {| processed := processed st'; local_files := local_files st';
         downloads := downloads st'; raised := Some e |}
  | _, _ => st'
  end.

(** The state of the loop over [remote_to_local.items()]. *)
Record Run := {
  manifest : gmap string (gset string);
  run_files : gset string;
  run_downloads : list (string * string);
  run_raised : option string
}.

Definition run_root (relpath local_join : string → string → string)
    (tr : Local) (r : Run) (root : string * string * RemoteNode) : Run :=
  match run_raised r with
  | Some _ => r
  | None =>
      let local_root := root.1.2 in
      let st := fetch_root relpath local_join tr root.1.1 local_root root.2
                  {| processed := default ∅ (manifest r !! local_root);
                     local_files := run_files r;
                     downloads := run_downloads r;
                     raised := None |} in
      {| manifest := match raised st with
                     | None => <[local_root := processed st]> (manifest r)
                     | Some _ => manifest r
                     end;
         run_files := local_files st;
         run_downloads := downloads st;
         run_raised := raised st |}
  end.

(** [download_and_process()], once connected: [roots] gives, for each
    entry of [remote_to_local], the remote root, the local root and the
    remote tree; the result is the manifest file afterwards and the final
    state.  An exception leaves the function before [save_manifest]. *)
Definition download_and_process (relpath local_join : string → string → string)
    (order : gset string → list string) (tr : Local)
    (roots : list (string * string * RemoteNode))
    (file : ManifestFile) (files : gset string) : ManifestFile * Run :=
  let r := fold_left (run_root relpath local_join tr) roots
             {| manifest := load_manifest file; run_files := files;
                run_downloads := []; run_raised := None |} in
  (match run_raised r with
   | None => save_manifest order (manifest r)
   | Some _ => file
   end, r).

(** Every call of the transfer of a file succeeds. *)
Definition transfer_ok (tr : Local) (remote_file local_file : string) : bool :=
  match get_raises tr remote_file, replace_raises tr local_file with
  | None, None =>
      if endswith (py_lower local_file) ".zip" then
        match (extract_zip tr local_file).2, remove_raises tr local_file with
        | None, None => true
        | _, _ => false
        end
      else true
  | _, _ => false
  end.

(** What the manifest holds for a local root: [manifest.get(root, set())]. *)
Definition recorded (m : gmap string (gset string)) (local_root : string)
  : gset string :=
  default ∅ (m !! local_root).

(** ** Predicates used in the statements *)

(** The bounds test of [parse_line], on a row whose offset and length are
    not null: the 0-based range starts at or after 0 and ends at or before
    the end of the line. *)
Definition usable (line : string) (row : ColumnDef) : bool :=
  match start_pstn row, element_lgth row with
  | Some (Finite sp), Some (Finite lg) =>
      (0 <=? sp - 1) && (sp - 1 + lg <=? PyStr.len line)
  | _, _ => false
  end.

(** The row makes [parse_line] raise: its offset and its length are not
    null, and one of them is infinite. *)
Definition overflows (row : ColumnDef) : bool :=
  match start_pstn row, element_lgth row with
  | Some Infinite, Some _ | Some _, Some Infinite => true
  | _, _ => false
  end.

(** The integer of a cell that holds a finite number. *)
Definition int_of (cell : option Number) : Z :=
  match cell with
  | Some (Finite z) => z
  | _ => 0
  end.

(** The value that [parse_line] extracts for a row. *)
Definition field_value (line : string) (row : ColumnDef) : string :=
  extract_field line (int_of (start_pstn row) - 1) (int_of (element_lgth row)).

(** What a row adds to the record when no conversion raises, and the
    record that the rows then build. *)
Definition record_row (line : string) (record : gmap string string)
    (row : ColumnDef) : gmap string string :=
  if usable line row
  then <[db_element_name row := field_value line row]> record
  else record.

Definition record_of (line : string) (metadata : list ColumnDef)
  : gmap string string :=
  fold_left (record_row line) metadata ∅.

(** The metadata that [process_line] obtains for a schema table: the
    cached frame, or else a fetched frame that is not empty. *)
Definition metadata_for (st : Workers) (engine : Engine) (metadata_table : string)
  : option (list ColumnDef) :=
  match metadata_cache st !! metadata_table with
  | Some metadata => Some metadata
  | None =>
      match fetch_metadata_for_table engine metadata_table with
      | [] => None
      | metadata => Some metadata
      end
  end.

(** The registry entry of a line, when its key resolves to two known
    table names. *)
Definition resolves (line : string) (table_map : gmap string TableInfo)
  : option TableInfo :=
  match table_map !! source_key line with
  | Some info =>
      if bool_decide (src_table info = unknown_table)
         || bool_decide (parsed_data info = unknown_table)
      then None else Some info
  | None => None
  end.

(** A base name with no path separator, with a character other than a
    dot, and with neither diagnostic prefix. *)
Definition plain_base (X : string) : bool :=
  forallb (λ c, negb (Ascii.eqb c "/") && negb (Ascii.eqb c "\")) (PyStr.chars X)
  && existsb (λ c, negb (Ascii.eqb c extsep)) (PyStr.chars X)
  && negb (PyStr.startswith X "NO_MATCHING_METADATA_")
  && negb (PyStr.startswith X "FAILED_INSERT_").

(** The lines that one pass of the collection loop appends to
    [not_inserted_records]. *)
Definition filed_lines (f : Future) : list string :=
  not_inserted_records (collect_one no_buckets f).

(** The line resolves to the schema table [T]. *)
Definition on_schema_table (T : string) (table_map : gmap string TableInfo)
    (line : string) : bool :=
  match resolves line table_map with
  | Some info => String.eqb (src_table info) T
  | None => false
  end.

(** The event is a bulk insert. *)
Definition is_insert (ev : TxEvent) : Prop :=
  match ev with EvInsert _ _ => True | _ => False end.

(** ** The scenario of the specification

    A registry with one entry, for [key], naming the schema table
    ABC_META and the destination table abc_data; the metadata of ABC_META
    defines [code] at position 1, length 3, and [amt] at position 10,
    length 5. *)

Definition scenario_registry (key : string) : gmap string TableInfo :=
  {[ key := {| src_table := "ABC_META"; parsed_data := "abc_data" |} ]}.

Definition scenario_metadata : list ColumnDef :=
  [ {| db_element_name := "code"; start_pstn := Some (Finite 1);
       element_lgth := Some (Finite 3); data_type := "A" |};
    {| db_element_name := "amt"; start_pstn := Some (Finite 10);
       element_lgth := Some (Finite 5); data_type := "N" |} ].

(** The metadata of the scenario followed by a definition without
    offset, one without length, and one that ends after the line of the
    scenario; an engine that returns it for every schema table. *)
Definition ragged_metadata : list ColumnDef :=
  scenario_metadata ++
  [ {| db_element_name := "no_offset"; start_pstn := None;
       element_lgth := Some (Finite 3); data_type := "A" |};
    {| db_element_name := "no_length"; start_pstn := Some (Finite 4);
       element_lgth := None; data_type := "A" |};
    {| db_element_name := "beyond"; start_pstn := Some (Finite 12);
       element_lgth := Some (Finite 5); data_type := "A" |} ].

Definition engine_with (metadata : list ColumnDef) : Engine :=
  {| metadata_rows := λ _, Some metadata;
     connect_error := None;
     insert_error := λ _ _, None |}.

(** A definition with a negative length, and one with an infinite
    offset. *)
Definition negative_length_metadata : list ColumnDef :=
  [ {| db_element_name := "x"; start_pstn := Some (Finite 3);
       element_lgth := Some (Finite (-5)); data_type := "A" |} ].

Definition infinite_offset_metadata : list ColumnDef :=
  [ {| db_element_name := "code"; start_pstn := Some (Finite 1);
       element_lgth := Some (Finite 3); data_type := "A" |};
    {| db_element_name := "x"; start_pstn := Some Infinite;
       element_lgth := Some (Finite 2); data_type := "A" |} ].

Definition scenario_engine : Engine :=
  {| metadata_rows := λ t,
       if String.eqb t "ABC_META" then Some scenario_metadata else None;
     connect_error := None;
     insert_error := λ _ _, None |}.

Definition scenario_line : string := "ABC01    12345".

Definition scenario_record (instance_id : string) : gmap string string :=
  <["code" := "ABC"]> (<["amt" := "12345"]> {[ "instance_id" := instance_id ]}).

(** The number of times the metadata of [T] has been queried. *)
Definition count_fetches (T : string) (log : list string) : nat :=
  length (List.filter (String.eqb T) log).

(** Two destination tables that share the schema table ABC_META, a store
    that refuses the inserts into xyz_data, and a file with one line for
    each table. *)
Definition two_table_registry : gmap string TableInfo :=
  <["XYZ89" := {| src_table := "ABC_META"; parsed_data := "xyz_data" |}]>
    (scenario_registry "ABC34").

Definition xyz_fails_engine : Engine :=
  {| metadata_rows := metadata_rows scenario_engine;
     connect_error := None;
     insert_error := λ t _,
       if String.eqb t "xyz_data" then Some "insert failed" else None |}.

Definition two_table_lines : list string :=
  ["ABC01    12345" +:+ newline; "XYZ01    67890" +:+ newline].

(** A registry with a second schema table, XYZ_META, and a store in
    which ABC_META has no rows while XYZ_META has the scenario's. *)
Definition mixed_registry : gmap string TableInfo :=
  <["XYZ89" := {| src_table := "XYZ_META"; parsed_data := "xyz_data" |}]>
    (scenario_registry "ABC34").

Definition abc_empty_engine : Engine :=
  {| metadata_rows := λ t,
       if String.eqb t "ABC_META" then Some [] else Some scenario_metadata;
     connect_error := None;
     insert_error := λ _ _, None |}.

Definition empty_conn : Conn :=
  {| committed := ∅; working := None; events := [] |}.

(** The tasks complete in the order of the lines. *)
Definition in_line_order (futures : list Future) : list Future := futures.

(** Two schedules: every task runs to its end before the next one starts;
    the first two tasks take their steps in turn. *)
Definition one_by_one : list nat := [].

Definition in_turn : list nat := [0; 1; 0; 1; 0; 1]%nat.

(** ** Predicates used for the decode phase *)

(** Every cached frame is a frame that a fetch returns, and is not
    empty: the state of the cache at any point of a file. *)
Definition cache_coherent (engine : Engine) (st : Workers) : Prop :=
  ∀ t m, metadata_cache st !! t = Some m →
         m = fetch_metadata_for_table engine t ∧ m ≠ [].

(** The result of a line decoded on its own, starting from the empty
    cache. *)
Definition decode_alone (line : string) (table_map : gmap string TableInfo)
    (instance_id : string) (engine : Engine) : FutureResult :=
  (process_line line table_map no_workers_state instance_id engine).1.

(** ** Predicates used for the pool *)

(** The steps that [task_step] takes, case by case. *)
Inductive TaskStep (table_map : gmap string TableInfo) (instance_id : string)
    (engine : Engine) (line : string) (st : Workers)
  : Task → Task → Workers → Prop :=
  | step_unresolved :
      resolves line table_map = None →
      TaskStep table_map instance_id engine line st
        Queued (Finished (Returned (not_inserted line))) st
  | step_hit info metadata :
      resolves line table_map = Some info →
      metadata_cache st !! src_table info = Some metadata →
      TaskStep table_map instance_id engine line st
        Queued (Finished (decoded (parsed_data info) line instance_id metadata)) st
  | step_miss info :
      resolves line table_map = Some info →
      metadata_cache st !! src_table info = None →
      TaskStep table_map instance_id engine line st Queued (Missed info) st
  | step_fetch info :
      TaskStep table_map instance_id engine line st
        (Missed info)
        (Fetched info (fetch_metadata_for_table engine (src_table info)))
        {| metadata_cache := metadata_cache st;
           fetched := fetched st ++ [src_table info] |}
  | step_empty info :
      TaskStep table_map instance_id engine line st
        (Fetched info []) (Finished (Returned (not_inserted line))) st
  | step_store info metadata :
      metadata ≠ [] →
      TaskStep table_map instance_id engine line st
        (Fetched info metadata)
        (Finished (decoded (parsed_data info) line instance_id metadata))
        {| metadata_cache := <[src_table info := metadata]> (metadata_cache st);
           fetched := fetched st |}.

(** A task that has finished, as an entry of the pool. *)
Definition finished_task (f : Future) : string * Task :=
  (submitted_line f, Finished (result f)).

Definition finished (t : string * Task) : bool :=
  match t.2 with Finished _ => true | _ => false end.

(** The task has not run its query yet. *)
Definition waiting (t : string * Task) : bool :=
  match t.2 with Queued | Missed _ => true | _ => false end.

(** The tasks are taken in the order of their submission: the tasks
    before a task that was taken were taken. *)
Definition ordered (ts : list (string * Task)) : Prop :=
  ∀ i j a b, (i < j)%nat → ts !! i = Some a → ts !! j = Some b →
             started b = true → started a = true.

(** The cache of a file at any point, against the cache [st0] that the
    tasks started with: an entry of [st0], or else the frame, not empty,
    that the query returns for the schema table of some line. *)
Definition cache_grows (table_map : gmap string TableInfo) (engine : Engine)
    (lines : list string) (st0 st : Workers) : Prop :=
  ∀ k, metadata_cache st !! k = metadata_cache st0 !! k
       ∨ (metadata_cache st0 !! k = None
          ∧ metadata_cache st !! k = Some (fetch_metadata_for_table engine k)
          ∧ fetch_metadata_for_table engine k ≠ []
          ∧ ∃ line, line ∈ lines ∧ on_schema_table k table_map line = true).

(** What a task holds is what [process_line] computes from [st0]. *)
Definition task_sound (table_map : gmap string TableInfo) (instance_id : string)
    (engine : Engine) (st0 : Workers) (t : string * Task) : Prop :=
  match t.2 with
  | Queued => True
  | Missed info =>
      resolves t.1 table_map = Some info
      ∧ metadata_cache st0 !! src_table info = None
  | Fetched info metadata =>
      resolves t.1 table_map = Some info
      ∧ metadata_cache st0 !! src_table info = None
      ∧ metadata = fetch_metadata_for_table engine (src_table info)
  | Finished r => r = (process_line t.1 table_map st0 instance_id engine).1
  end.

(** When a task has finished, the cache holds the metadata of its schema
    table, unless the table has none. *)
Definition task_stored (table_map : gmap string TableInfo) (engine : Engine)
    (st : Workers) (t : string * Task) : Prop :=
  match t.2 with
  | Finished _ =>
      ∀ info, resolves t.1 table_map = Some info →
              fetch_metadata_for_table engine (src_table info) ≠ [] →
              is_Some (metadata_cache st !! src_table info)
  | _ => True
  end.

Definition pool_sound (table_map : gmap string TableInfo) (instance_id : string)
    (engine : Engine) (lines : list string) (st0 : Workers) (p : Pool) : Prop :=
  (tasks p).*1 = lines
  ∧ cache_grows table_map engine lines st0 (shared p)
  ∧ Forall (task_sound table_map instance_id engine st0) (tasks p)
  ∧ Forall (task_stored table_map engine (shared p)) (tasks p).

(** The number of tasks, among those for the lines of the schema table
    [T], that have not run their query. *)
Definition pending (T : string) (table_map : gmap string TableInfo)
    (ts : list (string * Task)) : nat :=
  length (List.filter (λ t, on_schema_table T table_map t.1 && waiting t) ts).

(** The number of tasks, among those for the lines of [T], that have
    found no cached frame and not run their query yet, and that hold the
    frame that their query returned. *)
Definition missed_on (T : string) (table_map : gmap string TableInfo)
    (ts : list (string * Task)) : nat :=
  length (List.filter
            (λ t, on_schema_table T table_map t.1
                  && match t.2 with Missed _ => true | _ => false end) ts).

Definition fetched_on (T : string) (table_map : gmap string TableInfo)
    (ts : list (string * Task)) : nat :=
  length (List.filter
            (λ t, on_schema_table T table_map t.1
                  && match t.2 with Fetched _ _ => true | _ => false end) ts).

(** What holds of the queries of the metadata of [T] at any point of the
    pool, when the cache held nothing for [T] at the start: [count0] is
    the number of queries before the tasks, [n] the number of lines of
    [T]. *)
Definition queries_inv (T : string) (table_map : gmap string TableInfo)
    (count0 n : nat) (p : Pool) : Prop :=
  let count := count_fetches T (fetched (shared p)) in
  (length (List.filter in_progress (tasks p)) ≤ max_workers)%nat
  ∧ (count0 + fetched_on T table_map (tasks p) ≤ count)%nat
  ∧ (metadata_cache (shared p) !! T = None →
     (count ≤ count0 + fetched_on T table_map (tasks p))%nat)
  ∧ (count + missed_on T table_map (tasks p) ≤ count0 + max_workers)%nat
  ∧ (count + pending T table_map (tasks p) ≤ count0 + n)%nat
  ∧ (is_Some (metadata_cache (shared p) !! T) → (count0 + 1 ≤ count)%nat).

(** The future of a line whose result is the one of [process_line] on
    the state [st]. *)
Definition future_from (table_map : gmap string TableInfo) (instance_id : string)
    (engine : Engine) (st : Workers) (line : string) : Future :=
  {| submitted_line := line;
     result := (process_line line table_map st instance_id engine).1 |}.

(** The number of records in the per-table batches. *)
Definition total_records (d : list (string * list (gmap string string))) : nat :=
  sum_list ((λ p, length p.2) <$> d).

(** The batch of a destination table: [d.get(table, [])]. *)
Fixpoint batch (table : string) (d : list (string * list (gmap string string)))
  : list (gmap string string) :=
  match d with
  | [] => []
  | (k, records) :: d' => if decide (k = table) then records else batch table d'
  end.

(** The records that one pass of the collection loop adds to the batch of
    [table]. *)
Definition filed_records (table : string) (f : Future) : list (gmap string string) :=
  batch table (parsed_data_per_table (collect_one no_buckets f)).

(** The invariant of the per-table dict: distinct names that are not
    empty, and batches of non-empty records that are not empty. *)
Definition batches_wf (d : list (string * list (gmap string string))) : Prop :=
  NoDup d.*1
  ∧ ∀ table records, (table, records) ∈ d →
      table ≠ "" ∧ records ≠ [] ∧ Forall (λ r, r ≠ ∅) records.

(** The number of entries that one pass of the collection loop adds to
    the two buckets together. *)
Definition filed_count (f : Future) : nat :=
  (total_records (parsed_data_per_table (collect_one no_buckets f))
   + length (filed_lines f))%nat.


(** The event of the insert of a batch. *)
Definition insert_event (p : string * list (gmap string string)) : TxEvent :=
  EvInsert p.1 (length p.2).

(** The file is processed without failure; this does not depend on the
    connection. *)
Definition file_succeeds (os : os_flavour) (engine : Engine)
    (table_map : gmap string TableInfo)
    (schedule : string → list nat)
    (as_completed : list Future → list Future)
    (file_name : string) (data : FileData) : Prop :=
  failed_records
    (process_file os file_name (read_file data) engine table_map
       (schedule file_name) as_completed empty_conn) = [].

(** A source folder with one file of one decodable line, and one with
    one file whose line does not resolve followed by a decodable file. *)
Definition one_file_disk : Disk :=
  {| source_files := {[ "X.txt" := Text ("ABC01    12345" +:+ newline) ]};
     processed_successfully := ∅ |}.

Definition bad_then_good_disk : Disk :=
  {| source_files :=
       <["A.txt" := Text ("ZZZ99    00000" +:+ newline)]>
         {[ "X.txt" := Text ("ABC01    12345" +:+ newline) ]};
     processed_successfully := ∅ |}.

(** A remote root with one file and one archive, transfers that all
    succeed, and simple stand-ins for the two path functions. *)
Definition demo_roots : list (string * string * RemoteNode) :=
  [ ("/r", "L", RDir [ ("a.txt", RFile); ("b.zip", RFile) ]) ].

Definition demo_local : Local :=
  {| makedirs_raises := λ _, None;
     get_raises := λ _, None;
     get_leaves_part := λ _, false;
     replace_raises := λ _, None;
     extract_zip := λ _, (["L/b.txt"], None);
     remove_raises := λ _, None |}.

Definition demo_relpath (path start : string) : string :=
  PyStr.slice_from path (PyStr.len start + 1).

Definition demo_join (a b : string) : string := a +:+ "/" +:+ b.

(** * Properties *)

(** ** Strings *)

Example slice_negative_stop : PyStr.slice "ABCDEFGHIJ" 2 (-3) = "CDEFG".
Proof. reflexivity. Qed.

Example slice_past_end : PyStr.slice "ABC" 11 13 = "".
Proof. reflexivity. Qed.

Example strip_ex : PyStr.strip "  AB C
" = "AB C".
Proof. reflexivity. Qed.

Example normalize_ex : normalize_base_name Posix "FAILED_INSERT_X.D240101.txt" = "X.D240101".
Proof. vm_compute. reflexivity. Qed.

Section PyStrFacts.
Import PyStr.

Lemma chars_str l : chars (str l) = l.
Proof. apply String.list_ascii_of_string_of_list_ascii. Qed.

Lemma str_chars s : str (chars s) = s.
Proof. apply String.string_of_list_ascii_of_string. Qed.

Lemma chars_length s : length (chars s) = String.length s.
Proof. induction s as [|c s IH]; simpl; [done | by rewrite IH]. Qed.

Lemma chars_app s1 s2 : chars (s1 +:+ s2) = chars s1 ++ chars s2.
Proof. induction s1 as [|c s1 IH]; simpl; [done | by rewrite IH]. Qed.

Lemma str_app l1 l2 : str (l1 ++ l2) = str l1 +:+ str l2.
Proof. induction l1 as [|c l1 IH]; simpl; [done | by rewrite IH]. Qed.

Lemma len_nonneg s : 0 ≤ len s.
Proof. unfold len. lia. Qed.

Lemma len_app s1 s2 : len (s1 +:+ s2) = len s1 + len s2.
Proof.
  unfold len. rewrite <- !chars_length, chars_app, length_app. lia.
Qed.

(** With bounds that are not negative, a slice is [stop - start]
    characters from [start] on, as many as the string has. *)
Lemma slice_nonneg s a b :
  0 ≤ a → 0 ≤ b →
  slice s a b = str (take (Z.to_nat (b - a)) (drop (Z.to_nat a) (chars s))).
Proof.
  intros Ha Hb. unfold slice, clamp_index.
  destruct (Z.ltb_spec a 0) as [?|_]; [lia|].
  destruct (Z.ltb_spec b 0) as [?|_]; [lia|].
  f_equal. unfold len. rewrite <- chars_length.
  set (l := chars s).
  destruct (decide (a ≤ Z.of_nat (length l))) as [Hal|Hal].
  - rewrite (Z.min_l a) by lia.
    destruct (decide (b ≤ Z.of_nat (length l))) as [Hbl|Hbl].
    + by rewrite (Z.min_l b) by lia.
    + rewrite (Z.min_r b) by lia.
      rewrite !take_ge; [done | |]; rewrite length_drop; lia.
  - rewrite (Z.min_r a) by lia.
    rewrite !drop_ge by lia. by rewrite !take_nil.
Qed.

(** A slice that lies within the string has exactly [n] characters. *)
Lemma slice_within_length s a n :
  0 ≤ a → 0 ≤ n → a + n ≤ len s →
  len (slice s a (a + n)) = n.
Proof.
  intros Ha Hn Hlen. rewrite slice_nonneg by lia.
  unfold len in *. rewrite <- chars_length in *. rewrite chars_str.
  rewrite length_take, length_drop. lia.
Qed.

Lemma slice_from_app s1 s2 : slice_from (s1 +:+ s2) (len s1) = s2.
Proof.
  unfold slice_from. rewrite slice_nonneg by (pose proof (len_nonneg s1); pose proof (len_nonneg (s1 +:+ s2)); lia).
  rewrite chars_app, len_app. unfold len.
  rewrite Nat2Z.id, <- chars_length, drop_app_length.
  rewrite take_ge; [apply str_chars|]. rewrite !chars_length. lia.
Qed.

Lemma slice_prefix_app s1 s2 : slice (s1 +:+ s2) 0 (len s1) = s1.
Proof.
  rewrite slice_nonneg by (pose proof (len_nonneg s1); lia).
  rewrite chars_app, Z.sub_0_r. unfold len.
  rewrite Nat2Z.id, <- chars_length. change (Z.to_nat 0) with 0%nat.
  rewrite drop_0, take_app_length. apply str_chars.
Qed.

Lemma startswith_app s1 s2 : startswith (s1 +:+ s2) s1 = true.
Proof.
  unfold startswith. induction s1 as [|c s1 IH]; simpl.
  - by destruct s2.
  - destruct (ascii_dec c c); [apply IH | done].
Qed.

Lemma rfind_from_notin i c l acc : c ∉ l → rfind_from i c l acc = acc.
Proof.
  revert i acc. induction l as [|x l IH]; intros i acc Hc; simpl; [done|].
  apply not_elem_of_cons in Hc as [Hx Hl].
  rewrite IH by done.
  destruct (Ascii.eqb_spec x c); [congruence | done].
Qed.

Lemma rfind_from_last i c l1 l2 acc :
  c ∉ l2 → rfind_from i c (l1 ++ c :: l2) acc = i + Z.of_nat (length l1).
Proof.
  revert i acc. induction l1 as [|x l1 IH]; intros i acc Hc; simpl.
  - rewrite Ascii.eqb_refl, rfind_from_notin by done. lia.
  - rewrite IH by done. lia.
Qed.

End PyStrFacts.

(** ** normalize_base_name *)

Lemma slice_char p (k : nat) x :
  PyStr.chars p !! k = Some x →
  PyStr.slice p (Z.of_nat k) (Z.of_nat k + 1) = String x "".
Proof.
  intros Hk. rewrite slice_nonneg by lia.
  rewrite Nat2Z.id, (drop_S _ _ _ Hk).
  by replace (Z.to_nat (Z.of_nat k + 1 - Z.of_nat k)) with 1%nat by lia.
Qed.

Lemma splitext_scan_finds p dot (j : nat) c :
  PyStr.chars p !! j = Some c → c ≠ extsep → Z.of_nat j < dot →
  ∀ fuel (k : nat), (k ≤ j)%nat → (j - k < fuel)%nat →
    splitext_scan p fuel (Z.of_nat k) dot = true.
Proof.
  intros Hj Hc Hdot. induction fuel as [|fuel IH]; intros k Hk Hfuel; [lia|].
  simpl. destruct (Z.ltb_spec (Z.of_nat k) dot) as [_|?]; [|lia].
  destruct (lookup_lt_is_Some_2 (PyStr.chars p) k) as [x Hx].
  { apply lookup_lt_Some in Hj. lia. }
  rewrite (slice_char _ _ _ Hx).
  destruct (String.eqb_spec (String x "") (String extsep "")) as [Heq|Hne]; [|done].
  simpl. injection Heq as ->.
  assert (k ≠ j) by (intros ->; congruence).
  replace (Z.of_nat k + 1) with (Z.of_nat (S k)) by lia.
  apply IH; lia.
Qed.

Lemma splitext_txt os s :
  forallb (λ c, negb (Ascii.eqb c "/") && negb (Ascii.eqb c "\")) (PyStr.chars s) = true →
  existsb (λ c, negb (Ascii.eqb c extsep)) (PyStr.chars s) = true →
  splitext os (s +:+ ".txt") = (s, ".txt").
Proof.
  intros Hsep Hdot. unfold splitext.
  assert (Hno : ∀ c, c = "/"%char ∨ c = "\"%char → PyStr.rfind (s +:+ ".txt") c = -1).
  { intros c Hc. unfold PyStr.rfind. apply rfind_from_notin.
    rewrite chars_app. intros [Hin|Hin]%elem_of_app.
    - rewrite forallb_forall in Hsep. apply list_elem_of_In, Hsep in Hin.
      destruct Hc as [-> | ->]; [rewrite Ascii.eqb_refl in Hin|
        rewrite Ascii.eqb_refl, andb_false_r in Hin]; done.
    - simpl in Hin. destruct Hc as [-> | ->];
        repeat (apply elem_of_cons in Hin as [Hin|Hin]; [done|]);
        by apply elem_of_nil in Hin. }
  assert (Hsepidx :
    match os_altsep os with
    | Some alt => Z.max (PyStr.rfind (s +:+ ".txt") (os_sep os))
                        (PyStr.rfind (s +:+ ".txt") alt)
    | None => PyStr.rfind (s +:+ ".txt") (os_sep os)
    end = -1).
  { destruct os; simpl; rewrite ?Hno; auto. }
  rewrite Hsepidx. clear Hsepidx Hno.
  assert (Hdotidx : PyStr.rfind (s +:+ ".txt") extsep = PyStr.len s).
  { unfold PyStr.rfind. rewrite chars_app. simpl.
    rewrite rfind_from_last.
    - unfold PyStr.len. rewrite chars_length. lia.
    - intros Hin. repeat (apply elem_of_cons in Hin as [Hin|Hin]; [done|]).
      by apply elem_of_nil in Hin. }
  rewrite Hdotidx.
  pose proof (len_nonneg s).
  destruct (Z.gtb_spec (PyStr.len s) (-1)) as [_|?]; [|lia].
  apply existsb_exists in Hdot as (c & Hin & Hc).
  apply list_elem_of_In, list_elem_of_lookup in Hin as [j Hj].
  assert (c ≠ extsep).
  { intros ->. by rewrite Ascii.eqb_refl in Hc. }
  change (-1 + 1) with (Z.of_nat 0).
  rewrite (splitext_scan_finds (s +:+ ".txt") (PyStr.len s) j c).
  - simpl. f_equal; [apply slice_prefix_app | apply slice_from_app].
  - rewrite chars_app. by apply lookup_app_l_Some.
  - done.
  - apply lookup_lt_Some in Hj. unfold PyStr.len.
    rewrite <- chars_length. lia.
  - lia.
  - apply lookup_lt_Some in Hj.
    rewrite <- chars_length, chars_app, length_app. lia.
Qed.

Lemma string_app_assoc (s1 s2 s3 : string) :
  (s1 +:+ s2) +:+ s3 = s1 +:+ s2 +:+ s3.
Proof.
  rewrite <- (str_chars ((s1 +:+ s2) +:+ s3)), <- (str_chars (s1 +:+ s2 +:+ s3)).
  by rewrite !chars_app, app_assoc.
Qed.

Lemma strip_prefix_app prefix X : strip_prefix (prefix +:+ X) prefix = X.
Proof.
  unfold strip_prefix. by rewrite startswith_app, slice_from_app.
Qed.

Lemma strip_prefix_absent base prefix :
  PyStr.startswith base prefix = false → strip_prefix base prefix = base.
Proof. unfold strip_prefix. by intros ->. Qed.

Lemma plain_base_inv X :
  plain_base X = true →
  forallb (λ c, negb (Ascii.eqb c "/") && negb (Ascii.eqb c "\")) (PyStr.chars X) = true
  ∧ existsb (λ c, negb (Ascii.eqb c extsep)) (PyStr.chars X) = true
  ∧ PyStr.startswith X "NO_MATCHING_METADATA_" = false
  ∧ PyStr.startswith X "FAILED_INSERT_" = false.
Proof.
  unfold plain_base. rewrite !andb_true_iff, !negb_true_iff. tauto.
Qed.

(** The extension of [prefix ++ X ++ ".txt"] is split off when neither
    [prefix] nor [X] holds a separator. *)
Lemma splitext_prefixed os prefix X :
  forallb (λ c, negb (Ascii.eqb c "/") && negb (Ascii.eqb c "\")) (PyStr.chars prefix) = true →
  plain_base X = true →
  fst (splitext os (prefix +:+ X +:+ ".txt")) = prefix +:+ X.
Proof.
  intros Hp (Hsep & Hdot & _)%plain_base_inv.
  rewrite <- string_app_assoc, splitext_txt; [done | |].
  - rewrite chars_app, forallb_app. by rewrite Hp, Hsep.
  - rewrite chars_app, existsb_app. by rewrite Hdot, orb_true_r.
Qed.

(** C5, as amended: the two prefixes are stripped once each, in the order
    NO_MATCHING_METADATA_ then FAILED_INSERT_.  For a base name [X] that
    carries neither prefix, the names X.txt, NO_MATCHING_METADATA_X.txt,
    FAILED_INSERT_X.txt and NO_MATCHING_METADATA_FAILED_INSERT_X.txt all
    normalize to [X]; so the diagnostic files written for a file
    normalize to the base name of that file. *)
Theorem normalize_base_name_strips_prefixes os X :
  plain_base X = true →
  normalize_base_name os (X +:+ ".txt") = X
  ∧ normalize_base_name os ("NO_MATCHING_METADATA_" +:+ X +:+ ".txt") = X
  ∧ normalize_base_name os ("FAILED_INSERT_" +:+ X +:+ ".txt") = X
  ∧ normalize_base_name os
      ("NO_MATCHING_METADATA_" +:+ "FAILED_INSERT_" +:+ X +:+ ".txt") = X.
Proof.
  intros HX. pose proof (plain_base_inv X HX) as (_ & _ & Hno & Hfail).
  unfold normalize_base_name, diagnostic_prefixes. repeat split.
  - pose proof (splitext_prefixed os "" X eq_refl HX) as Hs.
    change (fst (splitext os (X +:+ ".txt")) = X) in Hs. rewrite Hs. simpl.
    rewrite (strip_prefix_absent X) by done. by apply strip_prefix_absent.
  - rewrite splitext_prefixed by done. simpl.
    by rewrite strip_prefix_app, strip_prefix_absent.
  - rewrite splitext_prefixed by done. simpl.
    rewrite (strip_prefix_absent _ "NO_MATCHING_METADATA_") by done.
    by rewrite strip_prefix_app.
  - rewrite <- (string_app_assoc "NO_MATCHING_METADATA_" "FAILED_INSERT_").
    rewrite splitext_prefixed by done. simpl.
    rewrite string_app_assoc.
    by rewrite strip_prefix_app, strip_prefix_app.
Qed.

Lemma normalize_base_name_strips_prefixes_witness :
  normalize_base_name Posix "X.txt" = "X"
  ∧ normalize_base_name Posix "NO_MATCHING_METADATA_X.txt" = "X"
  ∧ normalize_base_name Posix "FAILED_INSERT_X.txt" = "X"
  ∧ normalize_base_name Posix "NO_MATCHING_METADATA_FAILED_INSERT_X.txt" = "X".
Proof.
  apply (normalize_base_name_strips_prefixes Posix "X"). reflexivity.
Defined.

(** C5, as stated, fails: the name FAILED_INSERT_NO_MATCHING_METADATA_X.txt
    loses only FAILED_INSERT_, because NO_MATCHING_METADATA_ is tried
    first and only once. *)
Lemma normalize_base_name_nested_prefix :
  normalize_base_name Posix "FAILED_INSERT_NO_MATCHING_METADATA_X.txt"
    = "NO_MATCHING_METADATA_X"
  ∧ normalize_base_name Nt "FAILED_INSERT_NO_MATCHING_METADATA_X.txt"
    = "NO_MATCHING_METADATA_X"
  ∧ normalize_base_name Posix "X.txt" = "X"
  ∧ normalize_base_name Posix "FAILED_INSERT_NO_MATCHING_METADATA_X.txt"
    ≠ normalize_base_name Posix "X.txt".
Proof. repeat split; [vm_compute; reflexivity ..|]. vm_compute. discriminate. Qed.

(** ** parse_line *)

(** A negative length passes the bounds test when the end is not past the
    line; the slice then follows Python's rule for a negative stop. *)
Example parse_line_negative_length :
  parse_line "ABCDEFGHIJ" negative_length_metadata = inr {[ "x" := "CDEFG" ]}.
Proof. reflexivity. Qed.

(** An infinite offset makes [int()] raise, and [parse_line] with it. *)
Example parse_line_infinite_offset :
  parse_line "ABCDEFGHIJ" infinite_offset_metadata = inl overflow_error.
Proof. reflexivity. Qed.

Lemma parse_row_usable line record row :
  parse_row line record row =
    if overflows row then inl overflow_error
    else inr (record_row line record row).
Proof.
  unfold parse_row, overflows, record_row, usable, field_value.
  destruct (start_pstn row) as [[sp|]|], (element_lgth row) as [[lg|]|];
    simpl; try done.
  destruct (Z.ltb_spec (sp - 1) 0), (Z.leb_spec 0 (sp - 1)); try lia; simpl; [done|].
  destruct (Z.gtb_spec (sp - 1 + lg) (PyStr.len line)),
           (Z.leb_spec (sp - 1 + lg) (PyStr.len line)); try lia; done.
Qed.

(** The loop raises when some row does, and otherwise builds the record
    row by row. *)
Lemma parse_rows_spec line metadata :
  ∀ record,
    parse_rows line record metadata =
      if existsb overflows metadata then inl overflow_error
      else inr (fold_left (record_row line) metadata record).
Proof.
  induction metadata as [|row metadata IH]; intros record; simpl; [done|].
  rewrite parse_row_usable. destruct (overflows row); [done|]. apply IH.
Qed.

Lemma parse_line_spec line metadata :
  parse_line line metadata =
    if existsb overflows metadata then inl overflow_error
    else inr (record_of line metadata).
Proof. apply parse_rows_spec. Qed.

(** Rows that do not define [f] leave the entry of [f] alone. *)
Lemma parse_rows_other line f metadata :
  ∀ record,
    (∀ row, row ∈ metadata → usable line row = true → db_element_name row ≠ f) →
    fold_left (record_row line) metadata record !! f = record !! f.
Proof.
  induction metadata as [|row metadata IH]; intros record Hno; simpl; [done|].
  rewrite IH by (intros r Hr; apply Hno; by right).
  unfold record_row. destruct (usable line row) eqn:Hu; [|done].
  apply lookup_insert_ne, Hno; [by left | done].
Qed.

(** Every entry of the result was in the record before, or is the value
    of a usable row of that name. *)
Lemma parse_rows_lookup line metadata :
  ∀ record f v,
    fold_left (record_row line) metadata record !! f = Some v →
    record !! f = Some v
    ∨ ∃ row, row ∈ metadata ∧ usable line row = true
             ∧ db_element_name row = f ∧ v = field_value line row.
Proof.
  induction metadata as [|row metadata IH]; intros record f v Hv; simpl in *; [by left|].
  apply IH in Hv as [Hv | (r & Hr & Hu & Hn & Hval)].
  - unfold record_row in Hv. destruct (usable line row) eqn:Hu; [|by left].
    destruct (decide (db_element_name row = f)) as [<-|Hne].
    + rewrite lookup_insert_eq in Hv. injection Hv as <-.
      right. exists row. split; [by left | done].
    + rewrite lookup_insert_ne in Hv by done. by left.
  - right. exists r. split; [by right | done].
Qed.

Lemma parse_rows_keep line metadata :
  ∀ record f,
    is_Some (record !! f) →
    is_Some (fold_left (record_row line) metadata record !! f).
Proof.
  induction metadata as [|row metadata IH]; intros record f Hf; simpl; [done|].
  apply IH. unfold record_row. destruct (usable line row); [|done].
  destruct (decide (db_element_name row = f)) as [<-|Hne].
  - rewrite lookup_insert_eq. by eexists.
  - by rewrite lookup_insert_ne.
Qed.

Lemma parse_rows_defined line metadata :
  ∀ record row,
    row ∈ metadata → usable line row = true →
    is_Some (fold_left (record_row line) metadata record !! db_element_name row).
Proof.
  induction metadata as [|r metadata IH]; intros record row Hin Hu.
  - by apply elem_of_nil in Hin.
  - simpl. apply elem_of_cons in Hin as [-> | Hin]; [|by apply IH].
    apply parse_rows_keep.
    unfold record_row. rewrite Hu, lookup_insert_eq. by eexists.
Qed.

Lemma record_of_last line before row after :
  usable line row = true →
  (∀ r, r ∈ after → usable line r = true → db_element_name r ≠ db_element_name row) →
  record_of line (before ++ row :: after) !! db_element_name row
  = Some (field_value line row).
Proof.
  intros Hu Hafter. unfold record_of. rewrite fold_left_app. simpl.
  rewrite parse_rows_other by done.
  unfold record_row. by rewrite Hu, lookup_insert_eq.
Qed.



(** ** process_line *)

Lemma resolves_Some line table_map info :
  resolves line table_map = Some info →
  identify_table line table_map = info
  ∧ src_table info ≠ unknown_table ∧ parsed_data info ≠ unknown_table.
Proof.
  unfold resolves, identify_table.
  destruct (table_map !! source_key line) as [i|]; [|done]. simpl.
  destruct (bool_decide_reflect (src_table i = unknown_table)); [done|].
  destruct (bool_decide_reflect (parsed_data i = unknown_table)); [done|].
  intros [= ->]. done.
Qed.

Lemma resolves_None line table_map :
  resolves line table_map = None →
  let info := identify_table line table_map in
  src_table info = unknown_table ∨ parsed_data info = unknown_table.
Proof.
  unfold resolves, identify_table.
  destruct (table_map !! source_key line) as [i|]; simpl; [|by left].
  destruct (bool_decide_reflect (src_table i = unknown_table)); [by left|].
  destruct (bool_decide_reflect (parsed_data i = unknown_table)); [by right|done].
Qed.

Lemma process_line_unresolved line table_map st instance_id engine :
  resolves line table_map = None →
  process_line line table_map st instance_id engine
  = (Returned (not_inserted line), st).
Proof.
  intros H%resolves_None. unfold process_line.
  destruct H as [-> | ->]; simpl; [done|].
  by rewrite orb_true_r.
Qed.

Lemma process_line_resolved line table_map st instance_id engine info :
  resolves line table_map = Some info →
  process_line line table_map st instance_id engine =
    match metadata_cache st !! src_table info with
    | Some metadata => (decoded (parsed_data info) line instance_id metadata, st)
    | None =>
        match fetch_metadata_for_table engine (src_table info) with
        | [] =>
            (Returned (not_inserted line),
             {| metadata_cache := metadata_cache st;
                fetched := fetched st ++ [src_table info] |})
        | metadata =>
            (decoded (parsed_data info) line instance_id metadata,
             {| metadata_cache := <[src_table info := metadata]> (metadata_cache st);
                fetched := fetched st ++ [src_table info] |})
        end
    end.
Proof.
  intros (Hid & Hs & Hp)%resolves_Some. unfold process_line. rewrite Hid.
  rewrite (bool_decide_eq_false_2 _ Hs), (bool_decide_eq_false_2 _ Hp). simpl.
  destruct (metadata_cache st !! src_table info); [done|].
  by destruct (fetch_metadata_for_table engine (src_table info)).
Qed.

Lemma process_line_decodes line table_map st instance_id engine info metadata :
  resolves line table_map = Some info →
  metadata_for st engine (src_table info) = Some metadata →
  (process_line line table_map st instance_id engine).1
    = decoded (parsed_data info) line instance_id metadata.
Proof.
  intros Hres Hmd. rewrite (process_line_resolved _ _ _ _ _ _ Hres).
  unfold metadata_for in Hmd.
  destruct (metadata_cache st !! src_table info); [by injection Hmd as ->|].
  destruct (fetch_metadata_for_table engine (src_table info)); [done|].
  by injection Hmd as <-.
Qed.

(** The bounds test, spelled out. *)
Lemma usable_spec line row :
  usable line row = true ↔
  ∃ sp lg, start_pstn row = Some (Finite sp) ∧ element_lgth row = Some (Finite lg)
           ∧ 0 ≤ sp - 1 ∧ sp - 1 + lg ≤ PyStr.len line.
Proof.
  unfold usable.
  destruct (start_pstn row) as [[sp|]|], (element_lgth row) as [[lg|]|];
    try (split; [done | by intros (? & ? & ? & ? & _)]).
  rewrite andb_true_iff, !Z.leb_le. split.
  - intros [? ?]. by exists sp, lg.
  - by intros (? & ? & [= <-] & [= <-] & ? & ?).
Qed.

(** For a usable definition whose length is not negative, the field is
    the trimmed run of exactly [lg] characters that starts at the 0-based
    offset [sp - 1]. *)
Lemma field_value_within line row sp lg :
  start_pstn row = Some (Finite sp) → element_lgth row = Some (Finite lg) →
  usable line row = true → 0 ≤ lg →
  field_value line row
    = PyStr.strip (PyStr.str (take (Z.to_nat lg)
                                   (drop (Z.to_nat (sp - 1)) (PyStr.chars line))))
  ∧ PyStr.len (PyStr.slice line (sp - 1) (sp - 1 + lg)) = lg.
Proof.
  intros Hsp Hlg Hu Hnonneg. unfold usable in Hu. rewrite Hsp, Hlg in Hu.
  apply andb_true_iff in Hu as [H0%Z.leb_le Hend%Z.leb_le].
  unfold field_value, extract_field. rewrite Hsp, Hlg. simpl. split.
  - rewrite slice_nonneg by lia. do 3 f_equal. lia.
  - by apply slice_within_length.
Qed.

(** C3, as amended: for a line whose key resolves and whose metadata is
    available and holds no infinite offset or length, [process_line]
    raises nothing and returns the destination table and a record whose
    fields are exactly instance_id and the names of the column definitions
    with a non-null offset and length that pass the bounds test of
    [parse_line]: the 0-based range starts at or after 0 and ends at or
    before the end of the line.  A definition that fails the test, or with
    a null offset or length, contributes nothing: every value in the
    record other than instance_id is the trimmed slice
    [line[start-1 : start-1+length]] of a definition of that name that
    passes the test, which for a length that is not negative is the
    trimmed run of [length] characters from the offset [start-1]. *)
Theorem decode_postcondition line table_map st instance_id engine info metadata :
  resolves line table_map = Some info →
  metadata_for st engine (src_table info) = Some metadata →
  existsb overflows metadata = false →
  ∃ record,
    (process_line line table_map st instance_id engine).1
      = Returned (Some (parsed_data info), Some record, None)
    ∧ (∀ f, f ∈ dom record ↔
            f = "instance_id"
            ∨ ∃ row, row ∈ metadata ∧ usable line row = true
                     ∧ db_element_name row = f)
    ∧ (∀ f v, record !! f = Some v → f ≠ "instance_id" →
         ∃ row sp lg,
           row ∈ metadata ∧ db_element_name row = f
           ∧ start_pstn row = Some (Finite sp)
           ∧ element_lgth row = Some (Finite lg)
           ∧ 0 ≤ sp - 1 ∧ sp - 1 + lg ≤ PyStr.len line
           ∧ v = PyStr.strip (PyStr.slice line (sp - 1) (sp - 1 + lg))
           ∧ (0 ≤ lg →
              v = PyStr.strip
                    (PyStr.str (take (Z.to_nat lg)
                                     (drop (Z.to_nat (sp - 1)) (PyStr.chars line))))))
    ∧ record !! "instance_id" = Some instance_id.
Proof.
  intros Hres Hmd Hfin.
  exists (<["instance_id" := instance_id]> (record_of line metadata)).
  split; [|split; [|split]].
  - rewrite (process_line_decodes _ _ _ _ _ _ _ Hres Hmd). unfold decoded.
    by rewrite parse_line_spec, Hfin.
  - intros f. rewrite elem_of_dom. unfold record_of. split.
    + intros [v Hv]. destruct (decide (f = "instance_id")) as [->|Hne]; [by left|].
      right. rewrite lookup_insert_ne in Hv by done.
      apply parse_rows_lookup in Hv as [Hv | (row & ? & ? & ? & _)]; [done|].
      by exists row.
    + intros [-> | (row & Hin & Hu & <-)].
      * rewrite lookup_insert_eq. by eexists.
      * destruct (decide ("instance_id" = db_element_name row)) as [<-|Hne].
        -- rewrite lookup_insert_eq. by eexists.
        -- rewrite lookup_insert_ne by done. by apply parse_rows_defined.
  - intros f v Hv Hne. rewrite lookup_insert_ne in Hv by done.
    apply parse_rows_lookup in Hv as [Hv | (row & Hin & Hu & Hname & ->)]; [done|].
    pose proof Hu as (sp & lg & Hsp & Hlg & H0 & Hend)%usable_spec.
    exists row, sp, lg. repeat (split; [done|]). split.
    + unfold field_value, extract_field. by rewrite Hsp, Hlg.
    + intros Hnn. by apply field_value_within.
  - apply lookup_insert_eq.
Qed.

Lemma decode_postcondition_witness :
  ∃ record,
    (process_line scenario_line (scenario_registry "ABC34") no_workers_state
       "run" (engine_with ragged_metadata)).1
      = Returned (Some "abc_data", Some record, None)
    ∧ (∀ f, f ∈ dom record ↔
            f = "instance_id"
            ∨ ∃ row, row ∈ ragged_metadata ∧ usable scenario_line row = true
                     ∧ db_element_name row = f)
    ∧ (∀ f v, record !! f = Some v → f ≠ "instance_id" →
         ∃ row sp lg,
           row ∈ ragged_metadata ∧ db_element_name row = f
           ∧ start_pstn row = Some (Finite sp)
           ∧ element_lgth row = Some (Finite lg)
           ∧ 0 ≤ sp - 1 ∧ sp - 1 + lg ≤ PyStr.len scenario_line
           ∧ v = PyStr.strip (PyStr.slice scenario_line (sp - 1) (sp - 1 + lg))
           ∧ (0 ≤ lg →
              v = PyStr.strip
                    (PyStr.str (take (Z.to_nat lg)
                                     (drop (Z.to_nat (sp - 1))
                                           (PyStr.chars scenario_line))))))
    ∧ record !! "instance_id" = Some "run".
Proof.
  apply (decode_postcondition scenario_line (scenario_registry "ABC34")
           no_workers_state "run" (engine_with ragged_metadata)
           {| src_table := "ABC_META"; parsed_data := "abc_data" |}
           ragged_metadata).
  - vm_compute. reflexivity.
  - vm_compute. reflexivity.
  - reflexivity.
Defined.

(** The record of the witness: the definitions without offset or length
    and the one that ends after the line are left out. *)
Example decode_ragged_metadata :
  (process_line scenario_line (scenario_registry "ABC34") no_workers_state
     "run" (engine_with ragged_metadata)).1
  = Returned (Some "abc_data", Some (scenario_record "run"), None).
Proof.
  rewrite (process_line_decodes scenario_line (scenario_registry "ABC34")
             no_workers_state "run" (engine_with ragged_metadata)
             {| src_table := "ABC_META"; parsed_data := "abc_data" |}
             ragged_metadata) by (vm_compute; reflexivity).
  reflexivity.
Qed.

(** C3, as stated, fails.  A definition with offset 3 and length -5 has
    the range [2, -3], which does not lie within the line; it passes the
    bounds test all the same, and the record holds for it what the slice
    with a negative stop gives.  A definition with an infinite offset has
    no range within the line either; for it [int()] raises, and
    [process_line] with it. *)
Lemma decode_outside_range :
  (process_line scenario_line (scenario_registry "ABC34") no_workers_state
     "run" (engine_with negative_length_metadata)).1
  = Returned (Some "abc_data",
              Some (<["x" := "C01    12"]> {[ "instance_id" := "run" ]}),
              None)
  ∧ (process_line scenario_line (scenario_registry "ABC34") no_workers_state
       "run" (engine_with infinite_offset_metadata)).1
    = Raised overflow_error.
Proof.
  split.
  - rewrite (process_line_decodes scenario_line (scenario_registry "ABC34")
               no_workers_state "run" (engine_with negative_length_metadata)
               {| src_table := "ABC_META"; parsed_data := "abc_data" |}
               negative_length_metadata) by (vm_compute; reflexivity).
    reflexivity.
  - rewrite (process_line_decodes scenario_line (scenario_registry "ABC34")
               no_workers_state "run" (engine_with infinite_offset_metadata)
               {| src_table := "ABC_META"; parsed_data := "abc_data" |}
               infinite_offset_metadata) by (vm_compute; reflexivity).
    reflexivity.
Qed.

(** The key is read with two slices whose bounds are not negative, which
    are defined on a line of any length. *)
Lemma source_key_total line :
  source_key line
  = PyStr.strip (PyStr.str (take 3 (PyStr.chars line)))
    +:+ PyStr.strip (PyStr.str (take 2 (drop 11 (PyStr.chars line)))).
Proof.
  unfold source_key, extract_field. by rewrite !slice_nonneg by lia.
Qed.

(** C4: the composite key is a total function of the line (two slices,
    defined for a line of any length and content); when the key is not in
    the registry, [process_line] returns no destination table, no record
    and the original line, and leaves the cache alone; the collection loop
    then files the line as not inserted (a line read from a file is never
    the empty string). *)
Theorem unresolved_key_not_inserted line table_map st instance_id engine :
  table_map !! source_key line = None →
  source_key line
    = PyStr.strip (PyStr.str (take 3 (PyStr.chars line)))
      +:+ PyStr.strip (PyStr.str (take 2 (drop 11 (PyStr.chars line))))
  ∧ process_line line table_map st instance_id engine
    = (Returned (None, None, Some line), st)
  ∧ (line ≠ "" → ∀ b,
       collect_one b
         {| submitted_line := line;
            result := (process_line line table_map st instance_id engine).1 |}
       = {| parsed_data_per_table := parsed_data_per_table b;
            not_inserted_records := not_inserted_records b ++ [line] |}).
Proof.
  intros Hkey.
  assert (Hp : process_line line table_map st instance_id engine
               = (Returned (None, None, Some line), st)).
  { apply process_line_unresolved. unfold resolves. by rewrite Hkey. }
  split; [apply source_key_total|]. split; [done|].
  intros Hne b. rewrite Hp. unfold collect_one. simpl.
  by destruct (String.eqb_spec line "").
Qed.

Lemma unresolved_key_not_inserted_witness :
  source_key "ZZZ99 anything" = "ZZZin"
  ∧ process_line "ZZZ99 anything" (scenario_registry "ABC34") no_workers_state
      "run" scenario_engine
    = (Returned (None, None, Some "ZZZ99 anything"), no_workers_state)
  ∧ ("ZZZ99 anything" ≠ "" → ∀ b,
       collect_one b
         {| submitted_line := "ZZZ99 anything";
            result := (process_line "ZZZ99 anything"
                         (scenario_registry "ABC34") no_workers_state
                         "run" scenario_engine).1 |}
       = {| parsed_data_per_table := parsed_data_per_table b;
            not_inserted_records := not_inserted_records b ++ ["ZZZ99 anything"] |}).
Proof.
  apply (unresolved_key_not_inserted "ZZZ99 anything" (scenario_registry "ABC34")
           no_workers_state "run" scenario_engine).
  vm_compute. reflexivity.
Defined.

(** ** The scenario *)

(** C6, as stated, fails: the key of the line ABC01    12345 is made of
    its characters [0,3) and [11,13), which is ABC34, so a registry that
    only knows ABC01 does not resolve the line and nothing is decoded. *)
Lemma scenario_key_ABC01_not_decoded :
  source_key scenario_line = "ABC34"
  ∧ process_line scenario_line (scenario_registry "ABC01") no_workers_state
      "run" scenario_engine
    = (Returned (None, None, Some scenario_line), no_workers_state)
  ∧ (process_line scenario_line (scenario_registry "ABC01") no_workers_state
       "run" scenario_engine).1
    ≠ Returned (Some "abc_data", Some (scenario_record "run"), None).
Proof.
  assert (H : process_line scenario_line (scenario_registry "ABC01")
                no_workers_state "run" scenario_engine
              = (Returned (None, None, Some scenario_line), no_workers_state)).
  { apply process_line_unresolved. vm_compute. reflexivity. }
  split; [vm_compute; reflexivity|]. split; [exact H|].
  rewrite H. simpl. discriminate.
Qed.

(** C6, as amended: with the registry entry under the key ABC34, the line
    resolves to abc_data and decodes to the record with code ABC, amt
    12345 and the instance identifier. *)
Theorem scenario_decodes instance_id :
  (process_line scenario_line (scenario_registry "ABC34") no_workers_state
     instance_id scenario_engine).1
  = Returned (Some "abc_data", Some (scenario_record instance_id), None).
Proof.
  rewrite (process_line_decodes scenario_line (scenario_registry "ABC34")
             no_workers_state instance_id scenario_engine
             {| src_table := "ABC_META"; parsed_data := "abc_data" |}
             scenario_metadata) by (vm_compute; reflexivity).
  reflexivity.
Qed.

(** ** The collection loop *)

Lemma collect_one_split b f :
  collect_one b f =
    {| parsed_data_per_table :=
         parsed_data_per_table
           (collect_one {| parsed_data_per_table := parsed_data_per_table b;
                           not_inserted_records := [] |} f);
       not_inserted_records := not_inserted_records b ++ filed_lines f |}.
Proof.
  unfold filed_lines, collect_one. destruct b as [tables lines].
  destruct (result f) as [[[t r] l]|e]; simpl.
  - destruct (truthy_str t && truthy_dict r); simpl; [by rewrite app_nil_r|].
    destruct (truthy_str l); simpl; [done | by rewrite app_nil_r].
  - done.
Qed.

Lemma collect_from_split completed :
  ∀ b,
    collect_from b completed =
      {| parsed_data_per_table :=
           parsed_data_per_table
             (collect_from {| parsed_data_per_table := parsed_data_per_table b;
                              not_inserted_records := [] |} completed);
         not_inserted_records :=
           not_inserted_records b ++ concat (filed_lines <$> completed) |}.
Proof.
  unfold collect_from.
  induction completed as [|f completed IH]; intros b; simpl.
  - rewrite app_nil_r. by destruct b.
  - rewrite IH. rewrite (IH (collect_one _ f)). f_equal.
    + by rewrite (collect_one_split b).
    + rewrite (collect_one_split b). simpl. by rewrite app_assoc.
Qed.

Lemma collect_raised b line e :
  collect_one b {| submitted_line := line; result := Raised e |} =
    {| parsed_data_per_table := parsed_data_per_table b;
       not_inserted_records := not_inserted_records b ++ [line] |}.
Proof. done. Qed.

(** C9: a task that raised is caught in the collection loop, which files
    exactly the line it was submitted for; against the same run without
    that task, the per-table batches are the same and the not-inserted
    list has that one line more, at the place where the task completed.
    The loop goes on with the tasks that complete after it. *)
Theorem raised_line_contained before after line e :
  let raised := {| submitted_line := line; result := Raised e |} in
  parsed_data_per_table (collect (before ++ raised :: after))
    = parsed_data_per_table (collect (before ++ after))
  ∧ ∃ rest,
      not_inserted_records (collect (before ++ after))
        = not_inserted_records (collect before) ++ rest
      ∧ not_inserted_records (collect (before ++ raised :: after))
        = not_inserted_records (collect before) ++ line :: rest.
Proof.
  intros raised. unfold collect, collect_from.
  rewrite !fold_left_app. simpl. fold (collect_from no_buckets before).
  set (b := collect_from no_buckets before).
  fold (collect_from (collect_one b raised) after). fold (collect_from b after).
  rewrite (collect_from_split after (collect_one b raised)).
  rewrite (collect_from_split after b). simpl. split; [done|].
  exists (concat (filed_lines <$> after)). split; [done|].
  by rewrite <- app_assoc.
Qed.

(** ** The gate and the load *)

Lemma insert_batches_committed engine batches :
  ∀ conn, committed (insert_batches engine conn batches).1 = committed conn.
Proof.
  induction batches as [|[t rs] batches IH]; intros conn; simpl; [done|].
  unfold insert_parsed_data.
  destruct (insert_error engine t (df_records rs)); [done|].
  by rewrite IH.
Qed.

Lemma insert_batches_events engine batches :
  ∀ conn, ∃ inserts,
    events (insert_batches engine conn batches).1 = events conn ++ inserts
    ∧ Forall is_insert inserts.
Proof.
  induction batches as [|[t rs] batches IH]; intros conn; simpl.
  - exists []. by rewrite app_nil_r.
  - unfold insert_parsed_data.
    destruct (insert_error engine t (df_records rs)).
    + exists []. by rewrite app_nil_r.
    + edestruct IH as (inserts & -> & Hall). simpl.
      exists (EvInsert t (length (df_records rs)) :: inserts).
      rewrite <- app_assoc. split; [done|]. by constructor.
Qed.

(** The loop ends with the exception of the first insert that raises. *)
Lemma insert_batches_raises engine batches t rs :
  (t, rs) ∈ batches → is_Some (insert_error engine t (df_records rs)) →
  ∀ conn, is_Some (insert_batches engine conn batches).2.
Proof.
  intros Hin Herr.
  induction batches as [|[t' rs'] batches IH]; intros conn; simpl.
  - by apply elem_of_nil in Hin.
  - unfold insert_parsed_data.
    destruct (insert_error engine t' (df_records rs')) as [e|] eqn:He; [by eexists|].
    apply elem_of_cons in Hin as [[= -> ->] | Hin].
    + rewrite He in Herr. by destruct Herr.
    + by apply IH.
Qed.

Lemma insert_batches_succeeds engine batches :
  (∀ t rs, (t, rs) ∈ batches → insert_error engine t (df_records rs) = None) →
  ∀ conn,
    (insert_batches engine conn batches).2 = None
    ∧ working (insert_batches engine conn batches).1 =
        (λ w, fold_left (λ w '(t, rs), add_rows t (df_records rs) w) batches w)
          <$> working conn.
Proof.
  induction batches as [|[t rs] batches IH]; intros Hok conn; simpl.
  - split; [done|]. by destruct (working conn).
  - unfold insert_parsed_data. rewrite (Hok t rs) by left.
    destruct (IH (λ t' rs' H, Hok t' rs' (list_elem_of_further _ _ _ H))
                {| committed := committed conn;
                   working := add_rows t (df_records rs) <$> working conn;
                   events := events conn ++ [EvInsert t (length (df_records rs))] |})
      as [-> ->].
    split; [done|]. simpl. by destruct (working conn).
Qed.

(** When every insert succeeds the transaction commits: the rows of every
    batch are added to the committed store. *)
Lemma load_commits engine conn batches :
  (∀ t rs, (t, rs) ∈ batches → insert_error engine t (df_records rs) = None) →
  (load engine conn batches).2 = []
  ∧ committed (load engine conn batches).1 =
      fold_left (λ w '(t, rs), add_rows t (df_records rs) w) batches (committed conn)
  ∧ working (load engine conn batches).1 = None.
Proof.
  intros Hok. unfold load.
  destruct (insert_batches_succeeds engine batches Hok (conn_begin conn)) as [Hres Hw].
  destruct (insert_batches engine (conn_begin conn) batches) as [conn' res].
  simpl in *. subst res. simpl. by rewrite Hw.
Qed.

(** When an insert raises the transaction is rolled back: the committed
    store is the one before the load. *)
Lemma load_rolls_back engine conn batches t rs :
  (t, rs) ∈ batches → is_Some (insert_error engine t (df_records rs)) →
  committed (load engine conn batches).1 = committed conn
  ∧ working (load engine conn batches).1 = None
  ∧ (∃ e, (load engine conn batches).2 = [(None, e)])
  ∧ ∃ inserts,
      events (load engine conn batches).1
        = events conn ++ [EvBegin] ++ inserts ++ [EvRollback]
      ∧ Forall is_insert inserts.
Proof.
  intros Hin Herr. unfold load.
  pose proof (insert_batches_committed engine batches (conn_begin conn)) as Hc.
  destruct (insert_batches_events engine batches (conn_begin conn))
    as (inserts & Hev & Hall).
  destruct (insert_batches_raises engine batches t rs Hin Herr (conn_begin conn))
    as [e He].
  destruct (insert_batches engine (conn_begin conn) batches) as [conn' res].
  simpl in *. subst res. simpl. repeat split; [done | by eexists |].
  exists inserts. rewrite Hev. by rewrite <- !app_assoc.
Qed.

Lemma process_file_gated os file_name lines engine table_map
      schedule as_completed conn :
  not_inserted_records
    (decode_phase os file_name lines engine table_map schedule as_completed) ≠ [] →
  process_file os file_name (inr lines) engine table_map schedule as_completed conn =
    on_exception (normalize_base_name os file_name) gate_error []
      (not_inserted_records
         (decode_phase os file_name lines engine table_map schedule as_completed)) conn.
Proof.
  intros Hne. unfold process_file.
  by destruct (not_inserted_records
                 (decode_phase os file_name lines engine table_map
                       schedule as_completed)).
Qed.

Lemma process_file_loaded os file_name lines engine table_map
      schedule as_completed conn :
  not_inserted_records
    (decode_phase os file_name lines engine table_map schedule as_completed) = [] →
  connect_error engine = None →
  process_file os file_name (inr lines) engine table_map schedule as_completed conn =
    let batches :=
      parsed_data_per_table
        (decode_phase os file_name lines engine table_map schedule as_completed) in
    {| failed_records := (load engine conn batches).2;
       files_written := [];
       conn_after := (load engine conn batches).1 |}.
Proof.
  intros Hni Hconn. unfold process_file. rewrite Hni, Hconn. simpl.
  by destruct (load engine conn _).
Qed.

(** C1: when the not-inserted bucket is not empty once every line has
    been decoded, [process_file] raises before it connects: the connection
    is left as it was, so no transaction is begun and the committed rows
    of every destination table are those from before the file, whatever
    the per-table batches hold; the file is reported as failed. *)
Theorem gate_blocks_load os file_name lines engine table_map
      schedule as_completed conn :
  not_inserted_records
    (decode_phase os file_name lines engine table_map schedule as_completed) ≠ [] →
  let r := process_file os file_name (inr lines) engine table_map
        schedule as_completed conn in
  conn_after r = conn
  ∧ events (conn_after r) = events conn
  ∧ committed (conn_after r) = committed conn
  ∧ failed_records r = [(None, gate_error)].
Proof.
  intros Hne r. subst r. by rewrite process_file_gated.
Qed.

(** C2: when the gate is passed and the insert of some batch raises, the
    transaction that was begun is rolled back and never committed: the
    committed rows of every table are those from before the file, also
    for the tables whose insert had succeeded, and the file is reported as
    failed with the error. *)
Theorem failed_insert_rolls_back os file_name lines engine table_map
      schedule as_completed
    conn t rs :
  let b := decode_phase os file_name lines engine table_map schedule as_completed in
  not_inserted_records b = [] →
  connect_error engine = None →
  (t, rs) ∈ parsed_data_per_table b →
  is_Some (insert_error engine t (df_records rs)) →
  let r := process_file os file_name (inr lines) engine table_map
        schedule as_completed conn in
  committed (conn_after r) = committed conn
  ∧ working (conn_after r) = None
  ∧ (∃ e, failed_records r = [(None, e)])
  ∧ ∃ inserts,
      events (conn_after r) = events conn ++ [EvBegin] ++ inserts ++ [EvRollback]
      ∧ Forall is_insert inserts.
Proof.
  intros b Hni Hconn Hin Herr r. subst r b.
  rewrite process_file_loaded by done. simpl.
  by apply (load_rolls_back engine conn _ t rs).
Qed.

Lemma gate_blocks_load_witness :
  let r := process_file Posix "X.txt"
             (inr ["ABC01    12345" +:+ newline; "ZZZ99    00000" +:+ newline])
             scenario_engine (scenario_registry "ABC34") one_by_one in_line_order empty_conn in
  conn_after r = empty_conn
  ∧ events (conn_after r) = events empty_conn
  ∧ committed (conn_after r) = committed empty_conn
  ∧ failed_records r = [(None, gate_error)].
Proof.
  apply (gate_blocks_load Posix "X.txt"
           ["ABC01    12345" +:+ newline; "ZZZ99    00000" +:+ newline]
           scenario_engine (scenario_registry "ABC34") one_by_one in_line_order empty_conn).
  vm_compute. discriminate.
Defined.

Lemma failed_insert_rolls_back_witness :
  let r := process_file Posix "X.txt" (inr two_table_lines) xyz_fails_engine
             two_table_registry in_turn in_line_order empty_conn in
  committed (conn_after r) = committed empty_conn
  ∧ working (conn_after r) = None
  ∧ (∃ e, failed_records r = [(None, e)])
  ∧ ∃ inserts,
      events (conn_after r) = events empty_conn ++ [EvBegin] ++ inserts ++ [EvRollback]
      ∧ Forall is_insert inserts.
Proof.
  apply (failed_insert_rolls_back Posix "X.txt" two_table_lines xyz_fails_engine
           two_table_registry in_turn in_line_order empty_conn
           "xyz_data"
           [<["instance_id" := "X"]>
              (record_of ("XYZ01    67890" +:+ newline) scenario_metadata)]).
  - vm_compute. reflexivity.
  - reflexivity.
  - apply (list_elem_of_lookup_2 _ 1%nat). vm_compute. reflexivity.
  - vm_compute. by eexists.
Defined.

(** ** The diagnostic files *)

(** On the path of the gate the handler writes the failed-insert log,
    with one line for the exception. *)
Lemma gate_failure_writes_log os file_name lines engine table_map
      schedule as_completed conn :
  not_inserted_records
    (decode_phase os file_name lines engine table_map schedule as_completed) ≠ [] →
  failed_insert_log (normalize_base_name os file_name) [(None, gate_error)]
    ∈ files_written
        (process_file os file_name (inr lines) engine table_map
              schedule as_completed conn).
Proof.
  intros Hne. rewrite process_file_gated by done.
  unfold on_exception. simpl. apply elem_of_app. right. by left.
Qed.

(** On the path of the load nothing is written, whether or not an insert
    raised: the exception of an insert is handled inside the transaction
    and does not reach the handler that writes the logs. *)
Lemma load_writes_no_log os file_name lines engine table_map
      schedule as_completed conn :
  not_inserted_records
    (decode_phase os file_name lines engine table_map schedule as_completed) = [] →
  connect_error engine = None →
  files_written
    (process_file os file_name (inr lines) engine table_map
          schedule as_completed conn) = [].
Proof. intros Hni Hconn. by rewrite process_file_loaded. Qed.

(** C7 does not hold of the code: a file with two decodable lines, for
    abc_data and xyz_data, and a store that refuses the insert into
    xyz_data.  Every line is decoded, the insert into abc_data succeeds,
    the insert into xyz_data raises, the transaction is rolled back and
    the error is returned in [failed_records]; but no file is written, so
    there is no FAILED_INSERT_X.txt. *)
Theorem bulk_insert_failure_writes_no_log :
  process_file Posix "X.txt" (inr two_table_lines) xyz_fails_engine
    two_table_registry one_by_one in_line_order empty_conn
  = {| failed_records := [(None, "insert failed")];
       files_written := [];
       conn_after :=
         {| committed := ∅; working := None;
            events := [EvBegin; EvInsert "abc_data" 1; EvRollback] |} |}.
Proof. vm_compute. reflexivity. Qed.

(** ** The pool of decode tasks *)

Section PoolSteps.

Variable table_map : gmap string TableInfo.
Variable instance_id : string.
Variable engine : Engine.

Lemma task_step_queued line st :
  task_step line table_map instance_id engine st Queued =
    match resolves line table_map with
    | None => (Finished (Returned (not_inserted line)), st)
    | Some info =>
        match metadata_cache st !! src_table info with
        | Some metadata =>
            (Finished (decoded (parsed_data info) line instance_id metadata), st)
        | None => (Missed info, st)
        end
    end.
Proof.
  unfold task_step. destruct (resolves line table_map) as [info|] eqn:Hres.
  - apply resolves_Some in Hres as (-> & Hs & Hp).
    by rewrite (bool_decide_eq_false_2 _ Hs), (bool_decide_eq_false_2 _ Hp).
  - apply resolves_None in Hres as [-> | ->]; simpl; [done|].
    by rewrite orb_true_r.
Qed.

Lemma task_step_cases line st t :
  finished (line, t) = false →
  TaskStep table_map instance_id engine line st t
    (task_step line table_map instance_id engine st t).1
    (task_step line table_map instance_id engine st t).2.
Proof.
  destruct t as [|info|info metadata|r]; intros Hnf; [| | |done].
  - rewrite task_step_queued.
    destruct (resolves line table_map) as [info|] eqn:Hres;
      [|by apply step_unresolved].
    destruct (metadata_cache st !! src_table info) as [metadata|] eqn:Hc.
    + by apply step_hit.
    + by apply step_miss.
  - apply step_fetch.
  - destruct metadata as [|row metadata]; simpl.
    + apply step_empty.
    + by apply step_store.
Qed.

(** A step leaves no task in the queue. *)
Lemma task_step_started line st t t' st' :
  TaskStep table_map instance_id engine line st t t' st' →
  started (line, t') = true.
Proof. by destruct 1. Qed.

Lemma may_step_inv ts i line t :
  ts !! i = Some (line, t) → may_step ts i = true →
  finished (line, t) = false
  ∧ (started (line, t) = true ∨ Forall (λ a, started a = true) (take i ts))
  ∧ (started (line, t) = false →
     (length (List.filter in_progress ts) < max_workers)%nat).
Proof.
  unfold may_step. intros ->. destruct t as [|info|info metadata|r]; try done.
  - intros [Hall Hfree%bool_decide_eq_true]%andb_true_iff.
    split; [done|]. split; [right|done].
    apply Forall_forall. intros a Ha%list_elem_of_In.
    rewrite forallb_forall in Hall. by apply Hall.
  - intros _. split; [done|]. split; [by left | done].
  - intros _. split; [done|]. split; [by left | done].
Qed.

Lemma pool_step_cases p i :
  pool_step table_map instance_id engine p i = p
  ∨ ∃ line t t' st',
      tasks p !! i = Some (line, t)
      ∧ may_step (tasks p) i = true
      ∧ TaskStep table_map instance_id engine line (shared p) t t' st'
      ∧ pool_step table_map instance_id engine p i
        = {| shared := st'; tasks := <[i := (line, t')]> (tasks p) |}.
Proof.
  unfold pool_step. destruct (may_step (tasks p) i) eqn:Hmay; [|by left].
  destruct (tasks p !! i) as [[line t]|] eqn:Hi; [|by left]. right.
  destruct (may_step_inv _ _ _ _ Hi Hmay) as (Hnf & _).
  pose proof (task_step_cases line (shared p) t Hnf) as Hstep.
  destruct (task_step line table_map instance_id engine (shared p) t) as [t' st'].
  by exists line, t, t', st'.
Qed.

(** A property that every step of a task keeps holds after any
    schedule. *)
Lemma pool_steps_ind (Inv : Pool → Prop) :
  (∀ p i line t t' st',
     Inv p → tasks p !! i = Some (line, t) → may_step (tasks p) i = true →
     TaskStep table_map instance_id engine line (shared p) t t' st' →
     Inv {| shared := st'; tasks := <[i := (line, t')]> (tasks p) |}) →
  ∀ schedule p,
    Inv p → Inv (fold_left (pool_step table_map instance_id engine) schedule p).
Proof.
  intros Hstep schedule.
  induction schedule as [|i schedule IH]; intros p Hp; [done|].
  simpl. apply IH.
  destruct (pool_step_cases p i) as [-> | (line & t & t' & st' & Hi & Hmay & Ht & ->)];
    [done|].
  by eapply Hstep.
Qed.

(** *** The order in which the tasks are taken *)

Lemma ordered_submit lines st : ordered (tasks (submit lines st)).
Proof.
  intros i j a b _ _ Hb Hs. simpl in Hb.
  rewrite list_lookup_fmap in Hb.
  destruct (lines !! j); by simplify_eq/=.
Qed.

Lemma ordered_tail t ts : ordered (t :: ts) → ordered ts.
Proof.
  intros Hord i j a b Hij Ha Hb Hs.
  apply (Hord (S i) (S j) a b); [lia | done..].
Qed.

Lemma ordered_head_queued t ts :
  ordered (t :: ts) → started t = false →
  Forall (λ a, started a = false) ts.
Proof.
  intros Hord Ht. apply Forall_lookup. intros j b Hb.
  destruct (started b) eqn:Hs; [|done].
  rewrite <- Ht. symmetry. by apply (Hord 0%nat (S j) t b); [lia|..].
Qed.

Lemma ordered_steps schedule p :
  ordered (tasks p) →
  ordered (tasks (fold_left (pool_step table_map instance_id engine) schedule p)).
Proof.
  apply (pool_steps_ind (λ p, ordered (tasks p))).
  clear. intros p i line t t' st' Hord Hi Hmay Hstep. simpl.
  destruct (may_step_inv _ _ _ _ Hi Hmay) as (_ & Hbefore & _).
  apply task_step_started in Hstep.
  intros a b x y Hab Ha Hb Hy.
  destruct (decide (a = i)) as [->|Hai].
  { apply list_lookup_insert_Some in Ha as [(_ & <- & _) | [? _]]; done. }
  rewrite list_lookup_insert_ne in Ha by done.
  destruct (decide (b = i)) as [->|Hbi].
  - destruct Hbefore as [Hs | Hall].
    + by apply (Hord a i x (line, t)).
    + apply (Forall_lookup_1 _ _ a x Hall). by rewrite lookup_take_lt.
  - rewrite list_lookup_insert_ne in Hb by done. by apply (Hord a b x y).
Qed.

End PoolSteps.

(** *** The end of the pool is a schedule *)

Lemma insert_middle {A} (l1 l2 : list A) x y :
  <[length l1 := y]> (l1 ++ x :: l2) = l1 ++ y :: l2.
Proof. rewrite <- (Nat.add_0_r (length l1)). by rewrite insert_app_r. Qed.

Section PoolEnd.

Variable table_map : gmap string TableInfo.
Variable instance_id : string.
Variable engine : Engine.

Lemma task_step_result_started line st t :
  started (line, (task_step line table_map instance_id engine st t).1) = true.
Proof.
  destruct t as [|info|info metadata|r]; try done.
  - rewrite task_step_queued. destruct (resolves line table_map); [|done].
    by destruct (metadata_cache st !! _).
  - by destruct metadata.
Qed.

Lemma pool_step_at done line t rest st :
  Forall (λ a, finished a = true) done →
  (started (line, t) = false → Forall (λ a, started a = false) rest) →
  pool_step table_map instance_id engine
    {| shared := st; tasks := done ++ (line, t) :: rest |} (length done)
  = {| shared := (task_step line table_map instance_id engine st t).2;
       tasks := done ++ (line, (task_step line table_map instance_id engine st t).1)
                  :: rest |}.
Proof.
  intros Hdone Hrest. unfold pool_step, may_step. cbn [tasks shared].
  rewrite list_lookup_middle by done.
  assert (Hgo :
    (let '(t', st') := task_step line table_map instance_id engine st t in
     {| shared := st';
        tasks := <[length done := (line, t')]> (done ++ (line, t) :: rest) |})
    = {| shared := (task_step line table_map instance_id engine st t).2;
         tasks := done ++ (line, (task_step line table_map instance_id engine st t).1)
                    :: rest |}).
  { destruct (task_step line table_map instance_id engine st t) as [t' st'].
    by rewrite insert_middle. }
  destruct t as [|info|info metadata|r]; [|done..].
  rewrite take_app_length.
  assert (forallb started done = true) as ->.
  { apply forallb_forall. intros a Ha%list_elem_of_In.
    rewrite Forall_forall in Hdone. specialize (Hdone a Ha).
    unfold finished in Hdone. unfold started. by destruct a.2. }
  assert (List.filter in_progress (done ++ (line, Queued) :: rest) = []) as ->.
  { rewrite List.filter_app. simpl.
    assert (∀ l, Forall (λ a : string * Task, in_progress a = false) l →
                 List.filter in_progress l = []) as Hnone.
    { induction 1 as [|a l Ha _ IH]; [done|]. simpl. by rewrite Ha. }
    rewrite !Hnone; [done | |].
    - eapply Forall_impl; [exact (Hrest eq_refl)|].
      intros a. unfold started, in_progress. by destruct a.2.
    - eapply Forall_impl; [exact Hdone|].
      intros a. unfold finished, in_progress. by destruct a.2. }
  done.
Qed.

Lemma task_steps_finish line st t :
  let s1 := task_step line table_map instance_id engine st t in
  let s2 := task_step line table_map instance_id engine s1.2 s1.1 in
  let s3 := task_step line table_map instance_id engine s2.2 s2.1 in
  s3 = (Finished (finish_task line table_map instance_id engine st t).1,
        (finish_task line table_map instance_id engine st t).2).
Proof.
  destruct t as [|info|info metadata|r]; cbv zeta.
  - rewrite task_step_queued. unfold finish_task.
    destruct (resolves line table_map) as [info|] eqn:Hres.
    + rewrite (process_line_resolved _ _ _ _ _ _ Hres).
      destruct (metadata_cache st !! src_table info); [done|].
      simpl. by destruct (fetch_metadata_for_table engine (src_table info)).
    + by rewrite process_line_unresolved.
  - simpl. by destruct (fetch_metadata_for_table engine (src_table info)).
  - simpl. by destruct metadata.
  - done.
Qed.

Lemma finish_task_schedule done line t rest st :
  Forall (λ a, finished a = true) done →
  (started (line, t) = false → Forall (λ a, started a = false) rest) →
  fold_left (pool_step table_map instance_id engine)
    [length done; length done; length done]
    {| shared := st; tasks := done ++ (line, t) :: rest |}
  = {| shared := (finish_task line table_map instance_id engine st t).2;
       tasks := done
                ++ (line, Finished (finish_task line table_map instance_id engine st t).1)
                   :: rest |}.
Proof.
  intros Hdone Hrest. cbn [fold_left].
  rewrite (pool_step_at done line t rest st Hdone Hrest).
  rewrite pool_step_at; [|done|by rewrite task_step_result_started].
  rewrite pool_step_at; [|done|by rewrite task_step_result_started].
  pose proof (task_steps_finish line st t) as Hfin. cbv zeta in Hfin.
  by rewrite Hfin.
Qed.

Lemma finish_tasks_schedule rest :
  ∀ done st,
    Forall (λ a, finished a = true) done → ordered rest →
    ∃ schedule',
      fold_left (pool_step table_map instance_id engine) schedule'
        {| shared := st; tasks := done ++ rest |}
      = {| shared := (finish_tasks table_map instance_id engine st rest).2;
           tasks := done
                    ++ (finished_task
                          <$> (finish_tasks table_map instance_id engine st rest).1) |}.
Proof.
  induction rest as [|[line t] rest IH]; intros done st Hdone Hord.
  { by exists []. }
  cbn [finish_tasks].
  destruct (finish_task line table_map instance_id engine st t) as [r st1] eqn:Hfin.
  destruct (IH (done ++ [(line, Finished r)]) st1) as [schedule' Hs].
  { apply Forall_app. split; [done|]. by constructor. }
  { by eapply ordered_tail. }
  destruct (finish_tasks table_map instance_id engine st1 rest) as [fs st2].
  exists ([length done; length done; length done] ++ schedule').
  rewrite fold_left_app, finish_task_schedule, Hfin; [|done|].
  - cbn [fst snd] in *. rewrite <- !app_assoc in Hs. simpl in Hs.
    by rewrite Hs.
  - intros Hq. by apply (ordered_head_queued (line, t)).
Qed.

(** Every run of [run_tasks] is a run of the pool in which every task
    ends. *)
Lemma run_tasks_pool schedule lines st :
  ∃ schedule',
    let p := fold_left (pool_step table_map instance_id engine)
               (schedule ++ schedule') (submit lines st) in
    tasks p
    = finished_task <$> (run_tasks schedule lines table_map st instance_id engine).1
    ∧ shared p = (run_tasks schedule lines table_map st instance_id engine).2.
Proof.
  unfold run_tasks.
  set (p0 := fold_left (pool_step table_map instance_id engine) schedule
               (submit lines st)).
  assert (Hord : ordered (tasks p0)).
  { apply ordered_steps, ordered_submit. }
  destruct (finish_tasks_schedule (tasks p0) [] (shared p0)) as [schedule' Hs];
    [done | done |].
  exists schedule'. cbv zeta. rewrite fold_left_app. fold p0.
  assert (Hp0 : {| shared := shared p0; tasks := [] ++ tasks p0 |} = p0)
    by (by destruct p0).
  rewrite Hp0 in Hs. by rewrite Hs.
Qed.

(** *** What the tasks compute *)

Lemma fst_insert_same (ts : list (string * Task)) i line t t' :
  ts !! i = Some (line, t) → (<[i := (line, t')]> ts).*1 = ts.*1.
Proof.
  intros Hi. rewrite list_fmap_insert. simpl.
  apply list_insert_id. by rewrite list_lookup_fmap, Hi.
Qed.

Lemma task_stored_mono st st' ts :
  (∀ k, is_Some (metadata_cache st !! k) → is_Some (metadata_cache st' !! k)) →
  Forall (task_stored table_map engine st) ts →
  Forall (task_stored table_map engine st') ts.
Proof.
  intros Hmono Hall. eapply Forall_impl; [exact Hall|].
  intros [line t]. unfold task_stored. simpl.
  destruct t; try done. intros Hst info Hres Hne. by apply Hmono, Hst.
Qed.

Lemma pool_sound_submit lines st :
  pool_sound table_map instance_id engine lines st (submit lines st).
Proof.
  split; [|split; [|split]]; simpl.
  - rewrite <- list_fmap_compose. apply list_fmap_id.
  - intros k. by left.
  - apply Forall_fmap, Forall_true. done.
  - apply Forall_fmap, Forall_true. done.
Qed.

Lemma pool_sound_step lines st0 p i line t t' st' :
  pool_sound table_map instance_id engine lines st0 p →
  tasks p !! i = Some (line, t) →
  TaskStep table_map instance_id engine line (shared p) t t' st' →
  pool_sound table_map instance_id engine lines st0
    {| shared := st'; tasks := <[i := (line, t')]> (tasks p) |}.
Proof.
  intros (Hlines & Hgrow & Hsound & Hstored) Hi Hstep.
  pose proof (Forall_lookup_1 _ _ _ _ Hsound Hi) as Ht.
  assert (Hline : line ∈ lines).
  { rewrite <- Hlines. apply list_elem_of_fmap. exists (line, t).
    split; [done|]. by eapply list_elem_of_lookup_2. }
  unfold pool_sound. cbn [tasks shared].
  rewrite (fst_insert_same _ _ _ _ _ Hi).
  split; [done|].
  destruct Hstep as [Hres|info metadata Hres Hc|info Hres Hc|info| info|info metadata Hne].
  - (* the key does not resolve *)
    split; [done|]. split; apply Forall_insert; try done.
    + unfold task_sound. simpl. by rewrite process_line_unresolved.
    + unfold task_stored. simpl. intros info. by rewrite Hres.
  - (* the cache holds the frame *)
    split; [done|]. split; apply Forall_insert; try done.
    + unfold task_sound. simpl.
      rewrite (process_line_resolved _ _ _ _ _ _ Hres).
      destruct (Hgrow (src_table info)) as [Heq | (Hnone & Hsome & Hnil & _)].
      * by rewrite <- Heq, Hc.
      * rewrite Hnone. rewrite Hc in Hsome. injection Hsome as ->.
        by destruct (fetch_metadata_for_table engine (src_table info)).
    + unfold task_stored. simpl. intros info' Hres' _.
      assert (info' = info) as -> by congruence. by rewrite Hc.
  - (* the cache does not hold it *)
    split; [done|]. split; apply Forall_insert; try done.
    unfold task_sound. simpl. split; [done|].
    destruct (Hgrow (src_table info)) as [Heq | (_ & Hsome & _)]; congruence.
  - (* the query *)
    split; [done|]. split; [|by apply Forall_insert].
    apply Forall_insert; [done|].
    unfold task_sound in *. simpl in *. by destruct Ht.
  - (* no rows *)
    unfold task_sound in Ht. simpl in Ht. destruct Ht as (Hres & Hnone & Hfetch).
    split; [done|]. split; apply Forall_insert; try done.
    + unfold task_sound. simpl.
      by rewrite (process_line_resolved _ _ _ _ _ _ Hres), Hnone, <- Hfetch.
    + unfold task_stored. simpl. intros info' Hres' Hne.
      assert (info' = info) as -> by congruence. congruence.
  - (* the frame is stored *)
    unfold task_sound in Ht. simpl in Ht. destruct Ht as (Hres & Hnone & ->).
    split; [|split].
    + intros k. cbn [metadata_cache].
      destruct (decide (src_table info = k)) as [<-|Hk].
      * right. rewrite lookup_insert_eq. repeat (split; [done|]).
        exists line. split; [done|]. unfold on_schema_table. rewrite Hres.
        apply String.eqb_refl.
      * rewrite lookup_insert_ne by done. apply Hgrow.
    + apply Forall_insert; [done|]. unfold task_sound. simpl.
      rewrite (process_line_resolved _ _ _ _ _ _ Hres), Hnone.
      by destruct (fetch_metadata_for_table engine (src_table info)).
    + apply Forall_insert.
      * eapply task_stored_mono; [|exact Hstored]. intros k. cbn [metadata_cache].
        rewrite lookup_insert_is_Some. intros ?.
        destruct (decide (src_table info = k)); [by left | by right].
      * unfold task_stored. simpl. intros info' Hres' _.
        assert (info' = info) as -> by congruence.
        by rewrite lookup_insert_eq.
Qed.

Lemma pool_sound_steps lines st0 schedule p :
  pool_sound table_map instance_id engine lines st0 p →
  pool_sound table_map instance_id engine lines st0
    (fold_left (pool_step table_map instance_id engine) schedule p).
Proof.
  apply (pool_steps_ind table_map instance_id engine
           (pool_sound table_map instance_id engine lines st0)).
  intros p' i line t t' st' Hp Hi _ Hstep. by eapply pool_sound_step.
Qed.

Lemma futures_from_lines (F : string → Future) (futures : list Future) :
  Forall (λ f, f = F (submitted_line f)) futures →
  futures = F <$> (submitted_line <$> futures).
Proof.
  induction 1 as [|f futures Hf _ IH]; [done|].
  rewrite !fmap_cons. by rewrite <- Hf, <- IH.
Qed.

(** In every schedule, each line gets the result that [process_line]
    computes for it from the state that the tasks started with; the cache
    gains the frames, not empty, of the schema tables of the lines, and
    nothing else. *)
Lemma run_tasks_sound schedule lines st :
  let run := run_tasks schedule lines table_map st instance_id engine in
  run.1 = future_from table_map instance_id engine st <$> lines
  ∧ cache_grows table_map engine lines st run.2
  ∧ ∀ line info,
      line ∈ lines → resolves line table_map = Some info →
      fetch_metadata_for_table engine (src_table info) ≠ [] →
      is_Some (metadata_cache run.2 !! src_table info).
Proof.
  intros run. subst run.
  destruct (run_tasks_pool schedule lines st) as (schedule' & Htasks & Hshared).
  cbv zeta in *.
  pose proof (pool_sound_steps lines st (schedule ++ schedule') _
                (pool_sound_submit lines st)) as (Hlines & Hgrow & Hsound & Hstored).
  rewrite Htasks in Hlines, Hsound, Hstored. rewrite Hshared in Hgrow, Hstored.
  set (run := run_tasks schedule lines table_map st instance_id engine) in *.
  assert (Hsub : submitted_line <$> run.1 = lines).
  { rewrite <- Hlines, <- list_fmap_compose. done. }
  split; [|split; [done|]].
  - rewrite <- Hsub. apply futures_from_lines.
    rewrite Forall_fmap in Hsound. eapply Forall_impl; [exact Hsound|].
    intros [line r]. unfold task_sound, future_from. simpl. by intros ->.
  - intros line info Hin Hres Hne. rewrite <- Hsub in Hin.
    apply list_elem_of_fmap in Hin as (f & -> & Hf).
    rewrite Forall_fmap, Forall_forall in Hstored.
    by apply (Hstored f Hf info).
Qed.

End PoolEnd.

(** ** The metadata cache *)

Lemma count_fetches_app T log t :
  count_fetches T (log ++ [t])
  = (count_fetches T log + if String.eqb T t then 1 else 0)%nat.
Proof.
  unfold count_fetches. rewrite List.filter_app, length_app. simpl.
  by destruct (String.eqb T t).
Qed.

(** For one line: when the metadata of the resolved schema table is not cached and the fetch returns zero rows or raises,
    the line is not inserted, the table is queried once more, and the
    cache is left as it was: nothing records that the table is
    unavailable. *)
Lemma empty_metadata_not_cached line table_map st instance_id engine info :
  resolves line table_map = Some info →
  metadata_cache st !! src_table info = None →
  fetch_metadata_for_table engine (src_table info) = [] →
  process_line line table_map st instance_id engine =
    (Returned (not_inserted line),
     {| metadata_cache := metadata_cache st;
        fetched := fetched st ++ [src_table info] |}).
Proof.
  intros Hres Hcache Hfetch.
  by rewrite (process_line_resolved _ _ _ _ _ _ Hres), Hcache, Hfetch.
Qed.

Lemma on_schema_table_resolves T table_map line :
  on_schema_table T table_map line = true ↔
  ∃ info, resolves line table_map = Some info ∧ src_table info = T.
Proof.
  unfold on_schema_table. destruct (resolves line table_map) as [info|].
  - rewrite String.eqb_eq. split; [by exists info|]. by intros (? & [= <-] & ?).
  - split; [done | by intros (? & ? & _)].
Qed.

Lemma filter_count_insert {A} (P : A → bool) (l : list A) i x y :
  l !! i = Some x →
  (length (List.filter P (<[i := y]> l)) + (if P x then 1 else 0)
   = length (List.filter P l) + (if P y then 1 else 0))%nat.
Proof.
  revert i. induction l as [|a l IH]; intros [|i] Hi; simplify_eq/=.
  - destruct (P x), (P y); simpl; lia.
  - specialize (IH i Hi). destruct (P a); simpl; lia.
Qed.

Lemma filter_fmap_futures (F : string → Future) (g : string → bool) lines :
  (∀ line, submitted_line (F line) = line) →
  List.filter (λ f, g (submitted_line f)) (F <$> lines)
  = F <$> List.filter g lines.
Proof.
  intros HF. induction lines as [|line lines IH]; [done|].
  rewrite fmap_cons. simpl. rewrite HF, IH. by destruct (g line).
Qed.

(** The cache at the end of the tasks, entry by entry. *)
Lemma run_tasks_cache schedule lines table_map st instance_id engine k :
  metadata_cache (run_tasks schedule lines table_map st instance_id engine).2 !! k
  = match metadata_cache st !! k with
    | Some metadata => Some metadata
    | None =>
        match fetch_metadata_for_table engine k with
        | [] => None
        | metadata =>
            if existsb (on_schema_table k table_map) lines
            then Some metadata else None
        end
    end.
Proof.
  destruct (run_tasks_sound table_map instance_id engine schedule lines st)
    as (_ & Hgrow & Hstored).
  destruct (Hgrow k) as [Heq | (-> & -> & Hne & line & Hin & Hon)].
  - rewrite Heq. destruct (metadata_cache st !! k) as [m|] eqn:Hk; [done|].
    destruct (fetch_metadata_for_table engine k) as [|row md] eqn:Hf; [done|].
    destruct (existsb (on_schema_table k table_map) lines) eqn:Hex; [|done].
    apply existsb_exists in Hex as (line & Hin%list_elem_of_In & Hon).
    apply on_schema_table_resolves in Hon as (info & Hres & <-).
    destruct (Hstored line info Hin Hres) as [m Hm]; [by rewrite Hf|].
    congruence.
  - assert (existsb (on_schema_table k table_map) lines = true) as ->.
    { apply existsb_exists. exists line. split; [by apply list_elem_of_In | done]. }
    by destruct (fetch_metadata_for_table engine k).
Qed.

Section EmptyMetadata.

Variable table_map : gmap string TableInfo.
Variable instance_id : string.
Variable engine : Engine.
Variable T : string.
Hypothesis T_empty : fetch_metadata_for_table engine T = [].

(** While the cache holds nothing for [T], every task of a line of [T]
    runs the query, once. *)
Lemma pending_step lines st0 p i line t t' st' :
  metadata_cache st0 !! T = None →
  pool_sound table_map instance_id engine lines st0 p →
  tasks p !! i = Some (line, t) →
  TaskStep table_map instance_id engine line (shared p) t t' st' →
  (count_fetches T (fetched st') + pending T table_map (<[i := (line, t')]> (tasks p))
   = count_fetches T (fetched (shared p)) + pending T table_map (tasks p))%nat.
Proof.
  intros Hnone (_ & Hgrow & Hsound & _) Hi Hstep.
  pose proof (Forall_lookup_1 _ _ _ _ Hsound Hi) as Ht.
  assert (Hmiss : metadata_cache (shared p) !! T = None).
  { destruct (Hgrow T) as [-> | (_ & _ & Hne & _)]; done. }
  unfold pending.
  set (P := λ t : string * Task, on_schema_table T table_map t.1 && waiting t).
  pose proof (filter_count_insert P (tasks p) i (line, t) (line, t') Hi) as Hcount.
  assert (HP : ∀ u, P (line, u)
                    = on_schema_table T table_map line && waiting (line, u)) by done.
  rewrite !HP in Hcount.
  destruct Hstep as [Hres|info metadata Hres Hc|info Hres Hc|info| info|info metadata Hne];
    unfold waiting in Hcount; cbn [snd] in Hcount;
    rewrite ?andb_false_r, ?andb_true_r in Hcount.
  - unfold on_schema_table in Hcount. rewrite Hres in Hcount. lia.
  - assert (on_schema_table T table_map line = false) as Hoff.
    { unfold on_schema_table. rewrite Hres. apply String.eqb_neq. congruence. }
    rewrite Hoff in Hcount. lia.
  - lia.
  - unfold task_sound in Ht. simpl in Ht. destruct Ht as [Hres _].
    cbn [fetched]. rewrite count_fetches_app.
    unfold on_schema_table in Hcount. rewrite Hres in Hcount.
    rewrite (String.eqb_sym T).
    destruct (String.eqb (src_table info) T); lia.
  - lia.
  - cbn [fetched]. lia.
Qed.

Lemma pending_submit lines st :
  pending T table_map (tasks (submit lines st))
  = length (List.filter (on_schema_table T table_map) lines).
Proof.
  unfold pending. simpl. induction lines as [|line lines IH]; [done|].
  rewrite fmap_cons. simpl. rewrite andb_true_r.
  destruct (on_schema_table T table_map line); simpl; by rewrite IH.
Qed.

Lemma pending_finished futures :
  pending T table_map (finished_task <$> futures) = 0%nat.
Proof.
  unfold pending. induction futures as [|f futures IH]; [done|].
  rewrite fmap_cons. simpl. by rewrite andb_false_r.
Qed.

Lemma run_tasks_count schedule lines st :
  metadata_cache st !! T = None →
  count_fetches T
    (fetched (run_tasks schedule lines table_map st instance_id engine).2)
  = (count_fetches T (fetched st)
     + length (List.filter (on_schema_table T table_map) lines))%nat.
Proof.
  intros Hnone.
  destruct (run_tasks_pool table_map instance_id engine schedule lines st)
    as (schedule' & Htasks & Hshared). cbv zeta in *.
  pose proof (pool_steps_ind table_map instance_id engine
    (λ p, pool_sound table_map instance_id engine lines st p
          ∧ (count_fetches T (fetched (shared p)) + pending T table_map (tasks p)
             = count_fetches T (fetched st)
               + length (List.filter (on_schema_table T table_map) lines))%nat))
    as Hind.
  destruct (Hind) with (schedule := schedule ++ schedule') (p := submit lines st)
    as [_ Hcount].
  - intros p i line t t' st' [Hp Hc] Hi _ Hstep. split.
    + by eapply pool_sound_step.
    + cbn [shared tasks]. by rewrite (pending_step lines st p i line t t' st').
  - split; [apply pool_sound_submit|]. by rewrite pending_submit.
  - rewrite Htasks, Hshared, pending_finished in Hcount. lia.
Qed.

End EmptyMetadata.

(** C8, as amended: an empty fetch result (zero rows, or an exception,
    which is handled the same way) is not cached.  While the metadata of
    the schema table [T] stays empty, every line that resolves to [T] is
    not inserted and queries [T] again, once per line; [T] never enters
    the cache; and the lines of the other tables get the outcomes, and
    leave the cache, that they would without the lines of [T].  This holds
    in every schedule of the tasks. *)
Theorem empty_metadata_refetched schedule schedule' lines table_map instance_id
    engine T :
  fetch_metadata_for_table engine T = [] →
  ∀ st, metadata_cache st !! T = None →
    let run := run_tasks schedule lines table_map st instance_id engine in
    let others := List.filter (λ l, negb (on_schema_table T table_map l)) lines in
    let run' := run_tasks schedule' others table_map st instance_id engine in
    metadata_cache run.2 !! T = None
    ∧ (∀ f, f ∈ run.1 → on_schema_table T table_map (submitted_line f) = true →
            result f = Returned (not_inserted (submitted_line f)))
    ∧ count_fetches T (fetched run.2)
      = (count_fetches T (fetched st)
         + length (List.filter (on_schema_table T table_map) lines))%nat
    ∧ run'.1
      = List.filter (λ f, negb (on_schema_table T table_map (submitted_line f))) run.1
    ∧ metadata_cache run'.2 = metadata_cache run.2.
Proof.
  intros Hfetch st Hcache run others run'. subst run run'.
  destruct (run_tasks_sound table_map instance_id engine schedule lines st)
    as (Hrun & _).
  destruct (run_tasks_sound table_map instance_id engine schedule' others st)
    as (Hrun' & _).
  cbv zeta in Hrun, Hrun'. rewrite Hrun, Hrun'.
  split; [|split; [|split; [|split]]].
  - by rewrite run_tasks_cache, Hcache, Hfetch.
  - intros f (line & -> & Hin)%list_elem_of_fmap Hon. unfold future_from in *.
    simpl in *. apply on_schema_table_resolves in Hon as (info & Hres & <-).
    by rewrite (empty_metadata_not_cached _ _ _ _ _ _ Hres Hcache Hfetch).
  - by apply run_tasks_count.
  - subst others. symmetry.
    by apply (filter_fmap_futures _ (λ l, negb (on_schema_table T table_map l))).
  - apply map_eq. intros k. rewrite !run_tasks_cache.
    destruct (metadata_cache st !! k); [done|].
    destruct (fetch_metadata_for_table engine k) as [|row md] eqn:Hk; [done|].
    assert (existsb (on_schema_table k table_map) others
            = existsb (on_schema_table k table_map) lines) as ->; [|done].
    subst others. clear Hrun Hrun'.
    induction lines as [|line lines IH]; [done|]. simpl.
    destruct (on_schema_table T table_map line) eqn:HT; simpl; rewrite IH; [|done].
    assert (on_schema_table k table_map line = false) as ->; [|done].
    apply on_schema_table_resolves in HT as (info & Hres & <-).
    unfold on_schema_table. rewrite Hres. apply String.eqb_neq. congruence.
Qed.

Lemma empty_metadata_refetched_witness :
  let lines := [scenario_line; "XYZ01    67890"; scenario_line] in
  let run := run_tasks in_turn lines mixed_registry no_workers_state "run"
               abc_empty_engine in
  let others :=
    List.filter (λ l, negb (on_schema_table "ABC_META" mixed_registry l)) lines in
  let run' := run_tasks one_by_one others mixed_registry no_workers_state "run"
                abc_empty_engine in
  metadata_cache run.2 !! "ABC_META" = None
  ∧ (∀ f, f ∈ run.1 →
          on_schema_table "ABC_META" mixed_registry (submitted_line f) = true →
          result f = Returned (not_inserted (submitted_line f)))
  ∧ count_fetches "ABC_META" (fetched run.2)
    = (count_fetches "ABC_META" (fetched no_workers_state)
       + length (List.filter (on_schema_table "ABC_META" mixed_registry) lines))%nat
  ∧ run'.1
    = List.filter
        (λ f, negb (on_schema_table "ABC_META" mixed_registry (submitted_line f)))
        run.1
  ∧ metadata_cache run'.2 = metadata_cache run.2.
Proof.
  apply (empty_metadata_refetched in_turn one_by_one
           [scenario_line; "XYZ01    67890"; scenario_line]
           mixed_registry "run" abc_empty_engine "ABC_META").
  - reflexivity.
  - reflexivity.
Defined.

(** C8, as stated, fails: two lines resolve to ABC_META, whose metadata
    has no rows.  Both are not inserted, but the metadata of ABC_META is
    queried for each of them, and the cache holds nothing for ABC_META
    afterwards. *)
Lemma empty_metadata_fetched_twice :
  run_tasks one_by_one [scenario_line; scenario_line] mixed_registry
    no_workers_state "run" abc_empty_engine
  = ([ {| submitted_line := scenario_line;
          result := Returned (not_inserted scenario_line) |};
       {| submitted_line := scenario_line;
          result := Returned (not_inserted scenario_line) |} ],
     {| metadata_cache := ∅; fetched := ["ABC_META"; "ABC_META"] |}).
Proof. vm_compute. reflexivity. Qed.

(** ** A file with an unresolvable line *)

Lemma collect_files_lines completed f line :
  f ∈ completed → line ∈ filed_lines f →
  line ∈ not_inserted_records (collect completed).
Proof.
  intros Hf Hline. unfold collect. rewrite collect_from_split. simpl.
  apply list_elem_of_In, in_concat. exists (filed_lines f).
  split; [|by apply list_elem_of_In].
  apply list_elem_of_In, list_elem_of_fmap. by exists f.
Qed.

(** A file with a (non-empty) line whose key the registry does not know
    commits nothing and begins no transaction, however many of its other
    lines decode, in whatever schedule the tasks run and in whatever order
    they complete. *)
Lemma unresolved_line_blocks_load os file_name lines engine table_map schedule
    as_completed conn line :
  (∀ futures, as_completed futures ≡ₚ futures) →
  line ∈ lines → line ≠ "" → table_map !! source_key line = None →
  conn_after
    (process_file os file_name (inr lines) engine table_map schedule as_completed
       conn)
  = conn.
Proof.
  intros Hperm Hin Hne Hkey. rewrite process_file_gated; [done|].
  assert (Hres : resolves line table_map = None) by (unfold resolves; by rewrite Hkey).
  destruct (run_tasks_sound table_map (normalize_base_name os file_name) engine
              schedule lines no_workers_state) as (Hrun & _).
  assert (Hf : future_from table_map (normalize_base_name os file_name) engine
                 no_workers_state line
               ∈ as_completed
                   (run_tasks schedule lines table_map no_workers_state
                      (normalize_base_name os file_name) engine).1).
  { rewrite Hperm, Hrun. by apply list_elem_of_fmap_2. }
  assert (line ∈ not_inserted_records
                   (decode_phase os file_name lines engine table_map schedule
                      as_completed)).
  { unfold decode_phase. eapply collect_files_lines; [exact Hf|].
    unfold filed_lines, collect_one, future_from. simpl.
    rewrite process_line_unresolved by done. simpl.
    destruct (String.eqb_spec line ""); [done|]. simpl. by left. }
  intros Hnil. rewrite Hnil in H. by apply elem_of_nil in H.
Qed.

(** * Further properties of the decoder *)

(** ** strip and extract_field *)

Lemma lstrip_head l c : head (PyStr.lstrip_chars l) = Some c → PyStr.isspace c = false.
Proof.
  induction l as [|x l IH]; simpl; [done|].
  destruct (PyStr.isspace x) eqn:Hx; [done|]. simpl. by intros [= <-].
Qed.

Lemma lstrip_length l : (length (PyStr.lstrip_chars l) ≤ length l)%nat.
Proof.
  induction l as [|x l IH]; simpl; [done|].
  destruct (PyStr.isspace x); simpl; lia.
Qed.

Lemma lstrip_spaces ws l :
  forallb PyStr.isspace ws = true →
  PyStr.lstrip_chars (ws ++ l) = PyStr.lstrip_chars l.
Proof.
  induction ws as [|x ws IH]; simpl; [done|].
  intros [Hx Hws]%andb_true_iff. rewrite Hx. by apply IH.
Qed.

Lemma lstrip_id l :
  (∀ c, head l = Some c → PyStr.isspace c = false) → PyStr.lstrip_chars l = l.
Proof.
  destruct l as [|x l]; simpl; [done|]. intros H. by rewrite (H x).
Qed.

(** Stripping on the left keeps a last character that is not a space. *)
Lemma lstrip_keeps_last xs c :
  PyStr.isspace c = false → ∃ zs, PyStr.lstrip_chars (xs ++ [c]) = zs ++ [c].
Proof.
  intros Hc. induction xs as [|x xs IH]; simpl.
  - rewrite Hc. by exists [].
  - destruct (PyStr.isspace x); [done|]. by exists (x :: xs).
Qed.

Lemma rstrip_last l c : last (PyStr.rstrip_chars l) = Some c → PyStr.isspace c = false.
Proof.
  unfold PyStr.rstrip_chars. rewrite last_reverse. apply lstrip_head.
Qed.

Lemma rstrip_length l : (length (PyStr.rstrip_chars l) ≤ length l)%nat.
Proof.
  unfold PyStr.rstrip_chars. rewrite length_reverse.
  etrans; [apply lstrip_length|]. by rewrite length_reverse.
Qed.

Lemma rstrip_head l c :
  head l = Some c → PyStr.isspace c = false → head (PyStr.rstrip_chars l) = Some c.
Proof.
  destruct l as [|x l]; simpl; [done|]. intros [= ->] Hc.
  unfold PyStr.rstrip_chars. rewrite reverse_cons.
  destruct (lstrip_keeps_last (reverse l) c Hc) as [zs ->].
  by rewrite reverse_app.
Qed.

Lemma rstrip_id l :
  (∀ c, last l = Some c → PyStr.isspace c = false) → PyStr.rstrip_chars l = l.
Proof.
  intros H. unfold PyStr.rstrip_chars. rewrite lstrip_id; [apply reverse_involutive|].
  intros c Hc. apply H. by rewrite <- head_reverse.
Qed.

Lemma rstrip_spaces l ws :
  forallb PyStr.isspace ws = true →
  PyStr.rstrip_chars (l ++ ws) = PyStr.rstrip_chars l.
Proof.
  intros Hws. unfold PyStr.rstrip_chars. rewrite reverse_app, lstrip_spaces; [done|].
  rewrite forallb_forall in *. intros c Hc. apply Hws.
  by apply list_elem_of_In, elem_of_reverse, list_elem_of_In.
Qed.

(** The ends of a stripped string are not spaces. *)
Lemma strip_ends s :
  (∀ c, head (PyStr.chars (PyStr.strip s)) = Some c → PyStr.isspace c = false)
  ∧ (∀ c, last (PyStr.chars (PyStr.strip s)) = Some c → PyStr.isspace c = false).
Proof.
  unfold PyStr.strip. rewrite chars_str. split; intros c Hc.
  - destruct (PyStr.lstrip_chars (PyStr.chars s)) as [|x l] eqn:Hl.
    { by compute in Hc. }
    assert (Hx : PyStr.isspace x = false) by (apply (lstrip_head (PyStr.chars s)); by rewrite Hl).
    rewrite (rstrip_head (x :: l) x eq_refl Hx) in Hc. by injection Hc as <-.
  - by apply rstrip_last in Hc.
Qed.

Lemma strip_fixed s :
  (∀ c, head (PyStr.chars s) = Some c → PyStr.isspace c = false) →
  (∀ c, last (PyStr.chars s) = Some c → PyStr.isspace c = false) →
  PyStr.strip s = s.
Proof.
  intros Hh Hl. unfold PyStr.strip.
  rewrite lstrip_id by done. rewrite rstrip_id by done. apply str_chars.
Qed.

(** X1: a field that [extract_field] returns neither starts nor ends with
    a space character, stripping it again changes nothing, and for an
    offset and a length that are not negative it has at most [length]
    characters. *)
Theorem extract_field_stripped line start_pos length :
  let v := extract_field line start_pos length in
  (∀ c, head (PyStr.chars v) = Some c → PyStr.isspace c = false)
  ∧ (∀ c, last (PyStr.chars v) = Some c → PyStr.isspace c = false)
  ∧ PyStr.strip v = v
  ∧ (0 ≤ start_pos → 0 ≤ length → PyStr.len v ≤ length).
Proof.
  intros v. subst v. unfold extract_field.
  destruct (strip_ends (PyStr.slice line start_pos (start_pos + length))) as [Hh Hl].
  split; [done|]. split; [done|]. split; [by apply strip_fixed|].
  intros Hs Hn. rewrite slice_nonneg by lia.
  unfold PyStr.strip, PyStr.len. rewrite <- chars_length, !chars_str.
  pose proof (rstrip_length (PyStr.lstrip_chars
    (take (Z.to_nat (start_pos + length - start_pos))
       (drop (Z.to_nat start_pos) (PyStr.chars line))))).
  pose proof (lstrip_length
    (take (Z.to_nat (start_pos + length - start_pos))
       (drop (Z.to_nat start_pos) (PyStr.chars line)))).
  rewrite length_take in *. lia.
Qed.

Lemma strip_padded padl v padr :
  forallb PyStr.isspace (PyStr.chars padl) = true →
  forallb PyStr.isspace (PyStr.chars padr) = true →
  PyStr.strip v = v →
  PyStr.strip (padl +:+ v +:+ padr) = v.
Proof.
  intros Hl Hr Hv.
  destruct (strip_ends v) as [Hhead Hlast]. rewrite Hv in Hhead, Hlast.
  unfold PyStr.strip. rewrite !chars_app, lstrip_spaces by done.
  destruct (PyStr.chars v) as [|c cs] eqn:Hcs.
  - simpl. rewrite <- (app_nil_r (PyStr.chars padr)), lstrip_spaces by done.
    simpl. rewrite <- (str_chars v), Hcs. done.
  - rewrite lstrip_id by (simpl; intros ? [= <-]; by apply Hhead).
    rewrite rstrip_spaces, rstrip_id by done.
    rewrite <- Hcs. apply str_chars.
Qed.

Lemma slice_middle pre field post :
  PyStr.slice (pre +:+ field +:+ post) (PyStr.len pre) (PyStr.len pre + PyStr.len field)
  = field.
Proof.
  pose proof (len_nonneg pre). pose proof (len_nonneg field).
  rewrite slice_nonneg by lia. rewrite !chars_app. unfold PyStr.len.
  rewrite Nat2Z.id, <- !chars_length, drop_app_length.
  replace (Z.to_nat _) with (length (PyStr.chars field)) by lia.
  rewrite take_app_length. apply str_chars.
Qed.

(** X2: round trip of a field.  In a line that holds, after [pre], a
    field made of a trimmed value [v] padded with space characters on
    either side, a column definition with the 1-based position
    [len pre + 1] and the length of the padded field decodes to [v]. *)
Theorem padded_field_round_trip pre padl v padr post name type :
  forallb PyStr.isspace (PyStr.chars padl) = true →
  forallb PyStr.isspace (PyStr.chars padr) = true →
  PyStr.strip v = v →
  let field := padl +:+ v +:+ padr in
  let line := pre +:+ field +:+ post in
  extract_field line (PyStr.len pre) (PyStr.len field) = v
  ∧ parse_line line
      [ {| db_element_name := name;
           start_pstn := Some (Finite (PyStr.len pre + 1));
           element_lgth := Some (Finite (PyStr.len field));
           data_type := type |} ]
    = inr {[ name := v ]}.
Proof.
  intros Hl Hr Hv field line.
  assert (Hx : extract_field line (PyStr.len pre) (PyStr.len field) = v).
  { unfold extract_field. subst line. rewrite slice_middle. by apply strip_padded. }
  split; [done|].
  rewrite parse_line_spec. simpl. f_equal.
  unfold record_of, record_row. simpl.
  unfold usable, field_value. simpl.
  replace (PyStr.len pre + 1 - 1) with (PyStr.len pre) by lia.
  rewrite Hx.
  assert (PyStr.len line = PyStr.len pre + PyStr.len field + PyStr.len post) as ->.
  { subst line. rewrite !len_app. lia. }
  pose proof (len_nonneg pre). pose proof (len_nonneg post).
  destruct (Z.leb_spec 0 (PyStr.len pre)); [|lia].
  destruct (Z.leb_spec (PyStr.len pre + PyStr.len field)
              (PyStr.len pre + PyStr.len field + PyStr.len post)); [|lia].
  simpl. by rewrite insert_empty.
Qed.

Lemma padded_field_round_trip_witness :
  let field := "  " +:+ "12 345" +:+ " " in
  let line := "ABC" +:+ field +:+ "tail" in
  extract_field line (PyStr.len "ABC") (PyStr.len field) = "12 345"
  ∧ parse_line line
      [ {| db_element_name := "amt";
           start_pstn := Some (Finite (PyStr.len "ABC" + 1));
           element_lgth := Some (Finite (PyStr.len field));
           data_type := "N" |} ]
    = inr {[ "amt" := "12 345" ]}.
Proof.
  apply (padded_field_round_trip "ABC" "  " "12 345" " " "tail" "amt" "N");
    reflexivity.
Defined.

(** ** parse_line over the metadata *)

Lemma parse_rows_union line metadata :
  ∀ record,
    fold_left (record_row line) metadata record = record_of line metadata ∪ record.
Proof.
  unfold record_of.
  induction metadata as [|row metadata IH]; intros record; simpl.
  - by rewrite (left_id_L ∅ (∪)).
  - rewrite IH, (IH (record_row line ∅ row)). unfold record_row.
    destruct (usable line row).
    + rewrite <- (assoc_L (∪)). f_equal.
      rewrite insert_union_singleton_l, insert_empty. done.
    + by rewrite (right_id_L ∅ (∪)).
Qed.

Lemma record_of_app line m1 m2 :
  record_of line (m1 ++ m2) = record_of line m2 ∪ record_of line m1.
Proof.
  unfold record_of at 1. rewrite fold_left_app.
  rewrite parse_rows_union. done.
Qed.

(** X3: decoding with two lists of column definitions one after the
    other gives the union of the two records, in which the values of the
    second list win; it raises when decoding with either list does. *)
Theorem parse_line_app line m1 m2 :
  parse_line line (m1 ++ m2) =
    match parse_line line m1, parse_line line m2 with
    | inr record1, inr record2 => inr (record2 ∪ record1)
    | inl e, _ | inr _, inl e => inl e
    end.
Proof.
  rewrite !parse_line_spec, existsb_app.
  destruct (existsb overflows m1), (existsb overflows m2); simpl; try done.
  by rewrite record_of_app.
Qed.

Lemma parse_line_cons line row metadata :
  record_of line (row :: metadata) = record_of line metadata ∪ record_of line [row].
Proof. unfold record_of at 1. simpl. apply parse_rows_union. Qed.

Lemma parse_line_single_dom line row f :
  is_Some (record_of line [row] !! f) → f = db_element_name row.
Proof.
  unfold record_of. simpl. unfold record_row.
  destruct (usable line row); [|by intros [? ?]].
  destruct (decide (db_element_name row = f)) as [<-|Hne]; [done|].
  rewrite lookup_insert_ne by done. by intros [? ?].
Qed.

Lemma record_of_permutation line m1 m2 :
  m1 ≡ₚ m2 → NoDup (db_element_name <$> m1) →
  record_of line m1 = record_of line m2.
Proof.
  induction 1 as [|x l l' Hp IH|x y l|l l' l'' Hp1 IH1 Hp2 IH2]; intros Hnd.
  - done.
  - rewrite fmap_cons in Hnd. apply NoDup_cons in Hnd as [_ Hnd].
    by rewrite (parse_line_cons line x l), (parse_line_cons line x l'), IH.
  - rewrite (parse_line_cons line y (x :: l)), (parse_line_cons line x l).
    rewrite (parse_line_cons line x (y :: l)), (parse_line_cons line y l).
    rewrite <- !(assoc_L (∪)). f_equal.
    apply map_union_comm, map_disjoint_spec. intros f v w Hv Hw.
    assert (f = db_element_name x) by (apply (parse_line_single_dom line); by eexists).
    assert (f = db_element_name y) by (apply (parse_line_single_dom line); by eexists).
    rewrite !fmap_cons in Hnd. apply NoDup_cons in Hnd as [Hnotin _].
    apply Hnotin. rewrite <- H0, H. by left.
  - rewrite IH1 by done. apply IH2. by rewrite <- Hp1.
Qed.

Lemma existsb_permutation {A} (g : A → bool) (l1 l2 : list A) :
  l1 ≡ₚ l2 → existsb g l1 = existsb g l2.
Proof.
  induction 1 as [|x l l' _ IH|x y l|l l' l'' _ IH1 _ IH2]; simpl.
  - done.
  - by rewrite IH.
  - by destruct (g x), (g y).
  - by rewrite IH1.
Qed.

(** X4: when the field names of the metadata are pairwise distinct, the
    result of [parse_line], the decoded record or the exception, does not
    depend on the order of the column definitions. *)
Theorem parse_line_permutation line m1 m2 :
  m1 ≡ₚ m2 → NoDup (db_element_name <$> m1) →
  parse_line line m1 = parse_line line m2.
Proof.
  intros Hp Hnd. rewrite !parse_line_spec, (existsb_permutation _ _ _ Hp).
  by rewrite (record_of_permutation line m1 m2).
Qed.

Lemma parse_line_permutation_witness :
  parse_line scenario_line scenario_metadata
  = parse_line scenario_line (reverse scenario_metadata).
Proof.
  apply (parse_line_permutation scenario_line scenario_metadata
           (reverse scenario_metadata)).
  - symmetry. apply reverse_Permutation.
  - simpl. apply NoDup_cons. split; [|apply NoDup_singleton].
    intros H%list_elem_of_singleton. discriminate.
Defined.

Lemma usable_app line ext row :
  usable line row = true → usable (line +:+ ext) row = true.
Proof.
  rewrite !usable_spec. intros (sp & lg & ? & ? & ? & ?).
  exists sp, lg. rewrite len_app. pose proof (len_nonneg ext).
  repeat (split; [done|]). lia.
Qed.

Lemma field_value_app line ext row lg :
  usable line row = true → element_lgth row = Some (Finite lg) → 0 ≤ lg →
  field_value (line +:+ ext) row = field_value line row.
Proof.
  intros (sp & lg' & Hsp & Hlg' & H0 & Hend)%usable_spec Hlg Hnn.
  assert (lg' = lg) as -> by congruence.
  unfold field_value, extract_field. rewrite Hsp, Hlg. simpl.
  rewrite !slice_nonneg by lia. do 2 f_equal.
  rewrite chars_app. unfold PyStr.len in Hend. rewrite <- chars_length in Hend.
  rewrite drop_app_le by lia.
  rewrite take_app_le; [done|]. rewrite length_drop. lia.
Qed.

Lemma parse_line_lookup_unique line metadata row :
  NoDup (db_element_name <$> metadata) →
  row ∈ metadata → usable line row = true →
  record_of line metadata !! db_element_name row = Some (field_value line row).
Proof.
  intros Hnd (before & after & ->)%list_elem_of_split Hu.
  rewrite fmap_app, fmap_cons in Hnd.
  apply NoDup_app in Hnd as (_ & _ & [Hnotin _]%NoDup_cons).
  apply record_of_last; [done|].
  intros r Hr _ Heq. apply Hnotin. rewrite <- Heq.
  by apply list_elem_of_fmap_2.
Qed.

(** X5: characters after the end of a line do not disturb the fields that
    fit in the line.  When the field names are pairwise distinct and no
    length is negative, every field decoded from [line] is decoded with the
    same value from [line] followed by anything, such as the newline that
    the lines of a file end with; and [parse_line] raises on the one line
    when it raises on the other. *)
Theorem parse_line_extended line ext metadata :
  NoDup (db_element_name <$> metadata) →
  (∀ row lg, row ∈ metadata → element_lgth row = Some (Finite lg) → 0 ≤ lg) →
  match parse_line line metadata, parse_line (line +:+ ext) metadata with
  | inr record, inr record' => record ⊆ record'
  | inl e, inl e' => e = e'
  | _, _ => False
  end.
Proof.
  intros Hnd Hlen. rewrite !parse_line_spec.
  destruct (existsb overflows metadata); [done|].
  apply map_subseteq_spec. intros f v Hv.
  unfold record_of in Hv.
  apply parse_rows_lookup in Hv as [Hv | (row & Hin & Hu & <- & ->)]; [done|].
  pose proof Hu as (sp & lg & _ & Hlg & _)%usable_spec.
  rewrite <- (field_value_app line ext row lg) by eauto.
  apply parse_line_lookup_unique; [done..|]. by apply usable_app.
Qed.

Lemma parse_line_extended_witness :
  match parse_line scenario_line scenario_metadata,
        parse_line (scenario_line +:+ newline) scenario_metadata with
  | inr record, inr record' => record ⊆ record'
  | inl e, inl e' => e = e'
  | _, _ => False
  end.
Proof.
  apply (parse_line_extended scenario_line newline scenario_metadata).
  - simpl. apply NoDup_cons. split; [|apply NoDup_singleton].
    intros H%list_elem_of_singleton. discriminate.
  - intros row lg Hin Hlg.
    apply elem_of_cons in Hin as [-> | Hin]; [injection Hlg as <-; lia|].
    apply list_elem_of_singleton in Hin as ->. injection Hlg as <-. lia.
Defined.

(** ** The metadata cache over a file *)

Lemma no_workers_coherent engine : cache_coherent engine no_workers_state.
Proof. intros t m Hm. simpl in Hm. by rewrite lookup_empty in Hm. Qed.

Lemma process_line_coherent line table_map st instance_id engine :
  cache_coherent engine st →
  cache_coherent engine (process_line line table_map st instance_id engine).2
  ∧ (process_line line table_map st instance_id engine).1
    = decode_alone line table_map instance_id engine.
Proof.
  intros Hco. unfold decode_alone.
  destruct (resolves line table_map) as [info|] eqn:Hres.
  - rewrite !(process_line_resolved _ _ _ _ _ _ Hres). simpl.
    rewrite lookup_empty.
    destruct (metadata_cache st !! src_table info) as [m|] eqn:Hm.
    + destruct (Hco _ _ Hm) as [-> Hne]. split; [done|].
      by destruct (fetch_metadata_for_table engine (src_table info)).
    + destruct (fetch_metadata_for_table engine (src_table info)) as [|r m] eqn:Hf;
        simpl; (split; [|done]); [done|].
      intros t m' Hm'. simpl in Hm'.
      destruct (decide (src_table info = t)) as [<-|Hne].
      * rewrite lookup_insert_eq in Hm'. injection Hm' as <-. by rewrite Hf.
      * rewrite lookup_insert_ne in Hm' by done. by apply Hco.
  - by rewrite !process_line_unresolved.
Qed.

Lemma run_tasks_outcomes schedule lines table_map instance_id engine :
  ∀ st,
    cache_coherent engine st →
    (run_tasks schedule lines table_map st instance_id engine).1
      = (λ line, {| submitted_line := line;
                    result := decode_alone line table_map instance_id engine |})
          <$> lines
    ∧ cache_coherent engine (run_tasks schedule lines table_map st instance_id engine).2.
Proof.
  intros st Hco.
  destruct (run_tasks_sound table_map instance_id engine schedule lines st)
    as (-> & Hgrow & _). split.
  - apply list_fmap_ext. intros _ line _. unfold future_from. f_equal.
    by apply process_line_coherent.
  - intros t m Hm.
    destruct (Hgrow t) as [Heq | (_ & Hsome & Hne & _)].
    + apply Hco. by rewrite <- Heq.
    + rewrite Hm in Hsome. by injection Hsome as ->.
Qed.

(** X6: over a file the cache only ever holds non-empty frames as they
    are fetched, so every line gets the outcome that it would get decoded
    on its own, whatever was decoded before it or is decoded at the same
    time: the outcomes do not depend on the schedule of the tasks. *)
Theorem run_tasks_each_alone schedule lines table_map instance_id engine :
  ∀ st,
    cache_coherent engine st →
    (run_tasks schedule lines table_map st instance_id engine).1
      = (λ line, {| submitted_line := line;
                    result := decode_alone line table_map instance_id engine |})
          <$> lines
    ∧ cache_coherent engine (run_tasks schedule lines table_map st instance_id engine).2.
Proof. apply run_tasks_outcomes. Qed.

Lemma run_tasks_each_alone_witness :
  (run_tasks in_turn two_table_lines two_table_registry no_workers_state "X"
     xyz_fails_engine).1
    = (λ line, {| submitted_line := line;
                  result := decode_alone line two_table_registry "X"
                              xyz_fails_engine |})
        <$> two_table_lines
  ∧ cache_coherent xyz_fails_engine
      (run_tasks in_turn two_table_lines two_table_registry no_workers_state "X"
         xyz_fails_engine).2.
Proof.
  apply (run_tasks_each_alone in_turn two_table_lines two_table_registry "X"
           xyz_fails_engine no_workers_state).
  apply no_workers_coherent.
Defined.

(** ** The queries of a schema table that has rows *)

Section Queries.

Variable table_map : gmap string TableInfo.
Variable instance_id : string.
Variable engine : Engine.
Variable T : string.
Hypothesis T_rows : fetch_metadata_for_table engine T ≠ [].

Lemma on_in_progress ts :
  (missed_on T table_map ts + fetched_on T table_map ts
   ≤ length (List.filter in_progress ts))%nat.
Proof.
  unfold missed_on, fetched_on, in_progress.
  induction ts as [|[line t] ts IH]; [done|]. simpl.
  destruct (on_schema_table T table_map line), t; simpl; lia.
Qed.

Lemma queries_submit lines st :
  metadata_cache st !! T = None →
  queries_inv T table_map (count_fetches T (fetched st))
    (length (List.filter (on_schema_table T table_map) lines)) (submit lines st).
Proof.
  intros Hnone. unfold queries_inv.
  assert (Hzero : length (List.filter in_progress (tasks (submit lines st))) = 0%nat
                  ∧ missed_on T table_map (tasks (submit lines st)) = 0%nat
                  ∧ fetched_on T table_map (tasks (submit lines st)) = 0%nat).
  { unfold missed_on, fetched_on. simpl.
    induction lines as [|line lines IH]; [done|].
    rewrite fmap_cons. simpl. by rewrite !andb_false_r. }
  destruct Hzero as (-> & -> & ->). rewrite pending_submit.
  cbn [shared submit]. rewrite Hnone. unfold max_workers.
  repeat split; try lia. by intros [? ?].
Qed.

Lemma on_schema_table_src line info :
  resolves line table_map = Some info →
  on_schema_table T table_map line = String.eqb (src_table info) T.
Proof. intros Hres. unfold on_schema_table. by rewrite Hres. Qed.

(** The conjuncts of [queries_inv] after a step: arithmetic, from the
    counts before the step. *)
Ltac queries_solve HN2 HL :=
  repeat split;
  first [ lia | done
        | (let H := fresh in intros H; specialize (HN2 H); lia)
        | (let H := fresh in intros H; specialize (HL H); lia)
        | (intros _; lia) ].

Lemma queries_step lines st0 count0 n p i line t t' st' :
  pool_sound table_map instance_id engine lines st0 p →
  queries_inv T table_map count0 n p →
  tasks p !! i = Some (line, t) → may_step (tasks p) i = true →
  TaskStep table_map instance_id engine line (shared p) t t' st' →
  queries_inv T table_map count0 n
    {| shared := st'; tasks := <[i := (line, t')]> (tasks p) |}.
Proof.
  intros (_ & _ & Hsound & _) (HW & HN1 & HN2 & HN3 & HN4 & HL) Hi Hmay Hstep.
  pose proof (Forall_lookup_1 _ _ _ _ Hsound Hi) as Ht.
  destruct (may_step_inv _ _ _ _ Hi Hmay) as (_ & _ & Hfree).
  pose proof (on_in_progress (tasks p)) as Hon_ip.
  unfold queries_inv, missed_on, fetched_on, pending in *. cbn [shared tasks].
  set (Pm := λ t : string * Task,
         on_schema_table T table_map t.1
         && match t.2 with Missed _ => true | _ => false end) in *.
  set (Pf := λ t : string * Task,
         on_schema_table T table_map t.1
         && match t.2 with Fetched _ _ => true | _ => false end) in *.
  set (Pw := λ t : string * Task, on_schema_table T table_map t.1 && waiting t) in *.
  set (Pi := in_progress) in *.
  pose proof (filter_count_insert Pi (tasks p) i (line, t) (line, t') Hi) as Ci.
  pose proof (filter_count_insert Pm (tasks p) i (line, t) (line, t') Hi) as Cm.
  pose proof (filter_count_insert Pf (tasks p) i (line, t) (line, t') Hi) as Cf.
  pose proof (filter_count_insert Pw (tasks p) i (line, t) (line, t') Hi) as Cw.
  assert (HPm : ∀ u, Pm (line, u)
                     = on_schema_table T table_map line
                       && match u with Missed _ => true | _ => false end) by done.
  assert (HPf : ∀ u, Pf (line, u)
                     = on_schema_table T table_map line
                       && match u with Fetched _ _ => true | _ => false end) by done.
  assert (HPw : ∀ u, Pw (line, u)
                     = on_schema_table T table_map line
                       && match u with Queued | Missed _ => true | _ => false end)
    by done.
  assert (HPi : ∀ u, Pi (line, u)
                     = match u with Missed _ | Fetched _ _ => true | _ => false end)
    by done.
  rewrite !HPm in Cm. rewrite !HPf in Cf. rewrite !HPw in Cw. rewrite !HPi in Ci.
  clear HPm HPf HPw HPi.
  unfold max_workers in *. unfold started in Hfree. cbn [snd] in Hfree.
  destruct (on_schema_table T table_map line) eqn:Hon;
    destruct Hstep as [Hres|info metadata Hres Hc|info Hres Hc|info| info|info metadata Hne];
    cbn [andb] in Cm, Cf, Cw; cbv beta iota in Ci, Cm, Cf, Cw, Hfree;
    cbn [fetched metadata_cache].
  - (* a line of [T]: the key does not resolve *)
    apply on_schema_table_resolves in Hon as (info & Hres' & _). congruence.
  - (* a line of [T]: the cache holds the frame *)
    queries_solve HN2 HL.
  - (* a line of [T]: the cache does not hold it *)
    specialize (Hfree eq_refl).
    rewrite (on_schema_table_src _ _ Hres) in Hon. apply String.eqb_eq in Hon.
    rewrite Hon in Hc. pose proof (HN2 Hc). queries_solve HN2 HL.
  - (* a line of [T]: the query *)
    unfold task_sound in Ht. simpl in Ht. destruct Ht as [Hres _].
    rewrite (on_schema_table_src _ _ Hres) in Hon.
    rewrite count_fetches_app, (String.eqb_sym T), Hon. queries_solve HN2 HL.
  - (* a line of [T]: no rows *)
    unfold task_sound in Ht. simpl in Ht. destruct Ht as (Hres & _ & Hfetch).
    rewrite (on_schema_table_src _ _ Hres) in Hon. apply String.eqb_eq in Hon.
    congruence.
  - (* a line of [T]: the frame is stored *)
    unfold task_sound in Ht. simpl in Ht. destruct Ht as (Hres & _ & _).
    rewrite (on_schema_table_src _ _ Hres) in Hon. apply String.eqb_eq in Hon.
    rewrite Hon, lookup_insert_eq. queries_solve HN2 HL.
  - (* another line: the key does not resolve *)
    queries_solve HN2 HL.
  - (* another line: the cache holds the frame *)
    queries_solve HN2 HL.
  - (* another line: the cache does not hold it *)
    specialize (Hfree eq_refl). queries_solve HN2 HL.
  - (* another line: the query *)
    unfold task_sound in Ht. simpl in Ht. destruct Ht as [Hres _].
    rewrite (on_schema_table_src _ _ Hres) in Hon.
    rewrite count_fetches_app, (String.eqb_sym T), Hon. queries_solve HN2 HL.
  - (* another line: no rows *)
    queries_solve HN2 HL.
  - (* another line: the frame is stored *)
    unfold task_sound in Ht. simpl in Ht. destruct Ht as (Hres & _ & _).
    rewrite (on_schema_table_src _ _ Hres) in Hon. apply String.eqb_neq in Hon.
    rewrite lookup_insert_ne by done. queries_solve HN2 HL.
Qed.

Lemma queries_finished futures :
  missed_on T table_map (finished_task <$> futures) = 0%nat
  ∧ fetched_on T table_map (finished_task <$> futures) = 0%nat.
Proof.
  unfold missed_on, fetched_on. induction futures as [|f futures IH]; [done|].
  rewrite fmap_cons. simpl. by rewrite !andb_false_r.
Qed.

Lemma run_tasks_queries schedule lines st :
  metadata_cache st !! T = None →
  let run := run_tasks schedule lines table_map st instance_id engine in
  let n := length (List.filter (on_schema_table T table_map) lines) in
  (count_fetches T (fetched st) + Nat.min 1 n ≤ count_fetches T (fetched run.2))%nat
  ∧ (count_fetches T (fetched run.2)
     ≤ count_fetches T (fetched st) + Nat.min max_workers n)%nat.
Proof.
  intros Hnone run n. subst run.
  destruct (run_tasks_pool table_map instance_id engine schedule lines st)
    as (schedule' & Htasks & Hshared). cbv zeta in *.
  destruct (run_tasks_sound table_map instance_id engine schedule lines st)
    as (_ & _ & Hstored).
  pose proof (pool_steps_ind table_map instance_id engine
    (λ p, pool_sound table_map instance_id engine lines st p
          ∧ queries_inv T table_map (count_fetches T (fetched st)) n p)) as Hind.
  destruct (Hind) with (schedule := schedule ++ schedule') (p := submit lines st)
    as [_ (_ & HN1 & _ & HN3 & HN4 & HL)].
  - intros p i line t t' st' [Hp Hq] Hi Hmay Hstep. split.
    + by eapply pool_sound_step.
    + by eapply queries_step.
  - split; [apply pool_sound_submit | by apply queries_submit].
  - rewrite Htasks, Hshared in *.
    destruct (queries_finished
                (run_tasks schedule lines table_map st instance_id engine).1)
      as [Hm Hf].
    rewrite ?Hm, ?Hf, ?pending_finished in *.
    split; [|lia].
    destruct (List.filter (on_schema_table T table_map) lines) as [|line ls] eqn:Hls.
    { subst n. simpl. lia. }
    assert (Hin : line ∈ List.filter (on_schema_table T table_map) lines).
    { rewrite Hls. by left. }
    apply list_elem_of_In, filter_In in Hin as [Hin%list_elem_of_In Hon].
    apply on_schema_table_resolves in Hon as (info & Hres & <-).
    specialize (HL (Hstored line info Hin Hres T_rows)).
    subst n. simpl length. lia.
Qed.

End Queries.

(** X7: how often the metadata of a schema table is queried for a file.
    When the cache holds nothing for the schema table [T] before the tasks
    and the query for [T] returns rows, then in every schedule of the pool
    [T] is queried at least once when a line resolves to it, and at most
    once per line and at most [max_workers] times: a task only queries
    when it found no frame in the cache, and the tasks that did so before
    the first of them stored the frame were all in progress then.  After
    the tasks the cache holds the frame, and every line of [T] got the
    result decoded with it. *)
Theorem metadata_queried_per_file schedule lines table_map instance_id engine T st :
  fetch_metadata_for_table engine T ≠ [] →
  metadata_cache st !! T = None →
  let run := run_tasks schedule lines table_map st instance_id engine in
  let n := length (List.filter (on_schema_table T table_map) lines) in
  (count_fetches T (fetched st) + Nat.min 1 n ≤ count_fetches T (fetched run.2))%nat
  ∧ (count_fetches T (fetched run.2)
     ≤ count_fetches T (fetched st) + Nat.min max_workers n)%nat
  ∧ ((0 < n)%nat →
     metadata_cache run.2 !! T = Some (fetch_metadata_for_table engine T))
  ∧ ∀ f info,
      f ∈ run.1 → resolves (submitted_line f) table_map = Some info →
      src_table info = T →
      result f
      = decoded (parsed_data info) (submitted_line f) instance_id
          (fetch_metadata_for_table engine T).
Proof.
  intros Hrows Hnone run n.
  destruct (run_tasks_queries table_map instance_id engine T Hrows schedule lines st
              Hnone) as [Hlow Hhigh].
  split; [done|]. split; [done|]. split.
  - intros Hn. subst run. rewrite run_tasks_cache, Hnone.
    assert (existsb (on_schema_table T table_map) lines = true) as ->.
    { subst n. destruct (List.filter _ lines) as [|line ls] eqn:Hls; [simpl in Hn; lia|].
      assert (Hin : In line (List.filter (on_schema_table T table_map) lines)).
      { rewrite Hls. by left. }
      apply filter_In in Hin as [Hin Hon].
      apply existsb_exists. by exists line. }
    by destruct (fetch_metadata_for_table engine T).
  - intros f info Hf Hres HT. subst run.
    destruct (run_tasks_sound table_map instance_id engine schedule lines st)
      as (Hrun & _). rewrite Hrun in Hf.
    apply list_elem_of_fmap in Hf as (line & -> & _).
    unfold future_from in *. simpl in *.
    rewrite (process_line_resolved _ _ _ _ _ _ Hres), HT, Hnone.
    by destruct (fetch_metadata_for_table engine T).
Qed.

Lemma metadata_queried_per_file_witness :
  let run := run_tasks in_turn two_table_lines two_table_registry
               no_workers_state "X" scenario_engine in
  let n := length (List.filter (on_schema_table "ABC_META" two_table_registry)
                     two_table_lines) in
  (count_fetches "ABC_META" (fetched no_workers_state) + Nat.min 1 n
   ≤ count_fetches "ABC_META" (fetched run.2))%nat
  ∧ (count_fetches "ABC_META" (fetched run.2)
     ≤ count_fetches "ABC_META" (fetched no_workers_state) + Nat.min max_workers n)%nat
  ∧ ((0 < n)%nat →
     metadata_cache run.2 !! "ABC_META"
     = Some (fetch_metadata_for_table scenario_engine "ABC_META"))
  ∧ ∀ f info,
      f ∈ run.1 → resolves (submitted_line f) two_table_registry = Some info →
      src_table info = "ABC_META" →
      result f
      = decoded (parsed_data info) (submitted_line f) "X"
          (fetch_metadata_for_table scenario_engine "ABC_META").
Proof.
  apply (metadata_queried_per_file in_turn two_table_lines two_table_registry "X"
           scenario_engine "ABC_META" no_workers_state).
  - discriminate.
  - reflexivity.
Defined.

(** When the two tasks of a file with two lines of ABC_META take their
    steps in turn, both find the cache empty and both run the query; when
    the first ends before the second starts, the second finds the frame
    in the cache. *)
Example metadata_queried_twice :
  fetched (run_tasks in_turn two_table_lines two_table_registry no_workers_state
             "X" scenario_engine).2 = ["ABC_META"; "ABC_META"]
  ∧ fetched (run_tasks one_by_one two_table_lines two_table_registry
               no_workers_state "X" scenario_engine).2 = ["ABC_META"].
Proof. split; vm_compute; reflexivity. Qed.

(** ** The two buckets *)

Lemma total_records_cons k rs d :
  total_records ((k, rs) :: d) = (length rs + total_records d)%nat.
Proof. done. Qed.

Lemma total_records_setdefault table record d :
  total_records (setdefault_append table record d) = S (total_records d).
Proof.
  induction d as [|[k rs] d IH]; [done|].
  cbn [setdefault_append]. destruct (decide (k = table)).
  - rewrite !total_records_cons, length_app. simpl. lia.
  - rewrite !total_records_cons, IH. lia.
Qed.

Lemma batch_setdefault t table record d :
  batch t (setdefault_append table record d)
  = if decide (table = t) then batch t d ++ [record] else batch t d.
Proof.
  induction d as [|[k rs] d IH]; simpl.
  - destruct (decide (table = t)); done.
  - destruct (decide (k = table)) as [->|Hk]; simpl.
    + destruct (decide (table = t)); done.
    + destruct (decide (k = t)) as [->|Hkt]; [|done].
      by destruct (decide (table = t)); [congruence|].
Qed.

Lemma collect_one_batch t b f :
  batch t (parsed_data_per_table (collect_one b f))
  = batch t (parsed_data_per_table b) ++ filed_records t f.
Proof.
  unfold filed_records, collect_one.
  destruct (result f) as [[[table r] l]|e]; simpl; [|by rewrite app_nil_r].
  destruct (truthy_str table && truthy_dict r); simpl.
  - rewrite batch_setdefault.
    destruct (decide (default "" table = t)); by rewrite ?app_nil_r.
  - destruct (truthy_str l); simpl; by rewrite app_nil_r.
Qed.

Lemma collect_from_batch t completed :
  ∀ b,
    batch t (parsed_data_per_table (collect_from b completed))
    = batch t (parsed_data_per_table b) ++ concat (filed_records t <$> completed).
Proof.
  unfold collect_from. induction completed as [|f completed IH]; intros b; simpl.
  - by rewrite app_nil_r.
  - by rewrite IH, collect_one_batch, app_assoc.
Qed.

Lemma concat_fmap_perm {A B} (g : A → list B) (l1 l2 : list A) :
  l1 ≡ₚ l2 → concat (g <$> l1) ≡ₚ concat (g <$> l2).
Proof.
  induction 1 as [|x l l' _ IH|x y l|l l' l'' _ IH1 _ IH2]; simpl.
  - done.
  - by rewrite IH.
  - rewrite !app_assoc. f_equiv. apply Permutation_app_comm.
  - by etrans.
Qed.

(** X8: the order in which the tasks complete only permutes what is
    collected: the not-inserted lines of two completion orders are
    permutations of each other, and so is the batch of every destination
    table. *)
Theorem collect_permutation completed1 completed2 :
  completed1 ≡ₚ completed2 →
  not_inserted_records (collect completed1)
    ≡ₚ not_inserted_records (collect completed2)
  ∧ ∀ table,
      batch table (parsed_data_per_table (collect completed1))
        ≡ₚ batch table (parsed_data_per_table (collect completed2)).
Proof.
  intros Hp. unfold collect. split.
  - rewrite (collect_from_split completed1 no_buckets).
    rewrite (collect_from_split completed2 no_buckets).
    simpl. by apply concat_fmap_perm.
  - intros table.
    rewrite (collect_from_batch table completed1 no_buckets).
    rewrite (collect_from_batch table completed2 no_buckets).
    simpl. by apply concat_fmap_perm.
Qed.

Lemma collect_permutation_witness :
  let fs := (run_tasks in_turn two_table_lines two_table_registry
               no_workers_state "X" xyz_fails_engine).1 in
  not_inserted_records (collect fs) ≡ₚ not_inserted_records (collect (reverse fs))
  ∧ ∀ table,
      batch table (parsed_data_per_table (collect fs))
        ≡ₚ batch table (parsed_data_per_table (collect (reverse fs))).
Proof.
  intros fs. apply (collect_permutation fs (reverse fs)).
  symmetry. apply reverse_Permutation.
Defined.

Lemma collect_one_count b f :
  (total_records (parsed_data_per_table (collect_one b f))
   + length (not_inserted_records (collect_one b f))
   = total_records (parsed_data_per_table b) + length (not_inserted_records b)
     + filed_count f)%nat.
Proof.
  unfold filed_count, filed_lines, collect_one.
  destruct (result f) as [[[table r] l]|e]; simpl.
  - destruct (truthy_str table && truthy_dict r); simpl.
    + rewrite total_records_setdefault. unfold total_records. simpl. lia.
    + destruct (truthy_str l); simpl; rewrite ?length_app; simpl;
        unfold total_records; simpl; lia.
  - rewrite length_app. unfold total_records. simpl. lia.
Qed.

Lemma collect_from_count completed :
  ∀ b,
    (total_records (parsed_data_per_table (collect_from b completed))
     + length (not_inserted_records (collect_from b completed))
     = total_records (parsed_data_per_table b) + length (not_inserted_records b)
       + sum_list (filed_count <$> completed))%nat.
Proof.
  unfold collect_from. induction completed as [|f completed IH]; intros b.
  - simpl. lia.
  - cbn [fold_left]. rewrite IH, collect_one_count, fmap_cons.
    cbn [sum_list_with]. change (id (filed_count f)) with (filed_count f). lia.
Qed.

Lemma sum_list_ones {A} (g : A → nat) (l : list A) :
  Forall (λ x, g x = 1%nat) l → sum_list (g <$> l) = length l.
Proof.
  induction 1 as [|x l Hx _ IH]; [done|].
  rewrite fmap_cons. cbn [sum_list_with length]. rewrite IH.
  change (id (g x)) with (g x). by rewrite Hx.
Qed.

(** A line that is not empty, under a registry with no empty destination
    name, is filed exactly once. *)
Lemma decode_alone_filed_once line table_map instance_id engine :
  line ≠ "" →
  (∀ k info, table_map !! k = Some info → parsed_data info ≠ "") →
  filed_count
    {| submitted_line := line;
       result := decode_alone line table_map instance_id engine |}
  = 1%nat.
Proof.
  intros Hline Hdest.
  assert (Hni : filed_count {| submitted_line := line;
                               result := Returned (not_inserted line) |} = 1%nat).
  { unfold filed_count, filed_lines, collect_one. simpl.
    by destruct (String.eqb_spec line ""). }
  unfold decode_alone.
  destruct (resolves line table_map) as [info|] eqn:Hres.
  - rewrite (process_line_resolved _ _ _ _ _ _ Hres). simpl. rewrite lookup_empty.
    destruct (fetch_metadata_for_table engine (src_table info)) as [|r m] eqn:Hf;
      [done|]. cbn [fst].
    assert (Hd : parsed_data info ≠ "").
    { unfold resolves in Hres.
      destruct (table_map !! source_key line) as [i|] eqn:Hk; [|done].
      destruct (_ || _); [done|]. injection Hres as <-. by eapply Hdest. }
    unfold decoded. destruct (parse_line line (r :: m)) as [e|parsed_record]; [done|].
    unfold filed_count, filed_lines, collect_one. simpl.
    destruct (String.eqb_spec (parsed_data info) ""); [done|]. simpl.
    rewrite bool_decide_eq_false_2; [done|]. apply insert_non_empty.
  - by rewrite process_line_unresolved.
Qed.

(** X9: no line is lost or counted twice.  When no line of the file is
    the empty string and no registry entry has an empty destination name,
    the records of the per-table batches and the not-inserted lines add up
    to the number of lines of the file, in whatever schedule the tasks run
    and in whatever order they complete; a line whose decoding raises is
    counted once, among the not-inserted lines. *)
Theorem every_line_filed_once os file_name lines engine table_map schedule
    as_completed :
  (∀ futures, as_completed futures ≡ₚ futures) →
  Forall (λ line, line ≠ "") lines →
  (∀ k info, table_map !! k = Some info → parsed_data info ≠ "") →
  let b := decode_phase os file_name lines engine table_map schedule
             as_completed in
  (total_records (parsed_data_per_table b) + length (not_inserted_records b)
   = length lines)%nat.
Proof.
  intros Hperm Hlines Hdest b. subst b. unfold decode_phase, collect.
  rewrite collect_from_count. simpl.
  destruct (run_tasks_outcomes schedule lines table_map
              (normalize_base_name os file_name) engine no_workers_state
              (no_workers_coherent engine)) as [Hfs _].
  rewrite sum_list_ones.
  - by rewrite Hperm, Hfs, length_fmap.
  - rewrite Hperm, Hfs. apply Forall_fmap.
    eapply Forall_impl; [exact Hlines|]. intros line Hne. simpl.
    by apply decode_alone_filed_once.
Qed.

Lemma every_line_filed_once_witness :
  let b := decode_phase Posix "X.txt"
             ["ABC01    12345" +:+ newline; "ZZZ99    00000" +:+ newline]
             scenario_engine (scenario_registry "ABC34") one_by_one in_line_order in
  (total_records (parsed_data_per_table b) + length (not_inserted_records b)
   = length ["ABC01    12345" +:+ newline; "ZZZ99    00000" +:+ newline])%nat.
Proof.
  apply (every_line_filed_once Posix "X.txt"
           ["ABC01    12345" +:+ newline; "ZZZ99    00000" +:+ newline]
           scenario_engine (scenario_registry "ABC34") one_by_one in_line_order).
  - done.
  - repeat constructor; discriminate.
  - intros k info Hk. unfold scenario_registry in Hk.
    apply lookup_singleton_Some in Hk as [_ <-]. discriminate.
Defined.

Lemma setdefault_append_keys table record d :
  (setdefault_append table record d).*1
  = if bool_decide (table ∈ d.*1) then d.*1 else d.*1 ++ [table].
Proof.
  induction d as [|[k rs] d IH]; [done|].
  cbn [setdefault_append]. destruct (decide (k = table)) as [->|Hk].
  - rewrite bool_decide_eq_true_2; [done | by left].
  - rewrite !fmap_cons, IH. cbn [fst].
    destruct (bool_decide_reflect (table ∈ d.*1)) as [Hin|Hnin].
    + rewrite bool_decide_eq_true_2; [done | by right].
    + rewrite bool_decide_eq_false_2; [done|].
      intros [?|?]%elem_of_cons; [congruence | done].
Qed.

Lemma setdefault_append_elem table record d t rs :
  (t, rs) ∈ setdefault_append table record d →
  (t, rs) ∈ d
  ∨ (t = table ∧ (rs = [record] ∨ ∃ rs', (t, rs') ∈ d ∧ rs = rs' ++ [record])).
Proof.
  induction d as [|[k rs0] d IH]; cbn [setdefault_append].
  - intros [= -> ->]%list_elem_of_singleton. right. by eauto.
  - destruct (decide (k = table)) as [->|Hk].
    + intros [[= -> ->] | Hin]%elem_of_cons.
      * right. split; [done|]. right. exists rs0. split; [by left | done].
      * left. by right.
    + intros [[= -> ->] | Hin]%elem_of_cons; [left; by left|].
      destruct (IH Hin) as [? | (-> & [-> | (rs' & ? & ->)])].
      * left. by right.
      * right. by eauto.
      * right. split; [done|]. right. exists rs'. split; [by right | done].
Qed.

Lemma setdefault_append_wf table record d :
  table ≠ "" → record ≠ ∅ →
  batches_wf d → batches_wf (setdefault_append table record d).
Proof.
  intros Ht Hr [Hnd Hall]. split.
  - rewrite setdefault_append_keys.
    destruct (bool_decide_reflect (table ∈ d.*1)); [done|].
    apply NoDup_app. split; [done|]. split; [|apply NoDup_singleton].
    intros x Hx ->%list_elem_of_singleton. done.
  - intros t rs [Hin | (-> & [-> | (rs' & Hin & ->)])]%setdefault_append_elem.
    + by apply Hall.
    + split; [done|]. split; [done|]. by constructor.
    + destruct (Hall _ _ Hin) as (_ & _ & Hrs').
      split; [done|]. split; [by destruct rs'|].
      apply Forall_app. split; [done|]. by constructor.
Qed.

Lemma collect_one_wf b f :
  batches_wf (parsed_data_per_table b) →
  batches_wf (parsed_data_per_table (collect_one b f)).
Proof.
  intros Hwf. unfold collect_one.
  destruct (result f) as [[[table r] l]|e]; [|done].
  destruct (truthy_str table && truthy_dict r) eqn:Ht; [|by destruct (truthy_str l)].
  apply andb_true_iff in Ht as [Ht Hr]. cbn [parsed_data_per_table].
  apply setdefault_append_wf; [| |done].
  - destruct table as [t|]; [|done]. simpl in *.
    by destruct (String.eqb_spec t "").
  - destruct r as [r|]; [|done]. simpl in *.
    by destruct (bool_decide_reflect (r = ∅)).
Qed.

Lemma collect_wf completed :
  batches_wf (parsed_data_per_table (collect completed)).
Proof.
  unfold collect, collect_from.
  assert (H : ∀ b, batches_wf (parsed_data_per_table b) →
                   batches_wf (parsed_data_per_table (fold_left collect_one completed b))).
  { induction completed as [|f completed IH]; intros b Hb; [done|].
    simpl. by apply IH, collect_one_wf. }
  apply H. split; [constructor|]. intros t rs Hin. by apply elem_of_nil in Hin.
Qed.

(** X10: whatever the tasks return, the per-table dict that the
    collection loop builds names every destination table once, never
    under the empty name, and gives it a batch that is not empty and
    holds no empty record: the load inserts once into each table. *)
Theorem collect_batches_wf completed :
  batches_wf (parsed_data_per_table (collect completed)).
Proof. apply collect_wf. Qed.



(** ** The rows of a batch and the committed store *)

Lemma df_columns_dom parsed_data r :
  r ∈ parsed_data → dom r ⊆ df_columns parsed_data.
Proof.
  intros Hr. unfold df_columns. intros c Hc.
  apply elem_of_union_list. exists (dom r). split; [|done].
  apply list_elem_of_fmap. by exists r.
Qed.

(** X12: the rows handed to the bulk insert.  A batch of records becomes
    as many rows, in the same order; every row has exactly the columns of
    the union of the records' fields; a cell holds the record's value
    where the record has the field, and NaN where it does not. *)
Theorem df_records_rows parsed_data i r :
  parsed_data !! i = Some r →
  length (df_records parsed_data) = length parsed_data
  ∧ ∃ row,
      df_records parsed_data !! i = Some row
      ∧ dom row = df_columns parsed_data
      ∧ ∀ c, c ∈ df_columns parsed_data → row !! c = Some (r !! c).
Proof.
  intros Hi. unfold df_records. rewrite length_fmap. split; [done|].
  exists (df_row (df_columns parsed_data) r).
  rewrite list_lookup_fmap, Hi. split; [done|].
  assert (Hsub : dom r ⊆ df_columns parsed_data).
  { apply df_columns_dom. by eapply list_elem_of_lookup_2. }
  unfold df_row. split.
  - rewrite dom_union_L, dom_fmap_L, dom_gset_to_gmap.
    by apply subseteq_union_1_L.
  - intros c Hc. destruct (r !! c) as [v|] eqn:Hv.
    + apply lookup_union_Some_l. by rewrite lookup_fmap, Hv.
    + rewrite lookup_union_r by (by rewrite lookup_fmap, Hv).
      by apply lookup_gset_to_gmap_Some.
Qed.

Lemma df_records_rows_witness :
  let batch_ :=
    [ ({[ "code" := "ABC"; "instance_id" := "X" ]} : gmap string string);
      {[ "amt" := "1"; "instance_id" := "X" ]} ] in
  let r := ({[ "amt" := "1"; "instance_id" := "X" ]} : gmap string string) in
  length (df_records batch_) = length batch_
  ∧ ∃ row,
      df_records batch_ !! 1%nat = Some row
      ∧ dom row = df_columns batch_
      ∧ ∀ c, c ∈ df_columns batch_ → row !! c = Some (r !! c).
Proof.
  intros batch_ r. apply (df_records_rows batch_ 1%nat r). reflexivity.
Defined.

Lemma batch_absent t d : t ∉ d.*1 → batch t d = [].
Proof.
  induction d as [|[k rs] d IH]; [done|]. rewrite fmap_cons. cbn [fst batch].
  intros [Hk Hd]%not_elem_of_cons.
  destruct (decide (k = t)); [congruence|]. by apply IH.
Qed.

Lemma fold_add_rows_lookup d :
  NoDup d.*1 →
  ∀ w t,
    default [] (fold_left (λ w '(t, rs), add_rows t (df_records rs) w) d w !! t)
    = default [] (w !! t) ++ df_records (batch t d).
Proof.
  induction d as [|[k rs] d IH]; intros Hnd w t.
  - simpl. by rewrite app_nil_r.
  - rewrite fmap_cons in Hnd. apply NoDup_cons in Hnd as [Hk Hnd].
    cbn [fold_left batch]. rewrite IH by done. unfold add_rows.
    destruct (decide (k = t)) as [->|Hne].
    + rewrite lookup_insert_eq. simpl. rewrite batch_absent by done.
      by rewrite app_nil_r.
    + by rewrite lookup_insert_ne.
Qed.

Lemma insert_batches_all_events engine batches :
  (∀ t rs, (t, rs) ∈ batches → insert_error engine t (df_records rs) = None) →
  ∀ conn,
    events (insert_batches engine conn batches).1
    = events conn ++ (insert_event <$> batches).
Proof.
  induction batches as [|[t rs] batches IH]; intros Hok conn; simpl.
  - by rewrite app_nil_r.
  - unfold insert_parsed_data. rewrite (Hok t rs) by left.
    rewrite IH by (intros t' rs' Hin; apply Hok; right; exact Hin).
    simpl. unfold insert_event at 2, df_records. simpl.
    by rewrite <- app_assoc, length_fmap.
Qed.

(** X13: the successful load.  When every line is decoded, the
    connection opens and no insert raises, [process_file] returns no
    failure and writes no file; one transaction is begun, with one insert
    per destination table in the order the tables were first seen, and
    committed; after it every table holds the rows it held before followed
    by the rows of its batch, and the other tables are as before. *)
Theorem successful_load os file_name lines engine table_map schedule as_completed conn :
  let b := decode_phase os file_name lines engine table_map schedule as_completed in
  not_inserted_records b = [] →
  connect_error engine = None →
  (∀ t rs, (t, rs) ∈ parsed_data_per_table b →
           insert_error engine t (df_records rs) = None) →
  let r := process_file os file_name (inr lines) engine table_map
        schedule as_completed conn in
  failed_records r = []
  ∧ files_written r = []
  ∧ working (conn_after r) = None
  ∧ events (conn_after r)
    = events conn ++ [EvBegin] ++ (insert_event <$> parsed_data_per_table b)
      ++ [EvCommit]
  ∧ ∀ t, default [] (committed (conn_after r) !! t)
         = default [] (committed conn !! t)
           ++ df_records (batch t (parsed_data_per_table b)).
Proof.
  intros b Hni Hconn Hok r. subst r.
  rewrite process_file_loaded by done. cbv zeta. cbn [failed_records files_written conn_after].
  fold b.
  destruct (load_commits engine conn (parsed_data_per_table b) Hok) as (Hf & Hc & Hw).
  split; [done|]. split; [done|]. split; [done|]. split.
  - unfold load.
    pose proof (insert_batches_all_events engine (parsed_data_per_table b) Hok
                  (conn_begin conn)) as Hev.
    destruct (insert_batches_succeeds engine (parsed_data_per_table b) Hok
                (conn_begin conn)) as [Hres _].
    destruct (insert_batches engine (conn_begin conn) (parsed_data_per_table b))
      as [conn' res]. simpl in *. subst res. simpl.
    rewrite Hev. by rewrite <- !app_assoc.
  - intros t. rewrite Hc. apply fold_add_rows_lookup.
    apply (collect_wf _).
Qed.

Lemma successful_load_witness :
  let b := decode_phase Posix "X.txt" two_table_lines scenario_engine
             two_table_registry in_turn in_line_order in
  let r := process_file Posix "X.txt" (inr two_table_lines) scenario_engine
             two_table_registry in_turn in_line_order empty_conn in
  failed_records r = []
  ∧ files_written r = []
  ∧ working (conn_after r) = None
  ∧ events (conn_after r)
    = events empty_conn ++ [EvBegin] ++ (insert_event <$> parsed_data_per_table b)
      ++ [EvCommit]
  ∧ ∀ t, default [] (committed (conn_after r) !! t)
         = default [] (committed empty_conn !! t)
           ++ df_records (batch t (parsed_data_per_table b)).
Proof.
  apply (successful_load Posix "X.txt" two_table_lines scenario_engine
           two_table_registry in_turn in_line_order empty_conn).
  - vm_compute. reflexivity.
  - reflexivity.
  - reflexivity.
Defined.

(** ** What process_file reports *)

Lemma insert_batches_none engine batches :
  ∀ conn,
    (insert_batches engine conn batches).2 = None →
    ∀ t rs, (t, rs) ∈ batches → insert_error engine t (df_records rs) = None.
Proof.
  induction batches as [|[k rs0] batches IH]; intros conn Hres t rs Hin.
  - by apply elem_of_nil in Hin.
  - simpl in Hres. unfold insert_parsed_data in Hres.
    destruct (insert_error engine k (df_records rs0)) as [e|] eqn:He; [done|].
    apply elem_of_cons in Hin as [[= -> ->] | Hin]; [done|].
    by eapply IH.
Qed.

Lemma load_result engine conn batches :
  (length (load engine conn batches).2 ≤ 1)%nat
  ∧ ((load engine conn batches).2 = [] ↔
     ∀ t rs, (t, rs) ∈ batches → insert_error engine t (df_records rs) = None).
Proof.
  unfold load.
  pose proof (insert_batches_none engine batches (conn_begin conn)) as Hnone.
  destruct (insert_batches engine (conn_begin conn) batches) as [conn' [e|]] eqn:Hb;
    simpl in *.
  - split; [lia|]. split; [done|]. intros Hok.
    destruct (insert_batches_succeeds engine batches Hok (conn_begin conn)) as [Hres _].
    by rewrite Hb in Hres.
  - split; [lia|]. split; [|done]. intros _. by apply Hnone.
Qed.

(** X14: what [process_file] returns and leaves.  It returns at most one
    failure.  It returns none exactly when the file could be read, every
    line was filed in a batch, the connection opened and no insert raised.
    When it writes a diagnostic file the connection is as it was before
    the file, and the last file written is the failed-insert log with one
    line, for the one failure returned. *)
Theorem process_file_report os file_name content engine table_map
      schedule as_completed conn :
  let r := process_file os file_name content engine table_map
        schedule as_completed conn in
  (length (failed_records r) ≤ 1)%nat
  ∧ (failed_records r = [] ↔
     ∃ lines,
       content = inr lines
       ∧ not_inserted_records
           (decode_phase os file_name lines engine table_map schedule as_completed) = []
       ∧ connect_error engine = None
       ∧ ∀ t rs,
           (t, rs) ∈ parsed_data_per_table
                       (decode_phase os file_name lines engine table_map
                             schedule as_completed) →
           insert_error engine t (df_records rs) = None)
  ∧ (files_written r ≠ [] →
     conn_after r = conn
     ∧ ∃ e, failed_records r = [(None, e)]
            ∧ last (files_written r)
              = Some (failed_insert_log (normalize_base_name os file_name)
                        [(None, e)])).
Proof.
  intros r. subst r. unfold process_file.
  destruct content as [e|lines].
  { simpl. split; [lia|]. split.
    - split; [done|]. by intros (? & ? & _).
    - intros _. split; [done|]. by exists e. }
  destruct (not_inserted_records
              (decode_phase os file_name lines engine table_map schedule as_completed))
    as [|l ls] eqn:Hni.
  - destruct (connect_error engine) as [e|] eqn:Hconn.
    + simpl. split; [lia|]. split.
      * split; [done|]. intros (lines' & [= <-] & _ & ? & _). done.
      * intros _. split; [done|]. by exists e.
    + destruct (load_result engine conn
                  (parsed_data_per_table
                     (decode_phase os file_name lines engine table_map
                           schedule as_completed)))
        as [Hlen Hiff].
      destruct (load engine conn _) as [conn' failed]. simpl in *.
      split; [done|]. split; [|done].
      rewrite Hiff. split.
      * intros Hok. exists lines. by rewrite Hni.
      * intros (lines' & [= <-] & _ & _ & Hok). done.
  - cbn [on_exception failed_records files_written conn_after app].
    split; [simpl; lia|]. split.
    + split; [done|]. intros (lines' & [= <-] & Hnil & _). by rewrite Hni in Hnil.
    + intros _. split; [done|]. exists gate_error. split; [done|].
      reflexivity.
Qed.




(** In the file of the witness the first line is decoded, the key of the
    second does not resolve, and the third raises in [parse_line]. *)
Example not_inserted_lines_ex :
  let engine :=
    {| metadata_rows := λ t,
         if String.eqb t "ABC_META" then Some scenario_metadata
         else Some infinite_offset_metadata;
       connect_error := None;
       insert_error := λ _ _, None |} in
  not_inserted_records
    (decode_phase Posix "X.txt"
       [ "ABC01    12345" +:+ newline; "ZZZ99    00000" +:+ newline;
         "XYZ01    67890" +:+ newline ]
       engine mixed_registry in_turn in_line_order)
  = [ "ZZZ99    00000" +:+ newline; "XYZ01    67890" +:+ newline ].
Proof. vm_compute. reflexivity. Qed.

(** ** Reading the lines of a file *)

Lemma str_nil_app l : PyStr.str l +:+ "" = PyStr.str l.
Proof. by rewrite <- (app_nil_r l) at 2; rewrite str_app. Qed.

Lemma split_lines_concat l :
  ∀ cur, concat_strings (split_lines cur l) = PyStr.str (reverse cur ++ l).
Proof.
  induction l as [|c l IH]; intros cur; simpl.
  - destruct cur as [|x cur]; [done|]. simpl. rewrite app_nil_r. apply str_nil_app.
  - destruct (Ascii.eqb c lf).
    + simpl. rewrite IH, reverse_cons. simpl.
      by rewrite <- str_app, <- app_assoc.
    + rewrite IH, reverse_cons. by rewrite <- app_assoc.
Qed.

Lemma str_nonempty l : l ≠ [] → PyStr.str l ≠ "".
Proof. by destruct l. Qed.

Lemma split_lines_shape l :
  ∀ cur,
    lf ∉ cur →
    Forall (λ line, (line ≠ "")
                    ∧ ∃ body, (lf ∉ body)
                              ∧ (PyStr.chars line = body ++ [lf]
                                 ∨ PyStr.chars line = body))
           (split_lines cur l).
Proof.
  induction l as [|c l IH]; intros cur Hcur; simpl.
  - destruct cur as [|x cur]; [constructor|]. constructor; [|constructor]. split.
    + apply str_nonempty. rewrite reverse_cons. by destruct (reverse cur).
    + exists (reverse (x :: cur)). split; [by rewrite elem_of_reverse|].
      right. apply chars_str.
  - destruct (Ascii.eqb_spec c lf) as [->|Hc].
    + constructor; [|apply IH; by apply not_elem_of_nil]. split.
      * apply str_nonempty. rewrite reverse_cons. by destruct (reverse cur).
      * exists (reverse cur). split; [by rewrite elem_of_reverse|].
        left. by rewrite chars_str, reverse_cons.
    + apply IH. by intros [?|?]%elem_of_cons.
Qed.

Lemma translate_newlines_id l : cr ∉ l → translate_newlines l = l.
Proof.
  induction l as [|c l IH]; [done|]. intros [Hc Hl]%not_elem_of_cons. simpl.
  destruct (Ascii.eqb_spec c cr); [congruence|]. by rewrite IH.
Qed.

(** X16: the lines that the iteration over a file yields.  Put one
    after the other they give back the text, with every carriage return
    (and a line feed that follows it) read as a line feed, and the text
    itself when it holds no carriage return; no line is empty, and a line
    holds no line feed except as its last character. *)
Theorem readlines_lines text :
  concat_strings (readlines text)
    = PyStr.str (translate_newlines (PyStr.chars text))
  ∧ (cr ∉ PyStr.chars text → concat_strings (readlines text) = text)
  ∧ Forall (λ line, (line ≠ "")
                    ∧ ∃ body, (lf ∉ body)
                              ∧ (PyStr.chars line = body ++ [lf]
                                 ∨ PyStr.chars line = body))
           (readlines text).
Proof.
  unfold readlines. split; [|split].
  - by rewrite split_lines_concat.
  - intros Hcr. rewrite split_lines_concat, translate_newlines_id by done.
    apply str_chars.
  - apply split_lines_shape, not_elem_of_nil.
Qed.

Example readlines_ex :
  readlines (String "A" (String cr (String lf (String "B" (String cr (String "C" ""))))))
  = [String "A" (String lf ""); String "B" (String lf ""); "C"].
Proof. reflexivity. Qed.

(** ** The sweep over the source folder *)

Lemma insert_batches_result_conn engine batches :
  ∀ conn1 conn2,
    (insert_batches engine conn1 batches).2 = (insert_batches engine conn2 batches).2.
Proof.
  induction batches as [|[t rs] batches IH]; intros conn1 conn2; simpl; [done|].
  unfold insert_parsed_data.
  destruct (insert_error engine t (df_records rs)); [done|]. apply IH.
Qed.

Lemma load_result_conn engine batches conn1 conn2 :
  (load engine conn1 batches).2 = (load engine conn2 batches).2.
Proof.
  unfold load.
  pose proof (insert_batches_result_conn engine batches
                (conn_begin conn1) (conn_begin conn2)) as H.
  destruct (insert_batches engine (conn_begin conn1) batches) as [c1 r1].
  destruct (insert_batches engine (conn_begin conn2) batches) as [c2 r2].
  simpl in H. subst r2. by destruct r1.
Qed.

(** What [process_file] returns and writes does not depend on the
    connection it is given. *)
Lemma process_file_conn os file_name content engine table_map schedule as_completed
    conn1 conn2 :
  failed_records
    (process_file os file_name content engine table_map schedule as_completed conn1)
  = failed_records
      (process_file os file_name content engine table_map schedule as_completed conn2)
  ∧ files_written
      (process_file os file_name content engine table_map schedule as_completed conn1)
    = files_written
        (process_file os file_name content engine table_map
              schedule as_completed conn2).
Proof.
  unfold process_file. destruct content as [e|lines]; [done|].
  destruct (not_inserted_records _); [|done].
  destruct (connect_error engine); [done|].
  pose proof (load_result_conn engine
                (parsed_data_per_table
                   (decode_phase os file_name lines engine table_map
                         schedule as_completed))
                conn1 conn2) as H.
  destruct (load engine conn1 _) as [c1 f1], (load engine conn2 _) as [c2 f2].
  simpl in *. by subst.
Qed.

Lemma process_file_no_failure_no_file os file_name content engine table_map schedule
    as_completed conn :
  failed_records
    (process_file os file_name content engine table_map
          schedule as_completed conn) = [] →
  files_written
    (process_file os file_name content engine table_map
          schedule as_completed conn) = [].
Proof.
  unfold process_file. destruct content as [e|lines]; [done|].
  destruct (not_inserted_records _); [|done].
  destruct (connect_error engine); [done|].
  by destruct (load engine conn _).
Qed.

Lemma write_files_keeps written :
  ∀ files name, is_Some (files !! name) → is_Some (write_files written files !! name).
Proof.
  unfold write_files.
  induction written as [|[n chunks] written IH]; intros files name Hn; simpl; [done|].
  apply IH. destruct (decide (n = name)) as [->|Hne].
  - rewrite lookup_insert_eq. by eexists.
  - by rewrite lookup_insert_ne.
Qed.

Lemma sweep_stopped os engine table_map schedule as_completed listing :
  ∀ s, is_Some (stopped s) →
       fold_left (sweep_step os engine table_map schedule as_completed) listing s = s.
Proof.
  induction listing as [|name listing IH]; intros s Hs; simpl; [done|].
  assert (sweep_step os engine table_map schedule as_completed s name = s) as ->.
  { unfold sweep_step. by destruct Hs as [e ->]. }
  by apply IH.
Qed.

(** A file that is processed without failure is moved. *)
Lemma sweep_step_success os engine table_map schedule as_completed s name data :
  stopped s = None →
  source_files (disk s) !! name = Some data →
  file_succeeds os engine table_map schedule as_completed name data →
  (os = Posix ∨ processed_successfully (disk s) !! name = None) →
  let s' := sweep_step os engine table_map schedule as_completed s name in
  stopped s' = None
  ∧ source_files (disk s') = delete name (source_files (disk s))
  ∧ processed_successfully (disk s')
    = <[name := data]> (processed_successfully (disk s)).
Proof.
  intros Hrun Hfile Hok Hfree s'. subst s'. unfold sweep_step.
  rewrite Hrun, Hfile. unfold file_succeeds in Hok.
  destruct (process_file_conn os name (read_file data) engine table_map
              (schedule name) as_completed (db s) empty_conn) as [Hf _].
  rewrite Hok in Hf.
  pose proof (process_file_no_failure_no_file _ _ _ _ _ _ _ _ Hf) as Hw.
  rewrite Hf, Hw. unfold rename_to_success. cbn [write_files fold_left
    source_files processed_successfully].
  destruct Hfree as [-> | ->]; [done|]. by destruct os.
Qed.

Lemma sweep_all_moved os engine table_map schedule as_completed listing :
  ∀ s0,
    stopped s0 = None →
    (∀ name data,
        name ∈ listing → source_files (disk s0) !! name = Some data →
        file_succeeds os engine table_map schedule as_completed name data
        ∧ (os = Posix ∨ processed_successfully (disk s0) !! name = None)) →
    let s := fold_left (sweep_step os engine table_map
          schedule as_completed) listing s0 in
    stopped s = None
    ∧ (∀ name, name ∈ listing → source_files (disk s) !! name = None)
    ∧ (∀ name data,
          name ∈ listing → source_files (disk s0) !! name = Some data →
          processed_successfully (disk s) !! name = Some data)
    ∧ (∀ name,
          name ∉ listing ∨ source_files (disk s0) !! name = None →
          source_files (disk s) !! name = source_files (disk s0) !! name
          ∧ processed_successfully (disk s) !! name
            = processed_successfully (disk s0) !! name).
Proof.
  induction listing as [|name rest IH]; intros s0 Hrun Hok.
  { simpl. repeat split; try done.
    - intros n Hn. by apply elem_of_nil in Hn.
    - intros n d Hn. by apply elem_of_nil in Hn. }
  cbn [fold_left]. cbv zeta.
  destruct (source_files (disk s0) !! name) as [data|] eqn:Hfile.
  - (* a regular file: processed and moved *)
    destruct (Hok name data (list_elem_of_here _ _) Hfile) as [Hsucc Hfree].
    destruct (sweep_step_success os engine table_map schedule as_completed s0 name data
                Hrun Hfile Hsucc Hfree) as (Hrun1 & Hsrc1 & Hdst1).
    set (s1 := sweep_step os engine table_map schedule as_completed s0 name) in *.
    assert (Hok1 : ∀ n d, n ∈ rest → source_files (disk s1) !! n = Some d →
              file_succeeds os engine table_map schedule as_completed n d
              ∧ (os = Posix ∨ processed_successfully (disk s1) !! n = None)).
    { intros n d Hn Hd. rewrite Hsrc1 in Hd.
      apply lookup_delete_Some in Hd as [Hne Hd].
      destruct (Hok n d (list_elem_of_further _ _ _ Hn) Hd) as [? Hf].
      split; [done|]. destruct Hf as [?|Hf]; [by left|right].
      by rewrite Hdst1, lookup_insert_ne. }
    destruct (IH s1 Hrun1 Hok1) as (H1 & H2 & H3 & H4).
    assert (Hgone : source_files (disk s1) !! name = None)
      by (rewrite Hsrc1; apply lookup_delete_eq).
    split; [done|]. split; [|split].
    + intros n [-> | Hn]%elem_of_cons; [|by apply H2].
      destruct (H4 name (or_intror Hgone)) as [-> _]. done.
    + intros n d Hn Hd. destruct (decide (n = name)) as [->|Hne].
      * destruct (H4 name (or_intror Hgone)) as [_ ->].
        rewrite Hdst1, lookup_insert_eq. congruence.
      * apply H3.
        -- apply elem_of_cons in Hn as [?|?]; done.
        -- by rewrite Hsrc1, lookup_delete_ne.
    + intros n Hn. assert (Hne : n ≠ name).
      { intros ->. destruct Hn as [Hn|Hn]; [|congruence].
        apply Hn. by left. }
      assert (Hn1 : n ∉ rest ∨ source_files (disk s1) !! n = None).
      { destruct Hn as [Hn|Hn]; [left|right].
        - intros ?. apply Hn. by right.
        - by rewrite Hsrc1, lookup_delete_ne. }
      destruct (H4 n Hn1) as [-> ->].
      by rewrite Hsrc1, Hdst1, lookup_delete_ne, lookup_insert_ne.
  - (* not a regular file: skipped *)
    assert (Hskip : sweep_step os engine table_map schedule as_completed s0 name = s0).
    { unfold sweep_step. by rewrite Hrun, Hfile. }
    rewrite Hskip.
    destruct (IH s0 Hrun (λ n d Hn, Hok n d (list_elem_of_further _ _ _ Hn)))
      as (H1 & H2 & H3 & H4).
    split; [done|]. split; [|split].
    + intros n [-> | Hn]%elem_of_cons; [|by apply H2].
      destruct (H4 name (or_intror Hfile)) as [-> _]. done.
    + intros n d [-> | Hn]%elem_of_cons Hd; [congruence|]. by apply H3.
    + intros n Hn. apply H4. destruct Hn as [Hn|Hn]; [left|by right].
      intros ?. apply Hn. by right.
Qed.

(** X17: a sweep without failure.  When every regular file among the
    listed entries is processed without failure (and, on Windows, no file
    of its name is in Processed Successfully yet), the sweep runs to the
    end: every such file is moved to Processed Successfully with its
    content, no listed entry is left as a file in the source folder, and
    the entries that are not listed or are not regular files are left
    where they are. *)
Theorem sweep_without_failure os engine table_map schedule as_completed listing d conn :
  (∀ name data,
      name ∈ listing → source_files d !! name = Some data →
      file_succeeds os engine table_map schedule as_completed name data
      ∧ (os = Posix ∨ processed_successfully d !! name = None)) →
  let s := process_files_in_directory os engine table_map schedule as_completed None
             listing d conn in
  stopped s = None
  ∧ (∀ name, name ∈ listing → source_files (disk s) !! name = None)
  ∧ (∀ name data,
        name ∈ listing → source_files d !! name = Some data →
        processed_successfully (disk s) !! name = Some data)
  ∧ (∀ name,
        name ∉ listing ∨ source_files d !! name = None →
        source_files (disk s) !! name = source_files d !! name
        ∧ processed_successfully (disk s) !! name = processed_successfully d !! name).
Proof.
  intros Hok. unfold process_files_in_directory.
  by apply (sweep_all_moved os engine table_map schedule as_completed listing
              {| disk := d; db := conn; stopped := None; handled := [] |}).
Qed.

Lemma sweep_without_failure_witness :
  let s := process_files_in_directory Posix scenario_engine
             (scenario_registry "ABC34") (λ _, one_by_one) in_line_order None
             ["Failed"; "X.txt"] one_file_disk empty_conn in
  stopped s = None
  ∧ (∀ name, name ∈ ["Failed"; "X.txt"] → source_files (disk s) !! name = None)
  ∧ (∀ name data,
        name ∈ ["Failed"; "X.txt"] →
        source_files one_file_disk !! name = Some data →
        processed_successfully (disk s) !! name = Some data)
  ∧ (∀ name,
        name ∉ ["Failed"; "X.txt"] ∨ source_files one_file_disk !! name = None →
        source_files (disk s) !! name = source_files one_file_disk !! name
        ∧ processed_successfully (disk s) !! name
          = processed_successfully one_file_disk !! name).
Proof.
  apply (sweep_without_failure Posix scenario_engine (scenario_registry "ABC34")
           (λ _, one_by_one) in_line_order ["Failed"; "X.txt"] one_file_disk empty_conn).
  intros name data Hin Hdata. split; [|by left].
  simpl in Hdata. apply lookup_singleton_Some in Hdata as [<- <-].
  vm_compute. reflexivity.
Defined.

(** X18: the first failure ends the sweep.  When the sweep reaches a
    regular file whose processing returns a failure, the statement that
    follows raises ([any] of a bool), and the handler around the loop ends
    the sweep: the file is still in the source folder, with the diagnostic
    files written next to it, nothing is moved for it, and the entries
    listed after it are not processed, whatever they are. *)
Theorem sweep_stops_at_failure os engine table_map schedule as_completed before
    name after d conn data :
  let s0 := process_files_in_directory os engine table_map schedule as_completed
              None before d conn in
  stopped s0 = None →
  source_files (disk s0) !! name = Some data →
  ¬ file_succeeds os engine table_map schedule as_completed name data →
  let s := process_files_in_directory os engine table_map schedule as_completed
             None (before ++ name :: after) d conn in
  let r := process_file os name (read_file data) engine table_map
             (schedule name) as_completed (db s0) in
  stopped s = Some bool_not_iterable
  ∧ handled s = handled s0 ++ [name]
  ∧ processed_successfully (disk s) = processed_successfully (disk s0)
  ∧ source_files (disk s) = write_files (files_written r) (source_files (disk s0))
  ∧ is_Some (source_files (disk s) !! name)
  ∧ db s = conn_after r
  ∧ s = process_files_in_directory os engine table_map schedule as_completed
          None (before ++ [name]) d conn.
Proof.
  intros s0 Hrun Hfile Hfail s r. subst s.
  unfold process_files_in_directory in *. rewrite !fold_left_app. fold s0.
  cbn [fold_left].
  assert (Hstep : sweep_step os engine table_map schedule as_completed s0 name
                  = {| disk := {| source_files :=
                                    write_files (files_written r)
                                      (source_files (disk s0));
                                  processed_successfully :=
                                    processed_successfully (disk s0) |};
                       db := conn_after r;
                       stopped := Some bool_not_iterable;
                       handled := handled s0 ++ [name] |}).
  { unfold sweep_step. rewrite Hrun, Hfile. fold r.
    destruct (failed_records r) as [|f fs] eqn:Hf; [|done].
    exfalso. apply Hfail. unfold file_succeeds.
    destruct (process_file_conn os name (read_file data) engine table_map
                (schedule name) as_completed (db s0) empty_conn) as [Heq _].
    fold r in Heq. by rewrite <- Heq. }
  rewrite Hstep, sweep_stopped by (by eexists). cbn.
  repeat split; try done.
  apply write_files_keeps. by eexists.
Qed.

Lemma sweep_stops_at_failure_witness :
  let s0 := process_files_in_directory Posix scenario_engine
              (scenario_registry "ABC34") (λ _, one_by_one) in_line_order None
              [] bad_then_good_disk empty_conn in
  let s := process_files_in_directory Posix scenario_engine
             (scenario_registry "ABC34") (λ _, one_by_one) in_line_order None
             ([] ++ "A.txt" :: ["X.txt"]) bad_then_good_disk empty_conn in
  let r := process_file Posix "A.txt"
             (read_file (Text ("ZZZ99    00000" +:+ newline))) scenario_engine
             (scenario_registry "ABC34") one_by_one in_line_order (db s0) in
  stopped s = Some bool_not_iterable
  ∧ handled s = handled s0 ++ ["A.txt"]
  ∧ processed_successfully (disk s) = processed_successfully (disk s0)
  ∧ source_files (disk s) = write_files (files_written r) (source_files (disk s0))
  ∧ is_Some (source_files (disk s) !! "A.txt")
  ∧ db s = conn_after r
  ∧ s = process_files_in_directory Posix scenario_engine
          (scenario_registry "ABC34") (λ _, one_by_one) in_line_order None
          ([] ++ ["A.txt"]) bad_then_good_disk empty_conn.
Proof.
  apply (sweep_stops_at_failure Posix scenario_engine (scenario_registry "ABC34")
           (λ _, one_by_one) in_line_order [] "A.txt" ["X.txt"]
           bad_then_good_disk empty_conn (Text ("ZZZ99    00000" +:+ newline))).
  - reflexivity.
  - vm_compute. reflexivity.
  - unfold file_succeeds. vm_compute. discriminate.
Defined.

(** ** The registry *)

Lemma registry_entries_keys rows :
  (registry_entry <$> rows).*1 = (λ row, row.1.1) <$> rows.
Proof. rewrite <- list_fmap_compose. by apply list_fmap_ext. Qed.

(** X19: the registry that [table_mapping] builds.  When the rows of the
    registry have pairwise distinct src_id, a line is identified with the
    two table names of the row whose src_id is the key of the line, and
    with the Unknown Table pair when there is no such row; when two rows
    share a src_id, [table_mapping] raises. *)
Theorem table_mapping_identifies rows :
  (NoDup ((λ row, row.1.1) <$> rows) →
   ∃ table_map,
     table_mapping rows = inr table_map
     ∧ ∀ line,
         (∀ t p, (source_key line, t, p) ∈ rows →
                 identify_table line table_map
                 = {| src_table := t; parsed_data := p |})
         ∧ ((∀ t p, (source_key line, t, p) ∉ rows) →
            identify_table line table_map
            = {| src_table := unknown_table; parsed_data := unknown_table |}))
  ∧ (¬ NoDup ((λ row, row.1.1) <$> rows) →
     table_mapping rows = inl index_not_unique).
Proof.
  unfold table_mapping. split.
  - intros Hnd. rewrite bool_decide_eq_true_2 by done.
    eexists. split; [done|]. intros line. unfold identify_table. split.
    + intros t p Hin.
      erewrite (elem_of_list_to_map_1 _ (source_key line)); [done| |].
      * by rewrite registry_entries_keys.
      * apply list_elem_of_fmap. by exists (source_key line, t, p).
    + intros Hnone.
      rewrite (not_elem_of_list_to_map_1 _ (source_key line)); [done|].
      rewrite registry_entries_keys. intros Hin.
      apply list_elem_of_fmap in Hin as ([[k t] p] & Hk & Hin). simpl in Hk.
      subst k. by apply (Hnone t p).
  - intros Hdup. by rewrite bool_decide_eq_false_2.
Qed.

(** ** The manifest *)

(** X20: round trip of the manifest.  Whatever the order in which the
    sets are written as lists, loading the manifest that was saved gives
    the manifest back; and with no manifest file the manifest is empty. *)
Theorem manifest_round_trip order manifest :
  (∀ paths, order paths ≡ₚ elements paths) →
  load_manifest (save_manifest order manifest) = manifest.
Proof.
  intros Horder. unfold load_manifest, save_manifest.
  rewrite <- map_fmap_compose. apply map_eq. intros root.
  rewrite lookup_fmap. destruct (manifest !! root) as [paths|]; [|done].
  simpl. f_equal. apply set_eq. intros x.
  by rewrite elem_of_list_to_set, Horder, elem_of_elements.
Qed.

Lemma manifest_round_trip_witness :
  load_manifest
    (save_manifest (λ paths, reverse (elements paths))
       {[ "HOT" := ({[ "a.zip"; "sub/b.txt" ]} : gset string) ]})
  = {[ "HOT" := ({[ "a.zip"; "sub/b.txt" ]} : gset string) ]}.
Proof.
  apply (manifest_round_trip (λ paths, reverse (elements paths))).
  intros paths. apply reverse_Permutation.
Defined.

(** * Properties of the remote walk *)

Lemma RemoteNode_tree_ind (P : RemoteNode → Prop) :
  (∀ entries, Forall (λ e, P e.2) entries → P (RDir entries)) →
  (∀ e, P (RNoList e)) → P RLink → P RFile →
  ∀ node, P node.
Proof.
  intros Hdir Hno Hlink Hfile. fix IH 1. intros [entries|e| |]; [|done..].
  apply Hdir. induction entries as [|[name child] entries IHes]; constructor.
  - apply IH.
  - apply IHes.
Qed.

Lemma walk_remote_dir root entries :
  walk_remote root (RDir entries) = walk_entries root entries.
Proof.
  induction entries as [|[name child] entries IH]; [done|].
  simpl in *. by rewrite IH.
Qed.

Lemma walk_child_listable child :
  ∀ path, (walk_child path child).2 = None ↔ listable child = true.
Proof.
  induction child as [entries IH|e| |] using RemoteNode_tree_ind; intros path;
    [|done..].
  unfold walk_child. rewrite walk_remote_dir. cbn [listable].
  induction IH as [|[name child] entries Hchild _ IHes]; [done|].
  cbn [walk_entries forallb]. rewrite andb_true_iff, <- IHes.
  specialize (Hchild (posix_join path name)). simpl in Hchild.
  rewrite <- Hchild.
  destruct (walk_child (posix_join path name) child) as [ps [e|]]; simpl.
  - split; [done | by intros [? _]].
  - tauto.
Qed.

(** X21: [walk_remote] on a directory ends with an exception exactly
    when some directory of the tree, reached through directories, cannot
    be listed. *)
Theorem walk_remote_raises root entries :
  (walk_remote root (RDir entries)).2 = None ↔ listable (RDir entries) = true.
Proof. apply (walk_child_listable (RDir entries) root). Qed.

Lemma plain_name_inv name :
  plain_name name = true →
  PyStr.startswith name "/" = false
  ∧ ∃ c, last (PyStr.chars name) = Some c ∧ c ≠ "/"%char.
Proof.
  unfold plain_name. intros [Hne Hall]%andb_true_iff.
  destruct name as [|c name]; [done|]. simpl in Hall.
  apply andb_true_iff in Hall as [Hc Hall]. split.
  - unfold PyStr.startswith.
    change (String.prefix "/" (String c name))
      with (if ascii_dec "/" c then String.prefix "" name else false).
    destruct (ascii_dec "/" c) as [<-|]; [|done].
    by rewrite Ascii.eqb_refl in Hc.
  - destruct (last (PyStr.chars (String c name))) as [x|] eqn:Hlast.
    + exists x. split; [done|]. apply last_Some_elem_of in Hlast.
      assert (Hx : negb (Ascii.eqb x "/") = true).
      { change (PyStr.chars (String c name)) with (c :: PyStr.chars name) in Hlast.
        apply elem_of_cons in Hlast as [-> | Hin]; [done|].
        rewrite forallb_forall in Hall. by apply Hall, list_elem_of_In. }
      intros ->. by rewrite Ascii.eqb_refl in Hx.
    + by apply last_None in Hlast.
Qed.

Lemma posix_join_plain path name :
  clean_root path = true → plain_name name = true →
  posix_join path name = path +:+ "/" +:+ name
  ∧ clean_root (path +:+ "/" +:+ name) = true.
Proof.
  unfold clean_root. intros [Hne Hend]%andb_true_iff Hname.
  destruct (plain_name_inv name Hname) as (Hstart & c & Hlast & Hc).
  split.
  - unfold posix_join. rewrite Hstart.
    apply negb_true_iff in Hne, Hend. by rewrite Hne, Hend.
  - apply andb_true_iff. split.
    + destruct path; [done|]. done.
    + unfold endswith_char. rewrite !chars_app, !last_app, Hlast.
      by destruct (Ascii.eqb_spec c "/").
Qed.

Lemma walk_child_yields child :
  ∀ path,
    clean_root path = true → listable child = true → plain_names child = true →
    walk_child path child
    = (match child with
       | RFile => [path]
       | RLink => []
       | RDir _ | RNoList _ => below path <$> file_names child
       end, None).
Proof.
  induction child as [entries IH|e| |] using RemoteNode_tree_ind;
    intros path Hroot Hlist Hplain; [|done..].
  unfold walk_child. rewrite walk_remote_dir.
  cbn [listable plain_names file_names] in *.
  induction IH as [|[name child] entries Hchild _ IHes]; [done|].
  cbn [forallb flat_map walk_entries fst snd] in *.
  apply andb_true_iff in Hlist as [Hl Hls].
  apply andb_true_iff in Hplain as [[Hn Hp]%andb_true_iff Hps].
  destruct (posix_join_plain path name Hroot Hn) as [-> Hroot'].
  rewrite (Hchild _ Hroot' Hl Hp), (IHes Hls Hps). cbn [fst snd].
  rewrite fmap_app. f_equal. f_equal.
  destruct child as [es|e| |]; [|done..].
  by rewrite <- list_fmap_compose.
Qed.

(** X22: what [walk_remote] yields.  On a tree in which every directory
    can be listed and the entries have file names (not empty, without a
    slash), from a root that is not empty and does not end with a slash,
    the walk raises nothing and yields, in listing order, one path for
    every file reached through directories: the root followed by a slash
    and a name for each step.  A symbolic link is not yielded and not
    followed. *)
Theorem walk_remote_yields root entries :
  clean_root root = true →
  listable (RDir entries) = true →
  plain_names (RDir entries) = true →
  walk_remote root (RDir entries)
  = (below root <$> file_names (RDir entries), None).
Proof.
  intros Hroot Hlist Hplain.
  apply (walk_child_yields (RDir entries) root Hroot Hlist Hplain).
Qed.

Lemma walk_remote_yields_witness :
  walk_remote "/data/HOT"
    (RDir [ ("a.zip", RFile); ("link", RLink);
            ("2024", RDir [ ("b.txt", RFile); ("empty", RDir []) ]) ])
  = (below "/data/HOT" <$>
       file_names
         (RDir [ ("a.zip", RFile); ("link", RLink);
                 ("2024", RDir [ ("b.txt", RFile); ("empty", RDir []) ]) ]),
     None).
Proof.
  apply (walk_remote_yields "/data/HOT"
           [ ("a.zip", RFile); ("link", RLink);
             ("2024", RDir [ ("b.txt", RFile); ("empty", RDir []) ]) ]);
    reflexivity.
Defined.

Example walk_remote_ex :
  walk_remote "/data/HOT"
    (RDir [ ("a.zip", RFile); ("link", RLink);
            ("2024", RDir [ ("b.txt", RFile); ("empty", RDir []) ]) ])
  = (["/data/HOT/a.zip"; "/data/HOT/2024/b.txt"], None).
Proof. reflexivity. Qed.

(** * Properties of the download loop *)

Section Download.

Variables relpath local_join : string → string → string.
Variable tr : Local.

Lemma fetch_file_raised remote_root local_root st f :
  is_Some (raised st) →
  fetch_file relpath local_join tr remote_root local_root st f = st.
Proof. intros [e He]. unfold fetch_file. by rewrite He. Qed.

Lemma fetch_file_spec remote_root local_root st f :
  raised st = None →
  let st' := fetch_file relpath local_join tr remote_root local_root st f in
  let rel := relpath f remote_root in
  processed st ⊆ processed st'
  ∧ (raised st' = None →
     transfer_ok tr f (local_join local_root rel) = true → rel ∈ processed st')
  ∧ (∀ d, d ∈ downloads st' →
          d ∈ downloads st ∨ (d = (local_root, rel) ∧ rel ∉ processed st)).
Proof.
  intros Hrun st' rel. subst st'. unfold fetch_file, transfer_ok. rewrite Hrun.
  fold rel.
  destruct (bool_decide_reflect (rel ∈ processed st)) as [Hin|Hnin].
  { split; [done|]. split; [done|]. by left. }
  destruct (makedirs_raises tr (local_join local_root rel)) as [e|]; cbn.
  { split; [done|]. split; [done|]. by left. }
  assert (Hlog : ∀ d, d ∈ downloads st ++ [(local_root, rel)] →
            d ∈ downloads st ∨ (d = (local_root, rel) ∧ rel ∉ processed st)).
  { intros d [? | ->%list_elem_of_singleton]%elem_of_app; [by left | by right]. }
  destruct (get_raises tr f) as [e|]; cbn.
  { split; [done|]. split; [done|]. done. }
  destruct (replace_raises tr (local_join local_root rel)) as [e|]; cbn.
  { split; [done|]. split; [done|]. done. }
  destruct (endswith (py_lower (local_join local_root rel)) ".zip"); cbn.
  - destruct (extract_zip tr (local_join local_root rel)).2 as [e|]; cbn.
    { split; [done|]. split; [done|]. done. }
    destruct (remove_raises tr (local_join local_root rel)) as [e|]; cbn.
    { split; [done|]. split; [done|]. done. }
    split; [set_solver|]. split; [set_solver|]. done.
  - split; [set_solver|]. split; [set_solver|]. done.
Qed.

Lemma fetch_files_raised remote_root local_root paths :
  ∀ st, is_Some (raised st) →
        fold_left (fetch_file relpath local_join tr remote_root local_root) paths st
        = st.
Proof.
  induction paths as [|f paths IH]; intros st Hst; [done|].
  simpl. rewrite fetch_file_raised by done. by apply IH.
Qed.

Lemma fetch_files_spec remote_root local_root paths :
  ∀ st,
    raised st = None →
    let st' := fold_left (fetch_file relpath local_join tr remote_root local_root)
                         paths st in
    processed st ⊆ processed st'
    ∧ (raised st' = None →
       ∀ f, f ∈ paths →
            transfer_ok tr f (local_join local_root (relpath f remote_root)) = true →
            relpath f remote_root ∈ processed st')
    ∧ (∀ d, d ∈ downloads st' →
            d ∈ downloads st ∨ ∃ rel, d = (local_root, rel) ∧ rel ∉ processed st).
Proof.
  induction paths as [|f paths IH]; intros st Hrun.
  { simpl. split; [done|]. split; [|by left].
    intros _ f Hf. by apply elem_of_nil in Hf. }
  cbn [fold_left]. cbv zeta.
  destruct (fetch_file_spec remote_root local_root st f Hrun) as (Hsub & Hok & Hlog).
  set (st1 := fetch_file relpath local_join tr remote_root local_root st f) in *.
  destruct (raised st1) as [e|] eqn:Hr1.
  - rewrite fetch_files_raised by (by eexists). rewrite Hr1.
    split; [done|]. split; [done|]. intros d Hd.
    destruct (Hlog d Hd) as [?|[-> ?]]; [by left|right]. by eexists.
  - destruct (IH st1 Hr1) as (Hsub' & Hok' & Hlog').
    split; [by etrans|]. split.
    + intros Hr f' [-> | Hin]%elem_of_cons Ht.
      * apply Hsub'. by apply Hok.
      * by apply Hok'.
    + intros d Hd. destruct (Hlog' d Hd) as [Hd1 | (rel & -> & Hrel)].
      * destruct (Hlog d Hd1) as [?|[-> ?]]; [by left|right]. by eexists.
      * right. exists rel. split; [done|]. intros ?. apply Hrel. by apply Hsub.
Qed.

Lemma fetch_root_spec remote_root local_root tree st :
  raised st = None →
  let st' := fetch_root relpath local_join tr remote_root local_root tree st in
  processed st ⊆ processed st'
  ∧ (raised st' = None →
     ∀ f, f ∈ (walk_remote remote_root tree).1 →
          transfer_ok tr f (local_join local_root (relpath f remote_root)) = true →
          relpath f remote_root ∈ processed st')
  ∧ (∀ d, d ∈ downloads st' →
          d ∈ downloads st ∨ ∃ rel, d = (local_root, rel) ∧ rel ∉ processed st).
Proof.
  intros Hrun st'. subst st'. unfold fetch_root.
  destruct (fetch_files_spec remote_root local_root
              (walk_remote remote_root tree).1 st Hrun) as (Hsub & Hok & Hlog).
  destruct (raised (fold_left _ _ st)) as [e|] eqn:Hr.
  - rewrite Hr. done.
  - destruct (walk_remote remote_root tree).2 as [e|]; cbn.
    + split; [done|]. split; [done|]. done.
    + rewrite Hr. split; [done|]. split; [|done]. intros _. by apply Hok.
Qed.

End Download.

Lemma load_save_manifest order m :
  (∀ paths, order paths ≡ₚ elements paths) →
  load_manifest (save_manifest order m) = m.
Proof.
  intros Horder. unfold load_manifest, save_manifest.
  rewrite <- map_fmap_compose. apply map_eq. intros root.
  rewrite lookup_fmap. destruct (m !! root) as [paths|]; [|done].
  simpl. f_equal. apply set_eq. intros x.
  by rewrite elem_of_list_to_set, Horder, elem_of_elements.
Qed.

Section DownloadRun.

Variables relpath local_join : string → string → string.

Lemma run_root_raised tr r root :
  is_Some (run_raised r) → run_root relpath local_join tr r root = r.
Proof. intros [e He]. unfold run_root. by rewrite He. Qed.

Lemma run_roots_raised tr roots :
  ∀ r, is_Some (run_raised r) →
       fold_left (run_root relpath local_join tr) roots r = r.
Proof.
  induction roots as [|root roots IH]; intros r Hr; [done|].
  simpl. rewrite run_root_raised by done. by apply IH.
Qed.

Lemma run_root_spec tr r root :
  run_raised r = None →
  let r' := run_root relpath local_join tr r root in
  (∀ lr, recorded (manifest r) lr ⊆ recorded (manifest r') lr)
  ∧ (run_raised r' = None →
     ∀ f, f ∈ (walk_remote root.1.1 root.2).1 →
          transfer_ok tr f (local_join root.1.2 (relpath f root.1.1)) = true →
          relpath f root.1.1 ∈ recorded (manifest r') root.1.2)
  ∧ (∀ d, d ∈ run_downloads r' →
          d ∈ run_downloads r
          ∨ ∃ rel, d = (root.1.2, rel) ∧ rel ∉ recorded (manifest r) root.1.2).
Proof.
  intros Hrun r'. subst r'. unfold run_root. rewrite Hrun.
  set (st0 := {| processed := default ∅ (manifest r !! root.1.2);
                 local_files := run_files r;
                 downloads := run_downloads r; raised := None |}).
  destruct (fetch_root_spec relpath local_join tr root.1.1 root.1.2 root.2 st0 eq_refl)
    as (Hsub & Hok & Hlog).
  set (st := fetch_root relpath local_join tr root.1.1 root.1.2 root.2 st0) in *.
  cbn [manifest run_downloads run_raised]. split; [|split].
  - intros lr. destruct (raised st); [done|]. unfold recorded.
    destruct (decide (root.1.2 = lr)) as [<-|Hne].
    + by rewrite lookup_insert_eq.
    + by rewrite lookup_insert_ne.
  - intros Hr f Hf Ht. rewrite Hr. unfold recorded.
    rewrite lookup_insert_eq. by apply Hok.
  - done.
Qed.

Lemma run_roots_spec tr roots :
  ∀ r,
    run_raised r = None →
    let r' := fold_left (run_root relpath local_join tr) roots r in
    (∀ lr, recorded (manifest r) lr ⊆ recorded (manifest r') lr)
    ∧ (run_raised r' = None →
       ∀ root f, root ∈ roots → f ∈ (walk_remote root.1.1 root.2).1 →
         transfer_ok tr f (local_join root.1.2 (relpath f root.1.1)) = true →
         relpath f root.1.1 ∈ recorded (manifest r') root.1.2)
    ∧ (∀ d, d ∈ run_downloads r' →
            d ∈ run_downloads r
            ∨ ∃ lr rel, d = (lr, rel) ∧ rel ∉ recorded (manifest r) lr).
Proof.
  induction roots as [|root roots IH]; intros r Hrun.
  { simpl. split; [done|]. split; [|by left].
    intros _ root f Hroot. by apply elem_of_nil in Hroot. }
  cbn [fold_left]. cbv zeta.
  destruct (run_root_spec tr r root Hrun) as (Hsub & Hok & Hlog).
  set (r1 := run_root relpath local_join tr r root) in *.
  destruct (run_raised r1) as [e|] eqn:Hr1.
  - rewrite run_roots_raised by (by eexists). rewrite Hr1.
    split; [done|]. split; [done|]. intros d Hd.
    destruct (Hlog d Hd) as [?|(rel & -> & ?)]; [by left|right]. by eauto.
  - destruct (IH r1 Hr1) as (Hsub' & Hok' & Hlog').
    split; [intros lr; etrans; [apply Hsub | apply Hsub']|]. split.
    + intros Hr root' f [-> | Hin]%elem_of_cons Hf Ht.
      * apply Hsub'. by apply Hok.
      * by apply Hok'.
    + intros d Hd. destruct (Hlog' d Hd) as [Hd1 | (lr & rel & -> & Hrel)].
      * destruct (Hlog d Hd1) as [?|(rel & -> & ?)]; [by left|right]. by eauto.
      * right. exists lr, rel. split; [done|]. intros ?. apply Hrel. by apply Hsub.
Qed.

(** X23: what a run records.  When [download_and_process] completes, it
    saves a manifest that keeps every path loaded from the manifest file
    and holds, under its local root, the relative path of every remote
    file whose transfer (and extraction, for an archive) succeeded; when
    an exception leaves the function, the manifest file is the one from
    before the run.  In either case [sftp.get] is never called for a path
    that the loaded manifest holds under that local root. *)
Theorem download_records order tr roots file files :
  let run := download_and_process relpath local_join order tr roots file files in
  (run_raised run.2 = None →
   run.1 = save_manifest order (manifest run.2)
   ∧ (∀ lr, recorded (load_manifest file) lr ⊆ recorded (manifest run.2) lr)
   ∧ ∀ remote_root local_root tree f,
       (remote_root, local_root, tree) ∈ roots →
       f ∈ (walk_remote remote_root tree).1 →
       transfer_ok tr f (local_join local_root (relpath f remote_root)) = true →
       relpath f remote_root ∈ recorded (manifest run.2) local_root)
  ∧ (is_Some (run_raised run.2) → run.1 = file)
  ∧ (∀ lr rel, (lr, rel) ∈ run_downloads run.2 →
               rel ∉ recorded (load_manifest file) lr).
Proof.
  intros run. subst run. unfold download_and_process. cbn [fst snd].
  set (r0 := {| manifest := load_manifest file; run_files := files;
                run_downloads := []; run_raised := None |}).
  destruct (run_roots_spec tr roots r0 eq_refl) as (Hsub & Hok & Hlog).
  set (r := fold_left (run_root relpath local_join tr) roots r0) in *.
  split; [|split].
  - intros Hr. rewrite Hr. split; [done|]. split; [done|].
    intros remote_root local_root tree f Hroot Hf Ht.
    by apply (Hok Hr (remote_root, local_root, tree) f).
  - intros [e He]. by rewrite He.
  - intros lr rel Hd. destruct (Hlog _ Hd) as [Hnil | (lr' & rel' & [= -> ->] & ?)].
    + by apply elem_of_nil in Hnil.
    + done.
Qed.

(** X24: a run resumes where the last one stopped.  After a run that
    completed, a file that it transferred is not downloaded by the next
    run, which starts from the manifest file that the first one saved,
    whatever the remote trees then hold and however the transfers then
    behave. *)
Theorem next_run_skips_recorded order tr1 tr2 roots1 roots2 file files
    remote_root local_root tree f :
  (∀ paths, order paths ≡ₚ elements paths) →
  let run1 := download_and_process relpath local_join order tr1 roots1 file files in
  run_raised run1.2 = None →
  (remote_root, local_root, tree) ∈ roots1 →
  f ∈ (walk_remote remote_root tree).1 →
  transfer_ok tr1 f (local_join local_root (relpath f remote_root)) = true →
  let run2 := download_and_process relpath local_join order tr2 roots2 run1.1
                (run_files run1.2) in
  (local_root, relpath f remote_root) ∉ run_downloads run2.2.
Proof.
  intros Horder run1 Hdone Hroot Hf Ht run2 Hd.
  subst run1 run2. unfold download_and_process in *. cbn [fst snd] in *.
  set (r0 := {| manifest := load_manifest file; run_files := files;
                run_downloads := []; run_raised := None |}) in *.
  destruct (run_roots_spec tr1 roots1 r0 eq_refl) as (_ & Hok & _).
  set (r1 := fold_left (run_root relpath local_join tr1) roots1 r0) in *.
  rewrite Hdone in Hd.
  pose proof (Hok Hdone (remote_root, local_root, tree) f Hroot Hf Ht) as Hrec.
  set (r0' := {| manifest := load_manifest (save_manifest order (manifest r1));
                 run_files := run_files r1;
                 run_downloads := []; run_raised := None |}) in *.
  destruct (run_roots_spec tr2 roots2 r0' eq_refl) as (_ & _ & Hlog).
  destruct (Hlog _ Hd) as [Hnil | (lr & rel & [= <- <-] & Hnot)].
  - by apply elem_of_nil in Hnil.
  - apply Hnot. subst r0'. cbn [manifest].
    by rewrite load_save_manifest.
Qed.

End DownloadRun.

Section DownloadSound.

Variables relpath local_join : string → string → string.
Variable tr : Local.







End DownloadSound.


Lemma next_run_skips_recorded_witness :
  let run1 := download_and_process demo_relpath demo_join elements demo_local
                demo_roots NoManifest ∅ in
  let run2 := download_and_process demo_relpath demo_join elements demo_local
                demo_roots run1.1 (run_files run1.2) in
  ("L", demo_relpath "/r/b.zip" "/r") ∉ run_downloads run2.2.
Proof.
  apply (next_run_skips_recorded demo_relpath demo_join elements demo_local
           demo_local demo_roots demo_roots NoManifest ∅
           "/r" "L" (RDir [ ("a.txt", RFile); ("b.zip", RFile) ]) "/r/b.zip").
  - done.
  - vm_compute. reflexivity.
  - by left.
  - right. by left.
  - vm_compute. reflexivity.
Defined.
